(** * Video-nodo: the workflow engine of [app.py]

    A shallow embedding of the execution engine of the node editor
    ([build_input_map], [topo_sort], [resolve_input], [node_log],
    [execute_workflow] and the [/run] endpoint), followed by the properties
    of its scheduler, dependency resolver and fail-fast executor loop.

    Conventions of the embedding:
    - a Python [dict] whose iteration order is observed ([indeg.items()]) is
      an insertion-ordered association list ([pydict]); the dictionaries
      that are only looked up ([input_map], [ctx.outputs], a runner's
      result) are [gmap]s;
    - Python exceptions are the [Raise] outcome of a [result]; a subscript
      [d[k]] on a missing key is [Raise (KeyError k)];
    - Python [int]s that are decremented are [Z]; the step counter is [nat];
    - the node runners touch the file system: they are parameters of the
      engine, and thread an abstract [World]. *)

From Stdlib Require Import Ascii.
From Equations Require Import Equations.
From stdpp Require Import gmap strings list sorting.

Set Default Proof Using "Type".
Local Open Scope Z_scope.
Local Open Scope nat_scope.

(** ** Exceptions and fallible computations *)

Inductive exn : Type :=
  | ValueError (msg : string)   (* raised by the engine itself *)
  | KeyError (key : string)     (* [d[k]] with [k] not in [d] *)
  | RunnerError (msg : string). (* whatever a node runner raised; [str(e) = msg] *)

Definition exn_message (e : exn) : string :=
  match e with
  | ValueError msg => msg
  | KeyError key => "'" +:+ key +:+ "'"
  | RunnerError msg => msg
  end.

Inductive result (A : Type) : Type :=
  | Ok (a : A)
  | Raise (e : exn).
Arguments Ok {A} a.
Arguments Raise {A} e.

Definition bind {A B : Type} (r : result A) (k : A → result B) : result B :=
  match r with
  | Ok a => k a
  | Raise e => Raise e
  end.

Notation "x ←! r ; k" := (bind r (λ x, k))
  (at level 20, r at level 100, k at level 200, only parsing, right associativity).

(** [for x in xs: st = body(st, x)], stopping at the first exception. *)
Fixpoint for_each {A S : Type} (body : S → A → result S) (xs : list A) (st : S)
    : result S :=
  match xs with
  | [] => Ok st
  | x :: xs' => st' ←! body st x; for_each body xs' st'
  end.

(** [[f(x) for x in xs]], stopping at the first exception. *)
Fixpoint map_each {A B : Type} (f : A → result B) (xs : list A) : result (list B) :=
  match xs with
  | [] => Ok []
  | x :: xs' => y ←! f x; ys ←! map_each f xs'; Ok (y :: ys)
  end.

(** The two messages the engine raises with. *)
Definition graph_error_message : string :=
  "Grafo con ciclos o links inválidos. No se puede ejecutar.".

(** [GraphError] of the specification: the [ValueError] of [topo_sort]. *)
Definition GraphError : exn := ValueError graph_error_message.

(** [UnsupportedNodeError] of the specification:
    [ValueError(f"Nodo no soportado: {node.type}")]. *)
Definition UnsupportedNodeError (ty : string) : exn :=
  ValueError ("Nodo no soportado: " +:+ ty).

(** ** Insertion-ordered dictionaries *)

Abbreviation pydict V := (list (string * V)).

Section pydict.
Context {V : Type}.

(** [d.get(k)] *)
Fixpoint dict_get (k : string) (d : pydict V) : option V :=
  match d with
  | [] => None
  | (k', v) :: d' => if decide (k = k') then Some v else dict_get k d'
  end.

(** [d[k] = v]: an existing key keeps its position, a new key goes last. *)
Fixpoint dict_set (k : string) (v : V) (d : pydict V) : pydict V :=
  match d with
  | [] => [(k, v)]
  | (k', v') :: d' =>
      if decide (k = k') then (k, v) :: d' else (k', v') :: dict_set k v d'
  end.

(** [k in d] *)
Definition dict_mem (k : string) (d : pydict V) : bool :=
  match dict_get k d with Some _ => true | None => false end.

(** [d[k]] *)
Definition dict_item (k : string) (d : pydict V) : result V :=
  match dict_get k d with
  | Some v => Ok v
  | None => Raise (KeyError k)
  end.

(** [list(d)] *)
Definition dict_keys (d : pydict V) : list string := d.*1.
End pydict.

(** ** The scheduler's loop on node ids *)

(** The inner loop of [topo_sort]:
<<
    for nxt in adj[nid]:
        indeg[nxt] -= 1
        if indeg[nxt] == 0:
            q.append(nxt)
>> *)
Fixpoint relax (succs : list string) (indeg : pydict Z) (q : list string)
    : result (pydict Z * list string) :=
  match succs with
  | [] => Ok (indeg, q)
  | nxt :: rest =>
      d ←! dict_item nxt indeg;
      let indeg := dict_set nxt (d - 1)%Z indeg in
      d' ←! dict_item nxt indeg;
      relax rest indeg (if decide (d' = 0%Z) then q ++ [nxt] else q)
  end.

(** One turn of [while q]: pop the front, then the inner loop. *)
Definition kahn_step (adj : pydict (list string)) (indeg : pydict Z)
    (nid : string) (q : list string) : result (pydict Z * list string) :=
  succs ←! dict_item nid adj; relax succs indeg q.

(** What decreases at every turn: the queue plus the nodes still waiting. *)
Definition waiting (indeg : pydict Z) : nat :=
  length (filter (λ kv, (0 < kv.2)%Z) indeg).

Definition kahn_measure (indeg : pydict Z) (q : list string) : nat :=
  length q + waiting indeg.

Definition inspect {A : Type} (a : A) : {b : A | a = b} := exist _ a eq_refl.

(** The loop ends: a turn takes one node from the queue, and the inner loop
    moves into the queue exactly the nodes that stop waiting. *)

Lemma dict_get_set_eq {V} (k : string) (v : V) (d : pydict V) :
  dict_get k (dict_set k v d) = Some v.
Proof.
  induction d as [|[k' v'] d IH]; simpl.
  - by rewrite decide_True.
  - destruct (decide (k = k')) as [->|Hne]; simpl.
    + by rewrite decide_True.
    + by rewrite decide_False.
Qed.

Lemma waiting_set (k : string) (v v' : Z) (d : pydict Z) :
  dict_get k d = Some v →
  waiting (dict_set k v' d) + (if decide (0 < v)%Z then 1 else 0)
  = waiting d + (if decide (0 < v')%Z then 1 else 0).
Proof.
  unfold waiting. induction d as [|[k0 v0] d IH]; [done|].
  cbn [dict_get dict_set]. destruct (decide (k = k0)) as [->|Hk]; cbn [dict_get dict_set].
  - intros [= ->]. rewrite !filter_cons. simpl.
    repeat case_decide; simpl; lia.
  - intros Hget. specialize (IH Hget). rewrite !filter_cons. simpl.
    repeat case_decide; simpl in *; lia.
Qed.

Lemma relax_measure (succs : list string) :
  ∀ (indeg : pydict Z) (q : list string) indeg' q',
    relax succs indeg q = Ok (indeg', q') →
    kahn_measure indeg' q' = kahn_measure indeg q.
Proof.
  unfold kahn_measure.
  induction succs as [|nxt rest IH]; intros indeg q indeg' q'; simpl.
  - by intros [= -> ->].
  - unfold dict_item at 1. destruct (dict_get nxt indeg) as [d|] eqn:Hd; [|done].
    simpl. unfold dict_item at 1. rewrite dict_get_set_eq. simpl.
    intros Hrun. apply IH in Hrun. rewrite Hrun.
    pose proof (waiting_set nxt d (d - 1)%Z indeg Hd) as Hw.
    repeat case_decide; rewrite ?length_app; simpl in *; lia.
Qed.

Lemma kahn_step_measure adj indeg nid q indeg' q' :
  kahn_step adj indeg nid q = Ok (indeg', q') →
  kahn_measure indeg' q' < kahn_measure indeg (nid :: q).
Proof.
  unfold kahn_step. destruct (dict_item nid adj) as [succs|]; [|done].
  simpl. intros ->%relax_measure. unfold kahn_measure. simpl. lia.
Qed.

(** The [while q] loop of [topo_sort]:
<<
    while q:
        nid = q.pop(0)
        ordered.append(nid)
        for nxt in adj[nid]: ...
>> *)
Equations? kahn_loop (adj : pydict (list string)) (indeg : pydict Z)
    (q ordered : list string) : result (list string)
    by wf (kahn_measure indeg q) lt :=
  kahn_loop adj indeg [] ordered := Ok ordered;
  kahn_loop adj indeg (nid :: q) ordered
    with inspect (kahn_step adj indeg nid q) => {
    | exist _ (Ok (indeg', q')) Hstep := kahn_loop adj indeg' q' (ordered ++ [nid]);
    | exist _ (Raise e) _ := Raise e }.
Proof. by apply kahn_step_measure in Hstep. Qed.

(** ** The data model *)

(** [class PortLink(BaseModel)] *)
Record PortLink : Type := {
  from_node : string;
  from_port : string;
  to_node : string;
  to_port : string;
}.

(** One entry of the dependency map: [{"from_node": .., "from_port": ..}]. *)
Record Source : Type := {
  src_node : string;
  src_port : string;
}.

(** The registered runners, by name. *)
Inductive Runner : Type :=
  | run_node_text
  | run_node_readfile
  | run_node_writefile
  | run_node_mergeaudio
  | run_node_videoclip
  | run_node_concatvideo.

Definition NODE_RUNNERS : pydict Runner :=
  [ ("Text", run_node_text);
    ("ReadFile", run_node_readfile);
    ("WriteFile", run_node_writefile);
    ("MergeAudio", run_node_mergeaudio);
    ("VideoClip", run_node_videoclip);
    ("ConcatVideo", run_node_concatvideo) ].

(** [m.setdefault(k, v)] on a dictionary that is only looked up. *)
Definition setdefault {V : Type} (k : string) (v : V) (m : gmap string V)
    : gmap string V :=
  match m !! k with
  | Some _ => m
  | None => <[k := v]> m
  end.

Section engine.
Context {Any : Type}.

(** [class Node(BaseModel)]; [position] is metadata of the editor, which the
    engine never reads. *)
Record Node : Type := {
  id : string;
  type : string;
  data : gmap string Any;
}.

(** [class Workflow(BaseModel)] *)
Record Workflow : Type := {
  nodes : list Node;
  links : list PortLink;
}.

(** One entry of [ctx.logs]: the four keys every entry has, and what
    [entry.update(extra)] adds. *)
Inductive LogExtra : Type :=
  | ExtraOutputs (out : gmap string Any)
  | ExtraError (error : string).

Record LogEntry : Type := {
  log_step : nat;
  log_node : string;
  log_type : string;
  log_status : string;
  log_extra : option LogExtra;
}.

(** [class ExecutionContext] *)
Record ExecutionContext : Type := {
  outputs : gmap string (gmap string Any);
  logs : list LogEntry;
  step : nat;
}.

(** [ExecutionContext()] *)
Definition new_context : ExecutionContext :=
  {| outputs := ∅; logs := []; step := 0 |}.

(** *** The dependency map *)

Definition bind_link (m : gmap string (gmap string Source)) (link : PortLink)
    : gmap string (gmap string Source) :=
  let m := setdefault (to_node link) ∅ m in
  <[to_node link :=
      <[to_port link :=
          {| src_node := from_node link; src_port := from_port link |}]>
        (default ∅ (m !! to_node link))]> m.

Definition build_input_map (workflow : Workflow) : gmap string (gmap string Source) :=
  foldl bind_link ∅ (links workflow).

(** [src] is a two-key dictionary when present, hence never falsy: [if not
    src] is the test for [None]. *)
Definition resolve_input (node_id port : string)
    (input_map : gmap string (gmap string Source)) (ctx : ExecutionContext)
    : option Any :=
  match default ∅ (input_map !! node_id) !! port with
  | None => None
  | Some src => default ∅ (outputs ctx !! src_node src) !! src_port src
  end.

(** *** The scheduler *)

(** [{n.id: f(n) for n in nodes}] *)
Definition dict_of_nodes {V : Type} (f : Node → V) (ns : list Node) : pydict V :=
  foldl (λ d n, dict_set (id n) (f n) d) [] ns.

(** The body of [for link in workflow.links]. *)
Definition add_link (nodes_by_id : pydict Node)
    (st : pydict (list string) * pydict Z) (link : PortLink)
    : result (pydict (list string) * pydict Z) :=
  if dict_mem (from_node link) nodes_by_id && dict_mem (to_node link) nodes_by_id
  then
    succs ←! dict_item (from_node link) st.1;
    let adj := dict_set (from_node link) (succs ++ [to_node link]) st.1 in
    d ←! dict_item (to_node link) st.2;
    Ok (adj, dict_set (to_node link) (d + 1)%Z st.2)
  else Ok st.

(** The three dictionaries of [topo_sort] once the links are read. *)
Definition read_links (workflow : Workflow)
    : result (pydict (list string) * pydict Z) :=
  let nodes_by_id := dict_of_nodes (λ n, n) (nodes workflow) in
  let indeg := dict_of_nodes (λ _, 0%Z) (nodes workflow) in
  let adj := dict_of_nodes (λ _, []) (nodes workflow) in
  for_each (add_link nodes_by_id) (links workflow) (adj, indeg).

(** [[nid for nid, d in indeg.items() if d == 0]] *)
Definition ready (indeg : pydict Z) : list string :=
  (filter (λ kv, kv.2 = 0%Z) indeg).*1.

(** [topo_sort] up to the end of its [while] loop: the list [ordered]. *)
Definition kahn_order (workflow : Workflow) : result (list string) :=
  st ←! read_links workflow;
  kahn_loop st.1 st.2 (ready st.2) [].

Definition topo_sort (workflow : Workflow) : result (list Node) :=
  let nodes_by_id := dict_of_nodes (λ n, n) (nodes workflow) in
  ordered ←! kahn_order workflow;
  if decide (length ordered ≠ length (nodes workflow))
  then Raise GraphError
  else map_each (λ nid, dict_item nid nodes_by_id) ordered.

(** *** Logging *)

Definition node_log (ctx : ExecutionContext) (node : Node) (status : string)
    (extra : option LogExtra) : ExecutionContext :=
  let step' := S (step ctx) in
  {| outputs := outputs ctx;
     logs := logs ctx ++ [ {| log_step := step'; log_node := id node;
                              log_type := type node; log_status := status;
                              log_extra := extra |} ];
     step := step' |}.

(** *** The executor *)

(** What a runner does is outside the engine: it reads the node, the
    dependency map and the context (none of the six runners writes to
    [ctx]), acts on the world, and either returns its outputs or raises. *)
Inductive RunnerResult : Type :=
  | Returns (out : gmap string Any)
  | Raises (msg : string).

Context {World : Type}.
Context (WORKSPACE : string).
(** [runner(node, ctx)] *)
Context (call_ctx : Runner → Node → ExecutionContext → World → RunnerResult * World).
(** [runner(node, input_map, ctx)] *)
Context (call_map : Runner → Node → gmap string (gmap string Source) →
                    ExecutionContext → World → RunnerResult * World).

(** The state of a run: the context, the world the runners act on, and the
    ids of the nodes whose runner has been called so far (a ghost trace). *)
Record RunState : Type := {
  ctx : ExecutionContext;
  world : World;
  invoked : list string;
}.

(** The dispatch inside [try]. *)
Definition call_runner (runner : Runner) (node : Node)
    (input_map : gmap string (gmap string Source)) (c : ExecutionContext)
    (wd : World) : RunnerResult * World :=
  if bool_decide (type node ∈ ["WriteFile"; "MergeAudio"; "VideoClip"; "ConcatVideo"])
  then call_map runner node input_map c wd
  else if bool_decide (type node ∈ ["Text"; "ReadFile"])
  then call_ctx runner node c wd
  else call_map runner node input_map c wd.

(** The body of [for node in ordered]. *)
Definition run_node (input_map : gmap string (gmap string Source))
    (st : RunState) (node : Node) : RunState * result () :=
  let c1 := node_log (ctx st) node "running" None in
  match dict_get (type node) NODE_RUNNERS with
  | None =>
      ({| ctx := c1; world := world st; invoked := invoked st |},
       Raise (UnsupportedNodeError (type node)))
  | Some runner =>
      let '(r, wd) := call_runner runner node input_map c1 (world st) in
      let called := invoked st ++ [id node] in
      match r with
      | Returns out =>
          let c2 := {| outputs := <[id node := out]> (outputs c1);
                       logs := logs c1; step := step c1 |} in
          let c3 := node_log c2 node "done" (Some (ExtraOutputs out)) in
          ({| ctx := c3; world := wd; invoked := called |}, Ok ())
      | Raises msg =>
          let c2 := node_log c1 node "error" (Some (ExtraError msg)) in
          ({| ctx := c2; world := wd; invoked := called |}, Raise (RunnerError msg))
      end
  end.

Fixpoint run_nodes (input_map : gmap string (gmap string Source))
    (ordered : list Node) (st : RunState) : RunState * result () :=
  match ordered with
  | [] => (st, Ok ())
  | node :: rest =>
      match run_node input_map st node with
      | (st', Ok _) => run_nodes input_map rest st'
      | (st', Raise e) => (st', Raise e)
      end
  end.

(** The dictionary [execute_workflow] returns. *)
Record Bundle : Type := {
  ok : bool;
  workspace : string;
  bundle_outputs : gmap string (gmap string Any);
  bundle_logs : list LogEntry;
}.

(** The state a run starts in: a fresh context, no runner called yet. *)
Definition initial_state (wd : World) : RunState :=
  {| ctx := new_context; world := wd; invoked := [] |}.

(** [execute_workflow], with the state the run stops in. *)
Definition execute_workflow_run (workflow : Workflow) (wd : World)
    : RunState * result Bundle :=
  let st0 := initial_state wd in
  let input_map := build_input_map workflow in
  match topo_sort workflow with
  | Raise e => (st0, Raise e)
  | Ok ordered =>
      match run_nodes input_map ordered st0 with
      | (st, Ok _) =>
          (st, Ok {| ok := true; workspace := WORKSPACE;
                     bundle_outputs := outputs (ctx st);
                     bundle_logs := logs (ctx st) |})
      | (st, Raise e) => (st, Raise e)
      end
  end.

(** [execute_workflow] as its caller sees it: [ctx] is a local variable. *)
Definition execute_workflow (workflow : Workflow) (wd : World) : result Bundle :=
  (execute_workflow_run workflow wd).2.

(** [POST /run] *)
Inductive Response : Type :=
  | JSONResponse (content : Bundle)
  | HTTPException (status_code : nat) (detail : string).

Definition run_workflow_api (payload : Workflow) (wd : World) : Response :=
  match execute_workflow payload wd with
  | Ok res => JSONResponse res
  | Raise e => HTTPException 400 (exn_message e)
  end.

End engine.

(** * The vocabulary of the properties *)

(** ** Counts over the edges of the ordering graph

    An edge is a pair [(from_node, to_node)]; [E] lists the edges in the
    order of the links they come from. *)

(** Occurrences of [k] in a list of successors. *)
Definition occurrences (k : string) (l : list string) : nat :=
  length (filter (λ x, x = k) l).

(** [adj[nid]] once the links are read. *)
Definition successors (E : list (string * string)) (nid : string) : list string :=
  (filter (λ e, e.1 = nid) E).*2.

(** The in-degree of [k] that the nodes outside [ordered] still account for. *)
Definition remaining (E : list (string * string)) (ordered : list string)
    (k : string) : nat :=
  length (filter (λ e, e.2 = k ∧ e.1 ∉ ordered) E).

(** What holds at every test of [while q], for the keys [K] and the edges
    [E] of the ordering graph. *)
Record kahn_inv (K : list string) (E : list (string * string))
    (indeg : pydict Z) (q ordered : list string) : Prop := {
  inv_keys : dict_keys indeg = K;
  inv_indeg : ∀ k, k ∈ K → dict_get k indeg = Some (Z.of_nat (remaining E ordered k));
  inv_nodup : NoDup (ordered ++ q);
  inv_ready : ∀ k, k ∈ ordered ++ q ↔ k ∈ K ∧ remaining E ordered k = 0;
  inv_linear : ∀ a b j, (a, b) ∈ E → ordered !! j = Some b →
                 ∃ i, i < j ∧ ordered !! i = Some a;
}.

(** [a] stands before [b] in [ids]. *)
Definition precedes (ids : list string) (a b : string) : Prop :=
  ∃ i j, i < j ∧ ids !! i = Some a ∧ ids !! j = Some b.

(** ** Graphs, bindings and log entries *)

Section vocabulary.
Context {Any : Type}.
Implicit Types (w : @Workflow Any) (l : PortLink) (k : string) (n : @Node Any).
Implicit Types (m : gmap string (gmap string Source)) (c : @ExecutionContext Any).

(** The ids of the declared nodes, in declaration order. *)
Definition declared_ids w : list string := id <$> nodes w.

(** A link the scheduler keeps: both endpoints are declared. *)
Definition valid_link w l : Prop :=
  from_node l ∈ declared_ids w ∧ to_node l ∈ declared_ids w.

#[global] Instance valid_link_dec w l : Decision (valid_link w l).
Proof. unfold valid_link. apply _. Defined.

(** The edges of the ordering graph, in the order of their links. *)
Definition edges w : list (string * string) :=
  (λ l, (from_node l, to_node l)) <$> filter (valid_link w) (links w).

(** The keys of the scheduler's dictionaries: the declared ids, each at its
    first declaration. *)
Definition scheduler_keys w : list string :=
  dict_keys (dict_of_nodes (λ n, n) (nodes w)).

(** The number of valid links into [k]. *)
Definition in_degree w k : nat := length (filter (λ e, e.2 = k) (edges w)).

Definition edge_of l : string * string := (from_node l, to_node l).

(** What [adj] and [indeg] hold once the edges [E] are read. *)
Definition links_read w (E : list (string * string))
    (adj : pydict (list string)) (indeg : pydict Z) : Prop :=
  dict_keys adj = scheduler_keys w
  ∧ dict_keys indeg = scheduler_keys w
  ∧ (∀ k, k ∈ scheduler_keys w → dict_get k adj = Some (successors E k))
  ∧ (∀ k, k ∈ scheduler_keys w →
       dict_get k indeg = Some (Z.of_nat (remaining E [] k))).

(** The ordering graph as a relation on ids. *)
Definition edge w : relation string := λ a b, (a, b) ∈ edges w.

(** The valid edges form no cycle. *)
Definition acyclic w : Prop := ∀ x, ¬ tc (edge w) x x.

(** The valid edges contain a cycle. *)
Definition has_cycle w : Prop := ∃ x, tc (edge w) x x.





(** [input_map.get(node_id, {}).get(port)] *)
Definition binding m (node_id port : string) : option Source :=
  default ∅ (m !! node_id) !! port.

(** [ctx.outputs.get(node_id, {}).get(port)] *)
Definition captured c (node_id port : string) : option Any :=
  default ∅ (outputs c !! node_id) !! port.

Definition source_of l : Source :=
  {| src_node := from_node l; src_port := from_port l |}.

(** [l] binds the input [port] of [node_id]. *)
Definition targets (node_id port : string) l : Prop :=
  to_node l = node_id ∧ to_port l = port.

#[global] Instance targets_dec node_id port l : Decision (targets node_id port l).
Proof. unfold targets. apply _. Defined.

(** The three entries [node_log] writes for a node. *)
Definition running_entry (s : nat) n : @LogEntry Any :=
  {| log_step := s; log_node := id n; log_type := type n;
     log_status := "running"; log_extra := None |}.

Definition done_entry (s : nat) n (out : gmap string Any) : @LogEntry Any :=
  {| log_step := s; log_node := id n; log_type := type n;
     log_status := "done"; log_extra := Some (ExtraOutputs out) |}.

Definition error_entry (s : nat) n (msg : string) : @LogEntry Any :=
  {| log_step := s; log_node := id n; log_type := type n;
     log_status := "error"; log_extra := Some (ExtraError msg) |}.

End vocabulary.

(** ** Runs of runners that are not functions

    What a runner returns may depend on more than the engine passes to it
    (the files of the workspace, the encoder).  Here a call of a runner is a
    relation between what the engine passes and what comes back, and a run
    is the same loop over that relation. *)

Section runs.
Context {Any World : Type}.
Context (WORKSPACE : string).
Context (may_ctx : Runner → @Node Any → @ExecutionContext Any → World →
                   @RunnerResult Any * World → Prop).
Context (may_map : Runner → @Node Any → gmap string (gmap string Source) →
                   @ExecutionContext Any → World →
                   @RunnerResult Any * World → Prop).
Implicit Types (w : @Workflow Any) (n node : @Node Any) (ns : list (@Node Any)).
Implicit Types (st : @RunState Any World) (c : @ExecutionContext Any).
Implicit Types (im : gmap string (gmap string Source)) (wd : World).

(** The dispatch inside [try]. *)
Definition may_call (runner : Runner) node im c wd
    (r : @RunnerResult Any * World) : Prop :=
  if bool_decide (type node ∈ ["WriteFile"; "MergeAudio"; "VideoClip"; "ConcatVideo"])
  then may_map runner node im c wd r
  else if bool_decide (type node ∈ ["Text"; "ReadFile"])
  then may_ctx runner node c wd r
  else may_map runner node im c wd r.

(** The body of [for node in ordered]. *)
Inductive runs_node im st node : @RunState Any World * result () → Prop :=
  | node_unsupported :
      dict_get (type node) NODE_RUNNERS = None →
      runs_node im st node
        ({| ctx := node_log (ctx st) node "running" None;
            world := world st; invoked := invoked st |},
         Raise (UnsupportedNodeError (type node)))
  | node_done runner out wd :
      dict_get (type node) NODE_RUNNERS = Some runner →
      may_call runner node im (node_log (ctx st) node "running" None) (world st)
        (Returns out, wd) →
      runs_node im st node
        ({| ctx := node_log
                     {| outputs := <[id node := out]> (outputs (ctx st));
                        logs := logs (node_log (ctx st) node "running" None);
                        step := step (node_log (ctx st) node "running" None) |}
                     node "done" (Some (ExtraOutputs out));
            world := wd; invoked := invoked st ++ [id node] |},
         Ok ())
  | node_error runner msg wd :
      dict_get (type node) NODE_RUNNERS = Some runner →
      may_call runner node im (node_log (ctx st) node "running" None) (world st)
        (Raises msg, wd) →
      runs_node im st node
        ({| ctx := node_log (node_log (ctx st) node "running" None) node "error"
                     (Some (ExtraError msg));
            world := wd; invoked := invoked st ++ [id node] |},
         Raise (RunnerError msg)).

Inductive runs_nodes im : list (@Node Any) → @RunState Any World →
    @RunState Any World * result () → Prop :=
  | runs_nil st : runs_nodes im [] st (st, Ok ())
  | runs_next node rest st st' r :
      runs_node im st node (st', Ok ()) →
      runs_nodes im rest st' r →
      runs_nodes im (node :: rest) st r
  | runs_stop node rest st st' e :
      runs_node im st node (st', Raise e) →
      runs_nodes im (node :: rest) st (st', Raise e).

(** [execute_workflow], with the state the run stops in. *)
Inductive executes w wd : @RunState Any World * result (@Bundle Any) → Prop :=
  | executes_unordered e :
      topo_sort w = Raise e →
      executes w wd (initial_state wd, Raise e)
  | executes_all order st :
      topo_sort w = Ok order →
      runs_nodes (build_input_map w) order (initial_state wd) (st, Ok ()) →
      executes w wd
        (st, Ok {| ok := true; workspace := WORKSPACE;
                   bundle_outputs := outputs (ctx st);
                   bundle_logs := logs (ctx st) |})
  | executes_stopped order st e :
      topo_sort w = Ok order →
      runs_nodes (build_input_map w) order (initial_state wd) (st, Raise e) →
      executes w wd (st, Raise e).

(** The runners behave the same whenever they are passed the same. *)
Definition deterministic_runners : Prop :=
  (∀ runner node c wd r1 r2,
     may_ctx runner node c wd r1 → may_ctx runner node c wd r2 → r1 = r2)
  ∧ (∀ runner node im c wd r1 r2,
       may_map runner node im c wd r1 → may_map runner node im c wd r2 → r1 = r2).

End runs.

(** The runners of the executor as relations: the graphs of two functions. *)
Section graphs.
Context {Any World : Type}.
Context (call_ctx : Runner → @Node Any → @ExecutionContext Any → World →
                    @RunnerResult Any * World).
Context (call_map : Runner → @Node Any → gmap string (gmap string Source) →
                    @ExecutionContext Any → World → @RunnerResult Any * World).
Implicit Types (node : @Node Any) (wd : World).
Implicit Types (im : gmap string (gmap string Source)).

Definition ctx_graph (runner : Runner) node (c : @ExecutionContext Any) wd
    (r : @RunnerResult Any * World) : Prop :=
  r = call_ctx runner node c wd.

Definition map_graph (runner : Runner) node im (c : @ExecutionContext Any) wd
    (r : @RunnerResult Any * World) : Prop :=
  r = call_map runner node im c wd.

End graphs.

(** ** Concrete graphs and runners *)

Module Examples.

(** Two runners in the manner of [run_node_text] and [run_node_writefile]:
    values are strings, and the world is the list of the files written. *)
Definition files : Type := list (string * string).

Definition text_call (runner : Runner) (n : @Node string)
    (c : @ExecutionContext string) (fs : files) : @RunnerResult string * files :=
  match runner with
  | run_node_text => (Returns {["text" := default "" (data n !! "text")]}, fs)
  | _ => (Raises "ReadFile requiere data.path", fs)
  end.

Definition write_call (runner : Runner) (n : @Node string)
    (im : gmap string (gmap string Source)) (c : @ExecutionContext string)
    (fs : files) : @RunnerResult string * files :=
  match runner, data n !! "path" with
  | run_node_writefile, Some path =>
      let content := default (default "" (data n !! "text"))
                       (resolve_input (id n) "text" im c) in
      (Returns {["path" := path]}, (path, content) :: fs)
  | run_node_writefile, None => (Raises "WriteFile requiere data.path", fs)
  | _, _ => (Raises "MergeAudio requiere inputs a y b", fs)
  end.

Definition node (i ty : string) (d : list (string * string)) : @Node string :=
  {| id := i; type := ty; data := list_to_map d |}.

Definition link (a ap b bp : string) : PortLink :=
  {| from_node := a; from_port := ap; to_node := b; to_port := bp |}.

Definition T := node "T" "Text" [("text", "hello")].
Definition W := node "W" "WriteFile" [("path", "out.txt")].
Definition B := node "B" "Bogus" [].
Definition F := node "F" "WriteFile" [].
Definition Z := node "Z" "WriteFile" [("path", "z.txt")].

(** [T.text → W.text] *)
Definition pipeline : @Workflow string :=
  {| nodes := [T; W]; links := [link "T" "text" "W" "text"] |}.

(** [A → B → A] *)
Definition two_cycle : @Workflow string :=
  {| nodes := [node "A" "Text" []; node "B" "Text" []];
     links := [link "A" "text" "B" "x"; link "B" "text" "A" "x"] |}.

(** Two independent nodes, declared [W] then [T]. *)
Definition branches : @Workflow string :=
  {| nodes := [W; T]; links := [] |}.


(** Two links into [W.text]. *)
Definition fan_in : @Workflow string :=
  {| nodes := [T; node "U" "Text" [("text", "bye")]; W];
     links := [link "T" "text" "W" "text"; link "U" "text" "W" "text"] |}.

(** A node of an unregistered type after [T]. *)
Definition with_bogus : @Workflow string :=
  {| nodes := [T; B]; links := [link "T" "text" "B" "text"] |}.

(** A chain of three nodes whose second runner raises. *)
Definition failing_chain : @Workflow string :=
  {| nodes := [T; F; Z];
     links := [link "T" "text" "F" "text"; link "F" "path" "Z" "text"] |}.

(** Two nodes declared with the id ["T"], and no link. *)
Definition twice : @Workflow string :=
  {| nodes := [T; node "T" "Text" [("text", "again")]]; links := [] |}.

Definition rank (k : string) : nat := if decide (k = "T") then 0 else 1.

(** A link from an undeclared node ["X"] into [W.text], declared last. *)
Definition from_nowhere : PortLink := link "X" "out" "W" "text".

Definition after_T_context : @ExecutionContext string :=
  {| outputs := {["T" := {["text" := "hello"]}]}; logs := []; step := 2 |}.

(** The state of a run once [T] has run. *)
Definition after_T : @RunState string files :=
  {| ctx := {| outputs := {["T" := {["text" := "hello"]}]};
               logs := [running_entry 1 T; done_entry 2 T {["text" := "hello"]}];
               step := 2 |};
     world := []; invoked := ["T"] |}.

(** The run of the pipeline, as a function. *)
Definition pipeline_run : @RunState string files * result (@Bundle string) :=
  execute_workflow_run "ws" text_call write_call pipeline [].

End Examples.

(** * More of the engine: the vocabulary of further properties *)

Section run_logs.
Context {Any : Type}.

(** The steps of the entries count up from one, and [ctx.step] is their
    number. *)
Definition numbered (c : @ExecutionContext Any) : Prop :=
  log_step <$> logs c = seq 1 (length (logs c)) ∧ step c = length (logs c).

(** The entries of nodes that ran to their end, the counter being at [s]
    before the first of them. *)
Fixpoint done_logs (s : nat) (done : list (@Node Any * gmap string Any))
    : list (@LogEntry Any) :=
  match done with
  | [] => []
  | (n, out) :: rest =>
      running_entry (S s) n :: done_entry (S (S s)) n out
        :: done_logs (S (S s)) rest
  end.

(** [ctx.outputs] once the nodes of [done] have run to their end. *)
Definition capture_all (done : list (@Node Any * gmap string Any))
    (o : gmap string (gmap string Any)) : gmap string (gmap string Any) :=
  foldl (λ o p, <[id p.1 := p.2]> o) o done.

End run_logs.

(** * The runners of text files, and the paths of the workspace

    [run_node_text], [run_node_readfile] and [run_node_writefile] with
    [safe_path] and [rel_from_workspace].  What they ask of Python and of
    the operating system is an interface: [str], [bool], [int] and
    [str.strip] on the values of [node.data], and the file system behind
    [pathlib].  A path is the list of its components below the root, as
    [Path.resolve()] returns it on a POSIX system. *)

(** What the runners ask of a value of [node.data] (JSON decoded by
    pydantic), with the [str] objects they produce themselves. *)
Class PyValues (Any : Type) : Type := {
  py_str : Any → string;
  py_bool : Any → bool;
  py_int : Any → result Z;
  py_is_none : Any → bool;
  py_strip : string → string;
  of_str : string → Any;
  py_str_of_str : ∀ s, py_str (of_str s) = s;
  py_bool_of_str : ∀ s, py_bool (of_str s) = bool_decide (s ≠ "");
  py_is_none_of_str : ∀ s, py_is_none (of_str s) = false;
}.

(** What the runners ask of the file system: [Path.resolve()] on the
    components of an absolute path (it follows the symbolic links, and
    raises on a loop of them), [Path.exists()], [Path.read_text(..)],
    [Path.write_text(..)] and [Path.mkdir(parents=True, exist_ok=True)].
    A write that raises may still have changed the file system. *)
Class FileSystem (FS : Type) : Type := {
  fs_resolve : FS → list string → result (list string);
  fs_exists : FS → list string → bool;
  fs_read_text : FS → list string → result string;
  fs_write_text : FS → list string → string → result () * FS;
  fs_mkdir_parents : FS → list string → result () * FS;
}.

(** [s.lstrip("\\/")] *)
Fixpoint lstrip_slashes (s : string) : string :=
  match s with
  | String c s' =>
      if bool_decide (c = "/"%char ∨ c = "\"%char) then lstrip_slashes s' else s
  | EmptyString => s
  end.

(** [s.split(sep)] for a separator of one character. *)
Fixpoint split_on (sep : Ascii.ascii) (s : string) : list string :=
  match s with
  | EmptyString => [EmptyString]
  | String c s' =>
      if decide (c = sep) then EmptyString :: split_on sep s'
      else match split_on sep s' with
           | x :: xs => String c x :: xs
           | [] => [String c EmptyString]
           end
  end.

(** The parts of a relative path as [pathlib] parses it: the empty
    components and the [.] components are dropped, [..] is kept. *)
Definition path_parts (s : string) : list string :=
  filter (λ c, c ≠ "" ∧ c ≠ ".") (split_on "/" s).

(** The components of a path, each after its separator: ["/a/b"]. *)
Fixpoint slashed (p : list string) : string :=
  match p with
  | [] => ""
  | c :: p' => "/" +:+ c +:+ slashed p'
  end.

(** [str(p)] for the absolute path of components [p]. *)
Definition path_str (p : list string) : string :=
  match p with
  | [] => "/"
  | _ => slashed p
  end.

(** [str(p)] for the relative path of components [p]. *)
Definition rel_str (p : list string) : string :=
  match p with
  | [] => "."
  | c :: p' => c +:+ slashed p'
  end.

(** [s.replace("\\", "/")] *)
Fixpoint backslashes_to_slashes (s : string) : string :=
  match s with
  | String c s' =>
      String (if decide (c = "\"%char) then "/"%char else c)
        (backslashes_to_slashes s')
  | EmptyString => EmptyString
  end.

(** [Path.resolve()] where no component is a symbolic link: [..] drops the
    last component, and stays at the root. *)
Definition lexical_step (acc : list string) (c : string) : list string :=
  if decide (c = "" ∨ c = ".") then acc
  else if decide (c = "..") then removelast acc
  else acc ++ [c].

Definition lexical (cs : list string) : list string := foldl lexical_step [] cs.

(** [other.parts] is a prefix of [p.parts]: what is left of [p]. *)
Fixpoint strip_parts (other p : list string) : option (list string) :=
  match other, p with
  | [], _ => Some p
  | a :: other', b :: p' => if decide (a = b) then strip_parts other' p' else None
  | _ :: _, [] => None
  end.

(** [cs] never climbs, with its [..], above the directory it starts in,
    [depth] components below which it starts. *)
Fixpoint stays_below (depth : nat) (cs : list string) : bool :=
  match cs with
  | [] => true
  | c :: cs' =>
      if decide (c = "" ∨ c = ".") then stays_below depth cs'
      else if decide (c = "..")
           then match depth with
                | 0 => false
                | S d => stays_below d cs'
                end
           else stays_below (S depth) cs'
  end.

(** A component as [Path.resolve()] returns them: not empty, not [.], not
    [..]. *)
Definition proper (c : string) : Prop := c ≠ "" ∧ c ≠ "." ∧ c ≠ "..".

(** [ch] occurs in [s]. *)
Fixpoint occurs (ch : Ascii.ascii) (s : string) : bool :=
  match s with
  | String c s' => bool_decide (c = ch) || occurs ch s'
  | EmptyString => false
  end.

(** A Python [str] is held as its UTF-8 encoding.  A character (a code
    point) is a byte that is no continuation byte [10xxxxxx], with the
    continuation bytes that follow it. *)
Definition continuation (c : Ascii.ascii) : bool :=
  Nat.leb 128 (Ascii.nat_of_ascii c) && Nat.ltb (Ascii.nat_of_ascii c) 192.

(** [len(s)]: the characters of [s]. *)
Fixpoint py_len (s : string) : nat :=
  match s with
  | String c s' => (if continuation c then 0 else 1) + py_len s'
  | EmptyString => 0
  end.

(** [s[:n]] for [0 ≤ n]: the first [n] characters of [s], each with its
    continuation bytes. *)
Fixpoint take_chars (n : nat) (s : string) : string :=
  match s with
  | String c s' =>
      if continuation c then String c (take_chars n s')
      else match n with
           | 0 => EmptyString
           | S n' => String c (take_chars n' s')
           end
  | EmptyString => EmptyString
  end.

(** [text[:m]]; a negative [m] counts from the end. *)
Definition py_slice_to (m : Z) (s : string) : string :=
  if decide (0 ≤ m)%Z then take_chars (Z.to_nat m) s
  else take_chars (Z.to_nat (Z.of_nat (py_len s) + m)) s.

(** What [read_text] makes of the line ends of the bytes of a file (the
    universal newlines of text mode): [\r\n] and [\r] are read as [\n]. *)
Fixpoint universal_newlines (s : string) : string :=
  match s with
  | String c s' =>
      if decide (c = "013"%char)
      then match s' with
           | String c' s'' =>
               if decide (c' = "010"%char) then universal_newlines s'
               else String "010"%char (universal_newlines s')
           | EmptyString => String "010"%char EmptyString
           end
      else String c (universal_newlines s')
  | EmptyString => EmptyString
  end.

(** ["\n... (recortado)"] *)
Definition recortado : string := String "010"%char "... (recortado)".

Module Runners.
Section runners.
Context {Any FS : Type} `{!PyValues Any} `{!FileSystem FS}.
(** [WORKSPACE], resolved when the module is loaded. *)
Context (WORKSPACE : list string).
(** The message of the [ValueError] of [PurePath.relative_to]. *)
Context (not_in_subpath : list string → string).

Definition safe_path (user_rel : Any) (fs : FS) : result (list string) :=
  let user_rel := lstrip_slashes (py_strip (py_str user_rel)) in
  p ←! fs_resolve fs (WORKSPACE ++ path_parts user_rel);
  if negb (String.prefix (path_str WORKSPACE) (path_str p))
  then Raise (ValueError "Ruta fuera de WORKSPACE (bloqueado).")
  else Ok p.

Definition rel_from_workspace (p : list string) : result string :=
  match strip_parts WORKSPACE p with
  | Some rest => Ok (backslashes_to_slashes (rel_str rest))
  | None => Raise (ValueError (not_in_subpath p))
  end.

Definition run_node_text (node : @Node Any) (ctx : @ExecutionContext Any)
    (fs : FS) : @RunnerResult Any * FS :=
  let text := match data node !! "text" with Some v => py_str v | None => "" end in
  (Returns {["text" := of_str text]}, fs).

Definition run_node_readfile (node : @Node Any) (ctx : @ExecutionContext Any)
    (fs : FS) : @RunnerResult Any * FS :=
  match data node !! "path" with
  | None => (Raises "ReadFile requiere data.path", fs)
  | Some relp =>
      if negb (py_bool relp) then (Raises "ReadFile requiere data.path", fs)
      else
        match safe_path relp fs with
        | Raise e => (Raises (exn_message e), fs)
        | Ok p =>
            if negb (fs_exists fs p)
            then (Raises ("Archivo no existe: " +:+ py_str relp), fs)
            else
              match fs_read_text fs p with
              | Raise e => (Raises (exn_message e), fs)
              | Ok text =>
                  match (match data node !! "max_chars" with
                         | Some v => py_int v
                         | None => Ok 20000%Z
                         end) with
                  | Raise e => (Raises (exn_message e), fs)
                  | Ok max_chars =>
                      let text :=
                        if decide (max_chars < Z.of_nat (py_len text))%Z
                        then py_slice_to max_chars text +:+ recortado
                        else text in
                      (Returns {["text" := of_str text]}, fs)
                  end
              end
        end
  end.

Definition run_node_writefile (node : @Node Any)
    (input_map : gmap string (gmap string Source))
    (ctx : @ExecutionContext Any) (fs : FS) : @RunnerResult Any * FS :=
  match data node !! "path" with
  | None => (Raises "WriteFile requiere data.path", fs)
  | Some relp =>
      if negb (py_bool relp) then (Raises "WriteFile requiere data.path", fs)
      else
        let text_in := resolve_input (id node) "text" input_map ctx in
        let fallback :=
          of_str (match data node !! "text" with Some v => py_str v | None => "" end) in
        let content :=
          match text_in with
          | Some v => if py_is_none v then fallback else v
          | None => fallback
          end in
        let overwrite :=
          match data node !! "overwrite" with Some v => py_bool v | None => true end in
        match safe_path relp fs with
        | Raise e => (Raises (exn_message e), fs)
        | Ok p =>
            match fs_mkdir_parents fs (removelast p) with
            | (Raise e, fs1) => (Raises (exn_message e), fs1)
            | (Ok _, fs1) =>
                if fs_exists fs1 p && negb overwrite
                then (Raises "WriteFile: el archivo existe y overwrite=false", fs1)
                else
                  match fs_write_text fs1 p (py_str content) with
                  | (Raise e, fs2) => (Raises (exn_message e), fs2)
                  | (Ok _, fs2) =>
                      match rel_from_workspace p with
                      | Raise e => (Raises (exn_message e), fs2)
                      | Ok rel => (Returns {["path" := of_str rel]}, fs2)
                      end
                  end
            end
        end
  end.

End runners.
End Runners.

(** The two ways [execute_workflow] calls a runner, with the three runners
    above; the runners of MoviePy stay a parameter.  A runner called with
    the wrong number of arguments would raise a [TypeError]: the dispatch on
    [node.type] never does it. *)
Section registry.
Context {Any FS : Type} `{!PyValues Any} `{!FileSystem FS}.
Context (WORKSPACE : list string).
Context (not_in_subpath : list string → string).
Context (media : Runner → @Node Any → gmap string (gmap string Source) →
                 @ExecutionContext Any → FS → @RunnerResult Any * FS).

Definition call_two (runner : Runner) (node : @Node Any)
    (ctx : @ExecutionContext Any) (fs : FS) : @RunnerResult Any * FS :=
  match runner with
  | run_node_text => Runners.run_node_text node ctx fs
  | run_node_readfile => Runners.run_node_readfile WORKSPACE node ctx fs
  | _ => (Raises "missing 1 required positional argument: 'ctx'", fs)
  end.

Definition call_three (runner : Runner) (node : @Node Any)
    (input_map : gmap string (gmap string Source))
    (ctx : @ExecutionContext Any) (fs : FS) : @RunnerResult Any * FS :=
  match runner with
  | run_node_writefile =>
      Runners.run_node_writefile WORKSPACE not_in_subpath node input_map ctx fs
  | run_node_mergeaudio | run_node_videoclip | run_node_concatvideo =>
      media runner node input_map ctx fs
  | _ => (Raises "takes 2 positional arguments but 3 were given", fs)
  end.

End registry.

(** ** The vocabulary of the properties of paths *)

Section path_vocabulary.
Context {Any FS : Type} `{!PyValues Any} `{!FileSystem FS}.

(** The parts of the path [safe_path] joins to [WORKSPACE]. *)
Definition user_parts (u : Any) : list string :=
  path_parts (lstrip_slashes (py_strip (py_str u))).

(** No component of a path is a symbolic link: [Path.resolve()] only
    normalises the components. *)
Definition no_links (fs : FS) : Prop :=
  ∀ cs, fs_resolve fs cs = Ok (lexical cs).

(** [Path.resolve()] only normalises the components [cs]: it raises nothing
    on them, and none of them is a symbolic link. *)
Definition resolves_lexically (fs : FS) (cs : list string) : Prop :=
  fs_resolve fs cs = Ok (lexical cs).

(** What is read from a file that [write_text] has just written: it is
    there, and its text is the text written, the line ends read as
    [read_text] reads them. *)
Definition reads_back (fs2 : FS) : Prop :=
  ∀ fs1 p s,
    fs_write_text fs1 p s = (Ok (), fs2) →
    fs_exists fs2 p = true ∧ fs_read_text fs2 p = Ok (universal_newlines s).

(** [Path.resolve()] returns components without a separator when it is
    given such components. *)
Definition resolves_to_components (fs : FS) : Prop :=
  ∀ cs q,
    Forall (λ c, occurs "/" c = false) cs →
    fs_resolve fs cs = Ok q →
    Forall (λ c, occurs "/" c = false) q.

End path_vocabulary.

(** A component without a separator and without a backslash. *)
Definition plain (c : string) : Prop :=
  proper c ∧ occurs "/" c = false ∧ occurs "\" c = false.

(** A file system of directories and text files without links, and the
    values of [node.data] when they are all strings. *)
Module Disk.

Inductive entry : Type :=
  | File (text : string)
  | Dir.

(** The entries of the disk, each under the components of its path. *)
Definition disk : Type := list (list string * entry).

Fixpoint entry_at (d : disk) (p : list string) : option entry :=
  match d with
  | [] => None
  | (q, e) :: d' => if decide (q = p) then Some e else entry_at d' p
  end.

Fixpoint set_entry (p : list string) (e : entry) (d : disk) : disk :=
  match d with
  | [] => [(p, e)]
  | (q, e') :: d' =>
      if decide (q = p) then (p, e) :: d' else (q, e') :: set_entry p e d'
  end.

Definition exists_at (d : disk) (p : list string) : bool :=
  match p, entry_at d p with
  | [], _ => true
  | _, Some _ => true
  | _, None => false
  end.

Definition read_text (d : disk) (p : list string) : result string :=
  match entry_at d p with
  | Some (File text) => Ok (universal_newlines text)
  | Some Dir => Raise (RunnerError ("[Errno 21] Is a directory: '" +:+ path_str p +:+ "'"))
  | None =>
      Raise (RunnerError
               (match p with
                | [] => "[Errno 21] Is a directory: '/'"
                | _ => "[Errno 2] No such file or directory: '" +:+ path_str p +:+ "'"
                end))
  end.

Definition is_dir (d : disk) (p : list string) : bool :=
  match p, entry_at d p with
  | [], _ => true
  | _, Some Dir => true
  | _, _ => false
  end.

Definition write_text (d : disk) (p : list string) (text : string)
    : result () * disk :=
  if is_dir d p
  then (Raise (RunnerError ("[Errno 21] Is a directory: '" +:+ path_str p +:+ "'")), d)
  else if is_dir d (removelast p)
  then (Ok (), set_entry p (File text) d)
  else (Raise (RunnerError
                 ("[Errno 2] No such file or directory: '" +:+ path_str p +:+ "'")), d).

(** [mkdir(parents=True, exist_ok=True)]: the directories of [todo] below
    [above], from the outermost. *)
Fixpoint mkdirs (d : disk) (above todo : list string) : result () * disk :=
  match todo with
  | [] => (Ok (), d)
  | c :: todo' =>
      match entry_at d (above ++ [c]) with
      | Some (File _) =>
          (Raise (RunnerError
                    ("[Errno 17] File exists: '" +:+ path_str (above ++ [c]) +:+ "'")), d)
      | Some Dir => mkdirs d (above ++ [c]) todo'
      | None => mkdirs (set_entry (above ++ [c]) Dir d) (above ++ [c]) todo'
      end
  end.

#[export] Instance disk_files : FileSystem disk := {|
  fs_resolve _ cs := Ok (lexical cs);
  fs_exists := exists_at;
  fs_read_text := read_text;
  fs_write_text := write_text;
  fs_mkdir_parents d p := mkdirs d [] p;
|}.

(** The white space of [str.strip()] and of [int()] in ASCII. *)
Definition is_space (c : Ascii.ascii) : bool :=
  let n := Ascii.nat_of_ascii c in
  (Nat.leb 9 n && Nat.leb n 13) || (Nat.leb 28 n && Nat.leb n 32).

Fixpoint lstrip (s : string) : string :=
  match s with
  | String c s' => if is_space c then lstrip s' else s
  | EmptyString => s
  end.

Fixpoint rstrip (s : string) : string :=
  match s with
  | String c s' =>
      match rstrip s' with
      | EmptyString => if is_space c then EmptyString else String c EmptyString
      | t => String c t
      end
  | EmptyString => s
  end.

Definition strip (s : string) : string := rstrip (lstrip s).

Definition digit_of (c : Ascii.ascii) : option Z :=
  let n := Z.of_nat (Ascii.nat_of_ascii c) in
  if decide (48 ≤ n ≤ 57)%Z then Some (n - 48)%Z else None.

(** The digits of a decimal literal, single underscores between them. *)
Fixpoint digits (s : string) (acc : Z) (after_digit : bool) : option Z :=
  match s with
  | EmptyString => if after_digit then Some acc else None
  | String c s' =>
      match digit_of c with
      | Some d => digits s' (10 * acc + d)%Z true
      | None =>
          if bool_decide (c = "_"%char) && after_digit
          then digits s' acc false
          else None
      end
  end.

(** [int(s)] for a string; the message of the error quotes [s] as [repr]
    does when [s] has no quote, backslash or control character. *)
Definition int_of_str (s : string) : result Z :=
  let literal :=
    match strip s with
    | String "-" t => Z.opp <$> digits t 0 false
    | String "+" t => digits t 0 false
    | t => digits t 0 false
    end in
  match literal with
  | Some z => Ok z
  | None =>
      Raise (ValueError ("invalid literal for int() with base 10: '" +:+ s +:+ "'"))
  end.

#[export, refine] Instance str_values : PyValues string := {|
  py_str s := s;
  py_bool s := bool_decide (s ≠ "");
  py_int := int_of_str;
  py_is_none _ := false;
  py_strip := strip;
  of_str s := s;
|}.
Proof. all: done. Defined.

Definition node (i ty : string) (d : list (string * string)) : @Node string :=
  {| id := i; type := ty; data := list_to_map d |}.

(** [WORKSPACE] *)
Definition ws : list string := ["srv"; "app"; "WORKSPACE"].

(** The message of [relative_to]. *)
Definition not_in_subpath (p : list string) : string :=
  "'" +:+ path_str p +:+ "' is not in the subpath of '" +:+ path_str ws +:+ "'".

Definition empty_context : @ExecutionContext string :=
  {| outputs := ∅; logs := []; step := 0 |}.

(** A disk that holds the workspace and one file in it. *)
Definition d0 : disk :=
  [ (["srv"], Dir); (["srv"; "app"], Dir); (["srv"; "app"; "WORKSPACE"], Dir);
    (["srv"; "app"; "WORKSPACE"; "notes.txt"], File "hello") ].

(** [d0] with a file of five characters, seven bytes in UTF-8. *)
Definition d1 : disk :=
  d0 ++ [ (["srv"; "app"; "WORKSPACE"; "nandu.txt"], File "ñandú") ].

(** The runners of MoviePy where the library can open no file. *)
Definition media (runner : Runner) (n : @Node string)
    (im : gmap string (gmap string Source)) (c : @ExecutionContext string)
    (d : disk) : @RunnerResult string * disk :=
  (Raises "MoviePy error: the file could not be found", d).

Definition call_ctx := call_two (Any := string) (FS := disk) ws.
Definition call_map := call_three (Any := string) (FS := disk) ws not_in_subpath media.

Definition link (a ap b bp : string) : PortLink :=
  {| from_node := a; from_port := ap; to_node := b; to_port := bp |}.

Definition T := node "T" "Text" [("text", "hello")].
Definition U := node "U" "Text" [].
Definition W := node "W" "WriteFile" [("path", "out/copy.txt")].
Definition R := node "R" "ReadFile" [("path", "notes.txt")].
(** A ReadFile node with a limit of five characters. *)
Definition N := node "N" "ReadFile" [("path", "nandu.txt"); ("max_chars", "5")].
(** A ReadFile node for the file [W] writes. *)
Definition C := node "C" "ReadFile" [("path", "out/copy.txt")].
Definition F := node "F" "WriteFile" [].
(** A WriteFile node whose path leads beside the workspace. *)
Definition S := node "S" "WriteFile" [("path", "../WORKSPACE2/x.txt")].

(** [T.text → W.text] *)
Definition pipeline : @Workflow string :=
  {| nodes := [T; W]; links := [link "T" "text" "W" "text"] |}.

(** [T.text → F.text], and [W] declared last. *)
Definition failing : @Workflow string :=
  {| nodes := [T; F; W]; links := [link "T" "text" "F" "text"] |}.

(** Two Text nodes, [U] reading nothing from [T]. *)
Definition texts : @Workflow string :=
  {| nodes := [U; T]; links := [link "T" "text" "U" "in"] |}.

Definition rank (k : string) : nat := if decide (k = "T") then 0 else 1.

(** The run of a workflow on [d0]. *)
Definition run_of (w : @Workflow string)
    : @RunState string disk * result (@Bundle string) :=
  execute_workflow_run (path_str ws) call_ctx call_map w d0.

(** The state of the run of [pipeline] once [T] has run. *)
Definition after_T : @RunState string disk :=
  (run_nodes call_ctx call_map (build_input_map pipeline) [T] (initial_state d0)).1.

(** What [W] returns on [d0] after [T], and the disk it leaves. *)
Definition written : @RunnerResult string * disk :=
  Runners.run_node_writefile ws not_in_subpath W (build_input_map pipeline)
    (ctx after_T) d0.

End Disk.

(** * The editor

    The functions of the page that do not touch the document: [esc],
    [nodePorts], and what the button "Eliminar" of a node does to [state].
    The page posts [state] as the workflow; the position of a node, which
    the engine never reads, is left out. *)

Module Editor.

(** [s.replaceAll(pat, rep)] for a pattern of one character. *)
Fixpoint replaceAll (pat : Ascii.ascii) (rep : string) (s : string) : string :=
  match s with
  | String c s' =>
      if decide (c = pat) then rep +:+ replaceAll pat rep s'
      else String c (replaceAll pat rep s')
  | EmptyString => EmptyString
  end.

(** The double quote. *)
Definition quote : Ascii.ascii := "034"%char.

(** [esc], on the string [""+s]. *)
Definition esc (s : string) : string :=
  replaceAll quote "&quot;"
    (replaceAll ">" "&gt;" (replaceAll "<" "&lt;" (replaceAll "&" "&amp;" s))).

Record Ports : Type := {
  ins : list string;
  outs : list string;
}.

Definition nodePorts (type : string) : Ports :=
  if decide (type = "Text") then {| ins := []; outs := ["text"] |}
  else if decide (type = "ReadFile") then {| ins := []; outs := ["text"] |}
  else if decide (type = "WriteFile") then {| ins := ["text"]; outs := ["path"] |}
  else if decide (type = "MergeAudio") then {| ins := ["a"; "b"]; outs := ["audio"] |}
  else if decide (type = "VideoClip")
  then {| ins := ["image"; "audio"]; outs := ["video"] |}
  else if decide (type = "ConcatVideo") then {| ins := ["videos"]; outs := ["video"] |}
  else {| ins := []; outs := [] |}.

(** The click on "Eliminar" of the node [nid]. *)
Definition delete_clicked {Any : Type} (nid : string) (state : @Workflow Any)
    : @Workflow Any :=
  {| nodes := filter (λ n, id n ≠ nid) (nodes state);
     links := filter (λ l, from_node l ≠ nid ∧ to_node l ≠ nid) (links state) |}.

(** One character as [esc] writes it. *)
Definition entity (c : Ascii.ascii) : string :=
  if decide (c = "&"%char) then "&amp;"
  else if decide (c = "<"%char) then "&lt;"
  else if decide (c = ">"%char) then "&gt;"
  else if decide (c = quote) then "&quot;"
  else String c EmptyString.

End Editor.

(** * Properties *)

(** ** Insertion-ordered dictionaries *)

Lemma dict_get_set_ne {V} (k k' : string) (v : V) (d : pydict V) :
  k ≠ k' → dict_get k' (dict_set k v d) = dict_get k' d.
Proof.
  intros Hne. induction d as [|[k0 v0] d IH]; simpl.
  - by rewrite decide_False.
  - destruct (decide (k = k0)) as [->|Hne0]; simpl.
    + by rewrite !decide_False.
    + by rewrite IH.
Qed.

Lemma dict_get_set {V} (k k' : string) (v : V) (d : pydict V) :
  dict_get k' (dict_set k v d) = if decide (k' = k) then Some v else dict_get k' d.
Proof.
  case_decide as H; [subst; apply dict_get_set_eq|].
  by apply dict_get_set_ne.
Qed.

Lemma dict_get_Some_keys {V} (k : string) (d : pydict V) :
  is_Some (dict_get k d) ↔ k ∈ dict_keys d.
Proof.
  unfold dict_keys. induction d as [|[k' v'] d IH]; simpl.
  - split; [intros [? [=]]|intros ?%elem_of_nil; done].
  - rewrite elem_of_cons. case_decide; [subst; split; eauto|].
    rewrite IH. naive_solver.
Qed.

Lemma dict_get_None_keys {V} (k : string) (d : pydict V) :
  dict_get k d = None ↔ k ∉ dict_keys d.
Proof. rewrite <-dict_get_Some_keys, eq_None_not_Some. done. Qed.

Lemma dict_keys_set_in {V} (k : string) (v : V) (d : pydict V) :
  k ∈ dict_keys d → dict_keys (dict_set k v d) = dict_keys d.
Proof.
  unfold dict_keys. induction d as [|[k' v'] d IH]; simpl.
  - intros ?%elem_of_nil; done.
  - intros Hin. case_decide; simpl; [by subst|].
    f_equal. apply IH. apply elem_of_cons in Hin. naive_solver.
Qed.

Lemma dict_keys_set_notin {V} (k : string) (v : V) (d : pydict V) :
  k ∉ dict_keys d → dict_keys (dict_set k v d) = dict_keys d ++ [k].
Proof.
  unfold dict_keys. induction d as [|[k' v'] d IH]; simpl; [done|].
  intros Hin. apply not_elem_of_cons in Hin as [? ?].
  rewrite decide_False by done. simpl. f_equal. by apply IH.
Qed.


(** ** The loop of the scheduler *)

Lemma kahn_loop_nil adj indeg ordered :
  kahn_loop adj indeg [] ordered = Ok ordered.
Proof. by simp kahn_loop. Qed.

Lemma kahn_loop_cons adj indeg nid q ordered :
  kahn_loop adj indeg (nid :: q) ordered =
  match kahn_step adj indeg nid q with
  | Ok st => kahn_loop adj st.1 st.2 (ordered ++ [nid])
  | Raise e => Raise e
  end.
Proof.
  simp kahn_loop. unfold inspect.
  generalize (@eq_refl _ (kahn_step adj indeg nid q)).
  generalize (kahn_step adj indeg nid q) at 2 4 5.
  intros [[indeg' q']|e] Heq; by simp kahn_loop.
Qed.

Lemma occurrences_cons k x l :
  occurrences k (x :: l) = (if decide (x = k) then 1 else 0) + occurrences k l.
Proof. unfold occurrences. rewrite filter_cons. by case_decide. Qed.

Lemma occurrences_pos k l : 0 < occurrences k l ↔ k ∈ l.
Proof.
  induction l as [|x l IH]; [rewrite elem_of_nil; cbn; lia|].
  rewrite occurrences_cons, elem_of_cons. case_decide; subst; [|naive_solver lia].
  split; [auto|lia].
Qed.

(** The inner loop, when every successor has enough in-degree left: the
    in-degrees drop by the number of occurrences, and the nodes that reach
    zero join the back of the queue, once each. *)
Lemma relax_spec (succs : list string) :
  ∀ (indeg : pydict Z) (q : list string),
    (∀ k, k ∈ succs →
       ∃ d, dict_get k indeg = Some d ∧ (Z.of_nat (occurrences k succs) ≤ d)%Z) →
    ∃ indeg' added,
      relax succs indeg q = Ok (indeg', q ++ added)
      ∧ dict_keys indeg' = dict_keys indeg
      ∧ (∀ k, dict_get k indeg' =
              (λ d, d - Z.of_nat (occurrences k succs))%Z <$> dict_get k indeg)
      ∧ NoDup added
      ∧ (∀ k, k ∈ added ↔ k ∈ succs ∧ dict_get k indeg' = Some 0%Z).
Proof.
  induction succs as [|nxt rest IH]; intros indeg q Hdeg.
  - exists indeg, []. rewrite app_nil_r. split_and!; try done.
    + intros k. destruct (dict_get k indeg); simpl; [f_equal; cbn; lia|done].
    + constructor.
    + intros k. rewrite !elem_of_nil. naive_solver.
  - destruct (Hdeg nxt) as (d & Hd & Hle); [left|].
    rewrite occurrences_cons, decide_True in Hle by done.
    set (indeg1 := dict_set nxt (d - 1)%Z indeg).
    set (q1 := if decide ((d - 1)%Z = 0%Z) then q ++ [nxt] else q).
    destruct (IH indeg1 q1) as (indeg' & added & Hrun & Hkeys & Hget & Hnd & Hin).
    { intros k Hk. unfold indeg1. rewrite dict_get_set. case_decide as Hkn.
      - subst k. eexists; split; [done|]. lia.
      - destruct (Hdeg k) as (dk & Hdk & Hlek); [by right|].
        rewrite occurrences_cons, decide_False in Hlek by done.
        eexists; split; [done|]. lia. }
    exists indeg', ((if decide ((d - 1)%Z = 0%Z) then [nxt] else []) ++ added).
    assert (Hnxt : dict_get nxt indeg'
                   = Some (d - 1 - Z.of_nat (occurrences nxt rest))%Z).
    { rewrite Hget. unfold indeg1. by rewrite dict_get_set_eq. }
    split_and!.
    + cbn [relax]. unfold dict_item at 1. rewrite Hd. cbn [bind].
      unfold dict_item at 1. rewrite dict_get_set_eq. cbn [bind].
      fold indeg1. fold q1. rewrite Hrun. f_equal. f_equal.
      unfold q1. case_decide; [by rewrite <-(assoc_L (++))|done].
    + rewrite Hkeys. unfold indeg1. apply dict_keys_set_in.
      apply dict_get_Some_keys. by rewrite Hd.
    + intros k. rewrite Hget. unfold indeg1. rewrite dict_get_set.
      rewrite occurrences_cons. case_decide as Hkn.
      * subst k. rewrite Hd, decide_True by done. simpl. f_equal. lia.
      * rewrite decide_False by done.
        destruct (dict_get k indeg); simpl; [f_equal; lia|done].
    + case_decide as Hz; [|done]. simpl. constructor; [|done].
      intros [Hr _]%Hin. apply occurrences_pos in Hr. lia.
    + intros k. rewrite elem_of_app, Hin, elem_of_cons. split.
      * intros [Hk|[Hk Hz]]; [|by auto].
        case_decide as Hz; [|by apply elem_of_nil in Hk].
        apply list_elem_of_singleton in Hk as ->. split; [by left|].
        rewrite Hnxt. f_equal. lia.
      * intros [[->|Hk] Hz]; [|by auto].
        rewrite Hnxt in Hz. injection Hz as Hz.
        destruct (decide ((d - 1)%Z = 0%Z)) as [Hd0|Hd0].
        -- left. by left.
        -- right. split; [|by rewrite Hnxt; f_equal].
           apply occurrences_pos. lia.
Qed.

(** ** Counts over the edges of the ordering graph *)

Lemma occurrences_successors E nid k :
  occurrences k (successors E nid) = length (filter (λ e, e.2 = k ∧ e.1 = nid) E).
Proof.
  unfold occurrences, successors.
  induction E as [|[a b] E IH]; [done|].
  rewrite !filter_cons. simpl.
  repeat case_decide; simpl in *; rewrite ?filter_cons; simpl;
    repeat case_decide; simpl; try lia; naive_solver.
Qed.

Lemma remaining_snoc E ordered nid k :
  nid ∉ ordered →
  remaining E ordered k
  = remaining E (ordered ++ [nid]) k + occurrences k (successors E nid).
Proof.
  intros Hnid. rewrite occurrences_successors. unfold remaining.
  induction E as [|[a b] E IH]; [done|].
  rewrite !filter_cons. simpl.
  destruct (decide (a = nid)) as [->|Hne].
  - repeat case_decide; simpl; try lia; set_solver.
  - repeat case_decide; simpl; try lia; set_solver.
Qed.

Lemma remaining_zero E ordered k :
  remaining E ordered k = 0 ↔ ∀ e, e ∈ E → e.2 = k → e.1 ∈ ordered.
Proof.
  unfold remaining. induction E as [|[a b] E IH].
  - split; [intros _ e ?%elem_of_nil; done|done].
  - rewrite filter_cons. simpl. case_decide as Hc; simpl.
    + split; [done|]. intros He. destruct Hc as [Hb Ha].
      destruct Ha. apply (He (a, b)); [left|done].
    + rewrite IH. split.
      * intros He e [->|Hin]%elem_of_cons Hk; [|by auto].
        simpl in *. destruct (decide (a ∈ ordered)); [done|]. naive_solver.
      * intros He e Hin. apply He. by right.
Qed.

Lemma elem_of_successors E nid k :
  k ∈ successors E nid ↔ (nid, k) ∈ E.
Proof.
  unfold successors. rewrite list_elem_of_fmap. split.
  - intros ([a b] & -> & [Ha Hin]%list_elem_of_filter). simpl in *. by subst.
  - intros Hin. exists (nid, k). split; [done|]. by apply list_elem_of_filter.
Qed.

Lemma dict_get_elem_of {V} (k : string) (v : V) (d : pydict V) :
  NoDup (dict_keys d) → (k, v) ∈ d ↔ dict_get k d = Some v.
Proof.
  unfold dict_keys. induction d as [|[k' v'] d IH]; simpl.
  - intros _. rewrite elem_of_nil. naive_solver.
  - intros [Hk' Hnd]%NoDup_cons. rewrite elem_of_cons, (IH Hnd).
    case_decide as Hk.
    + subst k'. split; [|naive_solver]. intros [[= ->]|Hget]; [done|].
      destruct Hk'. apply (dict_get_Some_keys k d). by rewrite Hget.
    + naive_solver.
Qed.

Section kahn_correct.
Context (K : list string) (E : list (string * string)).
Context (adj : pydict (list string)).
Hypothesis E_valid : ∀ a b, (a, b) ∈ E → a ∈ K ∧ b ∈ K.
Hypothesis adj_spec : ∀ k, k ∈ K → dict_get k adj = Some (successors E k).

Lemma kahn_inv_step indeg nid q ordered :
  kahn_inv K E indeg (nid :: q) ordered →
  ∃ indeg' added,
    kahn_step adj indeg nid q = Ok (indeg', q ++ added)
    ∧ kahn_inv K E indeg' (q ++ added) (ordered ++ [nid]).
Proof using E_valid adj_spec.
  intros [Hkeys Hdeg Hnd Hready Hlin].
  assert (Hnid : nid ∈ K ∧ remaining E ordered nid = 0).
  { apply Hready. set_solver. }
  destruct Hnid as [HnidK Hnid0].
  assert (Hfresh : nid ∉ ordered).
  { apply NoDup_app in Hnd as (_ & Hdisj & _). intros Hin.
    apply (Hdisj nid Hin). by left. }
  assert (HsuccK : ∀ k, k ∈ successors E nid → k ∈ K).
  { intros k Hk%elem_of_successors. by apply E_valid in Hk as [_ ?]. }
  destruct (relax_spec (successors E nid) indeg q)
    as (indeg' & added & Hrun & Hkeys' & Hget & Hndadd & Hadded).
  { intros k Hk. exists (Z.of_nat (remaining E ordered k)).
    split; [by apply Hdeg, HsuccK|].
    rewrite (remaining_snoc E ordered nid k Hfresh). lia. }
  assert (Hdeg' : ∀ k, k ∈ K →
            dict_get k indeg' = Some (Z.of_nat (remaining E (ordered ++ [nid]) k))).
  { intros k Hk. rewrite Hget, (Hdeg k Hk). simpl. f_equal.
    rewrite (remaining_snoc E ordered nid k Hfresh). lia. }
  exists indeg', added. split.
  { unfold kahn_step, dict_item. by rewrite (adj_spec nid HnidK). }
  assert (Hold : ∀ k, k ∈ added → k ∉ ordered ++ nid :: q).
  { intros k [Hk Hz]%Hadded [_ Hrem]%Hready.
    apply occurrences_pos in Hk.
    rewrite (remaining_snoc E ordered nid k Hfresh) in Hrem. lia. }
  split.
  - by rewrite Hkeys'.
  - done.
  - replace ((ordered ++ [nid]) ++ q ++ added)
      with ((ordered ++ nid :: q) ++ added)
      by (by rewrite <-!(assoc_L (++))).
    apply NoDup_app. split_and!; [done| |done].
    intros k Hk Hk'. by apply (Hold k Hk').
  - intros k.
    replace ((ordered ++ [nid]) ++ q ++ added)
      with ((ordered ++ nid :: q) ++ added)
      by (by rewrite <-!(assoc_L (++))).
    rewrite elem_of_app. split.
    + intros [Hk|Hk].
      * apply Hready in Hk as [HkK Hrem]. split; [done|].
        rewrite (remaining_snoc E ordered nid k Hfresh) in Hrem. lia.
      * apply Hadded in Hk as [Hk Hz]. split; [by apply HsuccK|].
        rewrite (Hdeg' k) in Hz by by apply HsuccK.
        injection Hz. lia.
    + intros [HkK Hrem].
      destruct (decide (k ∈ successors E nid)) as [Hk|Hk].
      * right. apply Hadded. split; [done|].
        by rewrite (Hdeg' k HkK), Hrem.
      * left. apply Hready. split; [done|].
        rewrite (remaining_snoc E ordered nid k Hfresh), Hrem.
        destruct (occurrences k (successors E nid)) eqn:Hocc; [done|].
        destruct Hk. apply occurrences_pos. lia.
  - intros a b j Hab Hj.
    destruct (decide (j < length ordered)) as [Hlt|Hge].
    + rewrite lookup_app_l in Hj by done.
      destruct (Hlin a b j Hab Hj) as (i & Hi & Hai).
      exists i. split; [done|]. rewrite lookup_app_l by lia. done.
    + rewrite lookup_app_r in Hj by lia.
      apply list_lookup_singleton_Some in Hj as [Hj <-].
      assert (Ha : a ∈ ordered).
      { by apply (proj1 (remaining_zero E ordered nid) Hnid0 (a, nid)). }
      apply list_elem_of_lookup in Ha as [i Hi].
      exists i. split.
      * apply lookup_lt_Some in Hi. lia.
      * by rewrite lookup_app_l by by eapply lookup_lt_Some.
Qed.

(** The loop returns, never with a [KeyError], and the invariant holds of
    what it returns; the queue is served first in, first out. *)
Lemma kahn_loop_inv indeg q ordered :
  kahn_inv K E indeg q ordered →
  ∃ indeg' res,
    kahn_loop adj indeg q ordered = Ok res
    ∧ kahn_inv K E indeg' [] res
    ∧ (ordered ++ q) `prefix_of` res.
Proof using E_valid adj_spec.
  remember (kahn_measure indeg q) as m eqn:Hm.
  revert indeg q ordered Hm.
  induction m as [m IH] using lt_wf_ind. intros indeg q ordered -> Hinv.
  destruct q as [|nid q].
  - exists indeg, ordered. rewrite kahn_loop_nil, app_nil_r. done.
  - destruct (kahn_inv_step _ _ _ _ Hinv) as (indeg' & added & Hstep & Hinv').
    rewrite kahn_loop_cons, Hstep. simpl.
    destruct (IH (kahn_measure indeg' (q ++ added))
                (kahn_step_measure _ _ _ _ _ _ Hstep)
                indeg' (q ++ added) (ordered ++ [nid]) eq_refl Hinv')
      as (indeg'' & res & Hres & Hinv'' & Hpre).
    exists indeg'', res. split_and!; [done..|].
    etrans; [|exact Hpre].
    rewrite <-(assoc_L (++)). simpl. apply prefix_app, prefix_cons.
    by apply prefix_app_r.
Qed.

End kahn_correct.

(** ** The dictionaries [topo_sort] builds *)

Section scheduler.
Context {Any : Type}.
Implicit Types (w : @Workflow Any) (ns : list (@Node Any)) (n : @Node Any).
Implicit Types (l : PortLink) (k : string).

Lemma dict_keys_set_eq {V V'} k (v : V) (v' : V') (d : pydict V) (d' : pydict V') :
  dict_keys d = dict_keys d' →
  dict_keys (dict_set k v d) = dict_keys (dict_set k v' d').
Proof.
  intros Heq. destruct (decide (k ∈ dict_keys d)) as [Hin|Hin].
  - rewrite !dict_keys_set_in; [done| |done]. by rewrite <-Heq.
  - rewrite !dict_keys_set_notin; [by rewrite Heq| |done]. by rewrite <-Heq.
Qed.

Lemma foldl_dict_set_keys_eq {V V'} (f : Node → V) (g : Node → V') ns :
  ∀ (d : pydict V) (d' : pydict V'),
    dict_keys d = dict_keys d' →
    dict_keys (foldl (λ d n, dict_set (id n) (f n) d) d ns)
    = dict_keys (foldl (λ d n, dict_set (id n) (g n) d) d' ns).
Proof.
  induction ns as [|n ns IH]; intros d d' Heq; [done|].
  simpl. apply IH. by apply dict_keys_set_eq.
Qed.

Lemma dict_of_nodes_keys {V} (f : Node → V) w :
  dict_keys (dict_of_nodes f (nodes w)) = scheduler_keys w.
Proof. by apply foldl_dict_set_keys_eq. Qed.

Lemma foldl_dict_set_keys {V} (f : Node → V) ns :
  ∀ (d : pydict V),
    NoDup (dict_keys d) →
    let d' := foldl (λ d n, dict_set (id n) (f n) d) d ns in
    NoDup (dict_keys d')
    ∧ (∀ k, k ∈ dict_keys d' ↔ k ∈ dict_keys d ∨ k ∈ id <$> ns)
    ∧ (NoDup (dict_keys d ++ (id <$> ns)) → dict_keys d' = dict_keys d ++ (id <$> ns)).
Proof.
  induction ns as [|n ns IH]; intros d Hnd; simpl.
  - split_and!; [done| |by rewrite app_nil_r].
    intros k. rewrite elem_of_nil. naive_solver.
  - assert (Hnd' : NoDup (dict_keys (dict_set (id n) (f n) d))).
    { destruct (decide (id n ∈ dict_keys d)) as [Hin|Hin].
      - by rewrite dict_keys_set_in.
      - rewrite dict_keys_set_notin by done.
        apply NoDup_app. split_and!; [done| |apply NoDup_singleton].
        intros k Hk ->%list_elem_of_singleton. done. }
    destruct (IH _ Hnd') as (IH1 & IH2 & IH3). split_and!; [done| |].
    + intros k. rewrite IH2, elem_of_cons.
      destruct (decide (id n ∈ dict_keys d)) as [Hin|Hin].
      * rewrite dict_keys_set_in by done. naive_solver.
      * rewrite dict_keys_set_notin, elem_of_app, list_elem_of_singleton by done.
        naive_solver.
    + intros Hall.
      assert (Hin : id n ∉ dict_keys d).
      { apply NoDup_app in Hall as (_ & Hdisj & _). intros Hin.
        apply (Hdisj _ Hin). left. }
      rewrite dict_keys_set_notin in IH3 by done.
      rewrite <-(assoc_L (++)) in IH3. by apply IH3.
Qed.

Lemma scheduler_keys_NoDup w : NoDup (scheduler_keys w).
Proof.
  unfold scheduler_keys, dict_of_nodes.
  apply (foldl_dict_set_keys (λ n, n) (nodes w) []). constructor.
Qed.

Lemma elem_of_scheduler_keys w k : k ∈ scheduler_keys w ↔ k ∈ declared_ids w.
Proof.
  unfold scheduler_keys, dict_of_nodes, declared_ids.
  destruct (foldl_dict_set_keys (λ n, n) (nodes w) []) as (_ & H & _);
    [constructor|].
  rewrite H. simpl. rewrite elem_of_nil. naive_solver.
Qed.

Lemma scheduler_keys_unique w :
  NoDup (declared_ids w) → scheduler_keys w = declared_ids w.
Proof.
  unfold scheduler_keys, dict_of_nodes, declared_ids.
  destruct (foldl_dict_set_keys (λ n, n) (nodes w) []) as (_ & _ & H);
    [constructor|]. exact H.
Qed.

Lemma scheduler_keys_length w :
  length (scheduler_keys w) ≤ length (nodes w).
Proof.
  rewrite <-(length_fmap id (nodes w)). apply submseteq_length.
  apply NoDup_submseteq; [apply scheduler_keys_NoDup|].
  intros k. by rewrite elem_of_scheduler_keys.
Qed.

Lemma scheduler_keys_length_eq w :
  length (scheduler_keys w) = length (nodes w) → NoDup (declared_ids w).
Proof.
  intros Hlen. rewrite <-(length_fmap id (nodes w)) in Hlen.
  assert (Hsub : scheduler_keys w ⊆+ declared_ids w).
  { apply NoDup_submseteq; [apply scheduler_keys_NoDup|].
    intros k. by rewrite elem_of_scheduler_keys. }
  apply submseteq_length_Permutation in Hsub; [|unfold declared_ids; lia].
  rewrite <-Hsub. apply scheduler_keys_NoDup.
Qed.

(** Every value of [{n.id: f(n) for n in nodes}] comes from a node with
    that id. *)
Lemma foldl_dict_set_values {V} (f : Node → V) (P : string → V → Prop) ns :
  (∀ n, n ∈ ns → P (id n) (f n)) →
  ∀ (d : pydict V),
    (∀ k v, dict_get k d = Some v → P k v) →
    ∀ k v, dict_get k (foldl (λ d n, dict_set (id n) (f n) d) d ns) = Some v → P k v.
Proof.
  induction ns as [|n ns IH]; intros HP d Hd; [done|].
  simpl. apply IH.
  - intros n' Hn'. apply HP. by right.
  - intros k v. rewrite dict_get_set. case_decide as Hk.
    + intros [= <-]. subst k. apply HP. left.
    + apply Hd.
Qed.

Lemma dict_of_nodes_get {V} (f : Node → V) (P : string → V → Prop) w k :
  (∀ n, n ∈ nodes w → P (id n) (f n)) →
  k ∈ scheduler_keys w →
  ∃ v, dict_get k (dict_of_nodes f (nodes w)) = Some v ∧ P k v.
Proof.
  intros HP Hk. rewrite <-(dict_of_nodes_keys f) in Hk.
  apply dict_get_Some_keys in Hk as [v Hv]. exists v. split; [done|].
  revert Hv. unfold dict_of_nodes.
  apply (foldl_dict_set_values f P (nodes w) HP []). intros ? ? [=].
Qed.

End scheduler.

Section read_links.
Context {Any : Type}.
Implicit Types (w : @Workflow Any) (l : PortLink) (k : string).

Lemma successors_snoc E a b k :
  successors (E ++ [(a, b)]) k
  = successors E k ++ (if decide (a = k) then [b] else []).
Proof.
  unfold successors. rewrite filter_app, fmap_app, filter_cons. simpl.
  by case_decide.
Qed.

Lemma remaining_nil_snoc E a b k :
  remaining (E ++ [(a, b)]) [] k
  = remaining E [] k + (if decide (b = k) then 1 else 0).
Proof.
  unfold remaining. rewrite filter_app, length_app, filter_cons. simpl.
  repeat case_decide; simpl; try lia; set_solver.
Qed.

Lemma remaining_nil E k :
  remaining E [] k = length (filter (λ e, e.2 = k) E).
Proof.
  unfold remaining. f_equal. apply list_filter_iff. set_solver.
Qed.

Lemma dict_mem_nodes_by_id w k :
  dict_mem k (dict_of_nodes (λ n, n) (nodes w)) = true ↔ k ∈ declared_ids w.
Proof.
  rewrite <-elem_of_scheduler_keys. unfold scheduler_keys.
  rewrite <-dict_get_Some_keys. unfold dict_mem.
  destruct (dict_get _ _); split; eauto; [done|by intros [? ?]].
Qed.

Lemma add_link_valid w l :
  dict_mem (from_node l) (dict_of_nodes (λ n, n) (nodes w))
  && dict_mem (to_node l) (dict_of_nodes (λ n, n) (nodes w)) = true
  ↔ valid_link w l.
Proof.
  rewrite andb_true_iff, !dict_mem_nodes_by_id. done.
Qed.

Lemma for_each_add_link w (ls : list PortLink) :
  ∀ E adj indeg,
    links_read w E adj indeg →
    ∃ adj' indeg',
      for_each (add_link (dict_of_nodes (λ n, n) (nodes w))) ls (adj, indeg)
      = Ok (adj', indeg')
      ∧ links_read w (E ++ (edge_of <$> filter (valid_link w) ls)) adj' indeg'.
Proof.
  induction ls as [|l ls IH]; intros E adj indeg Hread.
  - exists adj, indeg. simpl. by rewrite app_nil_r.
  - destruct Hread as (Hka & Hki & Hadj & Hindeg).
    cbn [for_each]. unfold add_link at 1.
    destruct (decide (valid_link w l)) as [Hv|Hv].
    + rewrite (proj2 (add_link_valid w l) Hv).
      pose proof Hv as [Hfrom%elem_of_scheduler_keys Hto%elem_of_scheduler_keys].
      cbn [fst snd]. unfold dict_item.
      rewrite (Hadj _ Hfrom), (Hindeg _ Hto). cbn [bind].
      rewrite filter_cons_True by done. simpl.
      rewrite (cons_middle (edge_of l)), (assoc_L (++)).
      apply IH. split_and!.
      * rewrite dict_keys_set_in; [done|]. by rewrite Hka.
      * rewrite dict_keys_set_in; [done|]. by rewrite Hki.
      * intros k Hk. unfold edge_of.
        rewrite dict_get_set, successors_snoc.
        case_decide as Hkf.
        -- subst k. by rewrite decide_True.
        -- rewrite decide_False by done. rewrite app_nil_r. by apply Hadj.
      * intros k Hk. unfold edge_of.
        rewrite dict_get_set, remaining_nil_snoc.
        case_decide as Hkt.
        -- subst k. rewrite decide_True by done. f_equal. lia.
        -- rewrite decide_False by done. rewrite Nat.add_0_r. by apply Hindeg.
    + destruct (dict_mem _ _ && dict_mem _ _) eqn:Hmem.
      { by apply add_link_valid in Hmem. }
      cbn [bind]. rewrite filter_cons_False by done.
      by apply IH.
Qed.

Lemma read_links_spec w :
  ∃ adj indeg,
    read_links w = Ok (adj, indeg) ∧ links_read w (edges w) adj indeg.
Proof.
  unfold read_links, edges.
  apply (for_each_add_link w (links w) []). split_and!.
  - apply dict_of_nodes_keys.
  - apply dict_of_nodes_keys.
  - intros k Hk.
    destruct (dict_of_nodes_get (λ _, []) (λ _ v, v = @nil string) w k)
      as (v & -> & ->); done.
  - intros k Hk.
    destruct (dict_of_nodes_get (λ _, 0%Z) (λ _ v, v = 0%Z) w k)
      as (v & -> & ->); done.
Qed.

Lemma edges_valid w a b :
  (a, b) ∈ edges w → a ∈ scheduler_keys w ∧ b ∈ scheduler_keys w.
Proof.
  unfold edges. rewrite list_elem_of_fmap.
  intros (l & [= -> ->] & [Hv _]%list_elem_of_filter).
  by rewrite !elem_of_scheduler_keys.
Qed.

Lemma elem_of_edges w a b :
  (a, b) ∈ edges w ↔
  ∃ l, l ∈ links w ∧ valid_link w l ∧ from_node l = a ∧ to_node l = b.
Proof.
  unfold edges. rewrite list_elem_of_fmap. split.
  - intros (l & [= -> ->] & [Hv Hl]%list_elem_of_filter). eauto.
  - intros (l & Hl & Hv & <- & <-). exists l. split; [done|].
    by apply list_elem_of_filter.
Qed.

(** The queue starts with the nodes of in-degree zero, in the order of the
    dictionary. *)
Lemma ready_spec (indeg : pydict Z) (f : string → nat) :
  NoDup (dict_keys indeg) →
  (∀ k, k ∈ dict_keys indeg → dict_get k indeg = Some (Z.of_nat (f k))) →
  ready indeg = filter (λ k, f k = 0) (dict_keys indeg).
Proof.
  unfold ready, dict_keys. induction indeg as [|[k v] d IH]; [done|].
  rewrite fmap_cons. cbn [fst]. intros [Hk Hnd]%NoDup_cons Hget.
  assert (Hv : v = Z.of_nat (f k)).
  { specialize (Hget k). cbn [dict_get] in Hget.
    rewrite decide_True in Hget by done. injection Hget; [done|left]. }
  rewrite !filter_cons. cbn [snd]. rewrite <-IH; [|done|].
  - repeat case_decide; rewrite ?fmap_cons; try done; lia.
  - intros k' Hk'. specialize (Hget k'). cbn [dict_get] in Hget.
    rewrite decide_False in Hget.
    + apply Hget. by right.
    + intros ->. done.
Qed.

Lemma kahn_order_spec w :
  ∃ indeg res,
    kahn_order w = Ok res
    ∧ kahn_inv (scheduler_keys w) (edges w) indeg [] res
    ∧ filter (λ k, in_degree w k = 0) (scheduler_keys w) `prefix_of` res.
Proof.
  destruct (read_links_spec w) as (adj & indeg & Hread & Hka & Hki & Hadj & Hdeg).
  assert (Hq : ready indeg = filter (λ k, in_degree w k = 0) (scheduler_keys w)).
  { rewrite <-Hki. apply ready_spec.
    - rewrite Hki. apply scheduler_keys_NoDup.
    - intros k Hk. rewrite Hki in Hk. rewrite (Hdeg k Hk).
      by rewrite remaining_nil. }
  destruct (kahn_loop_inv (scheduler_keys w) (edges w) adj
              (edges_valid w) Hadj indeg (ready indeg) [])
    as (indeg' & res & Hres & Hinv & Hpre).
  { split.
    - done.
    - done.
    - simpl. rewrite Hq. apply NoDup_filter, scheduler_keys_NoDup.
    - intros k. simpl. rewrite Hq, list_elem_of_filter, remaining_nil.
      unfold in_degree. naive_solver.
    - intros a b j _ Hj. by rewrite lookup_nil in Hj. }
  exists indeg', res. unfold kahn_order. rewrite Hread. simpl.
  split_and!; [done..|]. by rewrite <-Hq.
Qed.

End read_links.

(** ** Cycles *)

(** In a finite set where every element has a predecessor in the set, the
    walk back from any element must come back on itself. *)
Lemma sorted_irreflexive_NoDup {A} (R : relation A) (l : list A) :
  (∀ z, ¬ R z z) → StronglySorted R l → NoDup l.
Proof.
  intros Hirr. induction 1 as [|a l Hs IH Hall]; constructor; [|done].
  intros Hin. rewrite Forall_forall in Hall. by apply (Hirr a), Hall.
Qed.

Lemma no_source_no_elements {A} (R : relation A) (S : list A) :
  (∀ z, ¬ tc R z z) →
  (∀ x, x ∈ S → ∃ y, y ∈ S ∧ R y x) →
  S = [].
Proof.
  intros Hacyc Hpred. destruct S as [|x0 S'] eqn:HS; [done|]. exfalso.
  rewrite <-HS in Hpred.
  assert (Hx0 : x0 ∈ S) by (rewrite HS; left).
  clear HS.
  assert (Hwalk : ∀ n, ∃ h l,
            length l = n ∧ h ∈ S ∧ Forall (.∈ S) l ∧ StronglySorted (tc R) (h :: l)).
  { induction n as [|n (h & l & Hlen & Hh & Hl & Hsort)].
    - exists x0, []. split_and!; [done..|]. by repeat constructor.
    - destruct (Hpred h Hh) as (y & Hy & Hyh).
      exists y, (h :: l). split_and!; [by simpl; f_equal|done|by constructor|].
      constructor; [done|]. constructor; [by apply tc_once|].
      apply StronglySorted_inv in Hsort as [_ Hall].
      eapply Forall_impl; [exact Hall|]. intros z Hz. by eapply tc_l. }
  destruct (Hwalk (length S)) as (h & l & Hlen & Hh & Hl & Hsort).
  apply (sorted_irreflexive_NoDup _ _ Hacyc) in Hsort.
  assert (Hsub : h :: l ⊆+ S).
  { apply NoDup_submseteq; [done|]. intros x [->|Hx]%elem_of_cons; [done|].
    rewrite Forall_forall in Hl. by apply Hl. }
  apply submseteq_length in Hsub. simpl in Hsub. lia.
Qed.

Lemma remaining_pos E ordered k :
  remaining E ordered k ≠ 0 → ∃ a, (a, k) ∈ E ∧ a ∉ ordered.
Proof.
  unfold remaining. intros Hne.
  destruct (filter _ E) as [|[a b] rest] eqn:Hf; [done|].
  assert (Hin : (a, b) ∈ filter (λ e, e.2 = k ∧ e.1 ∉ ordered) E)
    by (rewrite Hf; left).
  apply list_elem_of_filter in Hin as [[Hb Ha] Hin]. simpl in *. subst b.
  by exists a.
Qed.

Section topo_sort.
Context {Any : Type}.
Implicit Types (w : @Workflow Any) (l : PortLink) (k : string).
Implicit Types (order : list (@Node Any)).

Lemma kahn_inv_length K E indeg res :
  NoDup K → kahn_inv K E indeg [] res → length res ≤ length K.
Proof.
  intros HK [_ _ Hnd Hready _]. rewrite app_nil_r in Hnd.
  apply submseteq_length, NoDup_submseteq; [done|].
  intros k Hk. apply (Hready k). by rewrite app_nil_r.
Qed.

Lemma kahn_inv_full K E indeg res :
  NoDup K → kahn_inv K E indeg [] res → length K ≤ length res →
  ∀ k, k ∈ K → k ∈ res.
Proof.
  intros HK [_ _ Hnd Hready _] Hlen. rewrite app_nil_r in Hnd.
  assert (Hsub : res ⊆+ K).
  { apply NoDup_submseteq; [done|].
    intros k Hk. apply (Hready k). by rewrite app_nil_r. }
  apply submseteq_length_Permutation in Hsub; [|done].
  intros k Hk. by rewrite Hsub.
Qed.

(** The order is linear for the transitive closure of the edges. *)
Lemma kahn_inv_tc K E indeg res :
  kahn_inv K E indeg [] res →
  (∀ k, k ∈ K → k ∈ res) →
  (∀ a b, (a, b) ∈ E → b ∈ K) →
  ∀ a b, tc (λ a b, (a, b) ∈ E) a b → precedes res a b.
Proof.
  intros [_ _ Hnd _ Hlin] Hfull HE a b Htc. rewrite app_nil_r in Hnd.
  assert (Hstep : ∀ a b, (a, b) ∈ E → precedes res a b).
  { intros a' b' Hab.
    assert (Hb : b' ∈ res) by (eapply Hfull, HE; done).
    apply list_elem_of_lookup in Hb as [j Hj].
    destruct (Hlin a' b' j Hab Hj) as (i & Hi & Hai).
    by exists i, j. }
  induction Htc as [a b Hab|a b c Hab Hbc IH]; [by apply Hstep|].
  destruct (Hstep a b Hab) as (i & j & Hij & Hi & Hj).
  destruct IH as (j' & m & Hjm & Hj' & Hm).
  assert (j = j') as <- by (eapply NoDup_lookup; done).
  exists i, m. split_and!; [lia|done..].
Qed.

Lemma precedes_irrefl (ids : list string) a :
  NoDup ids → ¬ precedes ids a a.
Proof.
  intros Hnd (i & j & Hij & Hi & Hj).
  assert (i = j) by (eapply NoDup_lookup; done). lia.
Qed.

(** Looking the ordered ids up in [nodes_by_id] cannot fail. *)
Lemma map_each_nodes_by_id w (res : list string) :
  (∀ k, k ∈ res → k ∈ scheduler_keys w) →
  ∃ order,
    map_each (λ nid, dict_item nid (dict_of_nodes (λ n, n) (nodes w))) res
    = Ok order
    ∧ id <$> order = res
    ∧ ∀ n, n ∈ order → n ∈ nodes w.
Proof.
  induction res as [|k res IH]; intros Hres.
  - exists []. split_and!; [done..|]. by intros n ?%elem_of_nil.
  - destruct IH as (order & Hmap & Hids & Hin).
    { intros k' Hk'. apply Hres. by right. }
    destruct (dict_of_nodes_get (λ n, n) (λ k n, id n = k ∧ n ∈ nodes w) w k)
      as (n & Hn & Hid & Hnin); [done|apply Hres; left|].
    exists (n :: order). cbn [map_each]. unfold dict_item at 1.
    rewrite Hn. cbn [bind]. rewrite Hmap. cbn [bind].
    split_and!; [done|by rewrite fmap_cons, Hid, Hids|].
    intros n' [->|Hn']%elem_of_cons; auto.
Qed.

(** [topo_sort] never raises a [KeyError]: it returns the nodes of the
    loop's order when that order has every declared node, and raises its
    [GraphError] when the order is shorter. *)
Lemma topo_sort_spec w :
  ∃ indeg res,
    kahn_order w = Ok res
    ∧ kahn_inv (scheduler_keys w) (edges w) indeg [] res
    ∧ filter (λ k, in_degree w k = 0) (scheduler_keys w) `prefix_of` res
    ∧ length res ≤ length (scheduler_keys w)
    ∧ ((length res < length (nodes w) ∧ topo_sort w = Raise GraphError)
       ∨ (length res = length (nodes w)
          ∧ ∃ order, topo_sort w = Ok order ∧ id <$> order = res
                     ∧ ∀ n, n ∈ order → n ∈ nodes w)).
Proof.
  destruct (kahn_order_spec w) as (indeg & res & Hres & Hinv & Hpre).
  exists indeg, res.
  pose proof (kahn_inv_length _ _ _ _ (scheduler_keys_NoDup w) Hinv) as Hlen.
  pose proof (scheduler_keys_length w) as Hlen'.
  split_and!; [done..|].
  unfold topo_sort. rewrite Hres. cbn [bind].
  case_decide as Hne; [left; split; [lia|done]|].
  right. split; [lia|].
  apply map_each_nodes_by_id. intros k Hk.
  destruct Hinv as [_ _ _ Hready _]. apply (Hready k). by rewrite app_nil_r.
Qed.

End topo_sort.

Section scheduler_claims.
Context {Any : Type}.
Implicit Types (w : @Workflow Any) (l : PortLink) (k : string).
Implicit Types (order : list (@Node Any)) (n : @Node Any).

Lemma elem_of_fmap_unique {A B} (f : A → B) (xs : list A) x y :
  NoDup (f <$> xs) → x ∈ xs → y ∈ xs → f x = f y → x = y.
Proof.
  induction xs as [|z xs IH]; [by intros _ ?%elem_of_nil|].
  rewrite fmap_cons. intros [Hz Hnd]%NoDup_cons.
  intros [->|Hx]%elem_of_cons [->|Hy]%elem_of_cons Hxy; [done| | |by apply IH].
  - destruct Hz. rewrite Hxy. by apply list_elem_of_fmap_2.
  - destruct Hz. rewrite <-Hxy. by apply list_elem_of_fmap_2.
Qed.

(** When the valid edges form no cycle, the loop leaves no node behind. *)
Lemma kahn_inv_acyclic w indeg res :
  acyclic w →
  kahn_inv (scheduler_keys w) (edges w) indeg [] res →
  ∀ k, k ∈ scheduler_keys w → k ∈ res.
Proof.
  intros Hacyc [_ _ _ Hready _].
  assert (Hstuck : filter (λ k, k ∉ res) (scheduler_keys w) = []).
  { apply (no_source_no_elements (edge w)); [done|].
    intros x [Hx HxK]%list_elem_of_filter.
    destruct (remaining_pos (edges w) res x) as (a & Hax & Ha).
    { intros Hz. apply Hx. rewrite <-(app_nil_r res). by apply Hready. }
    exists a. split; [|done].
    apply list_elem_of_filter. split; [done|].
    by apply edges_valid in Hax as [? _]. }
  intros k Hk. destruct (decide (k ∈ res)) as [|Hn]; [done|].
  assert (Hin : k ∈ filter (λ k, k ∉ res) (scheduler_keys w))
    by by apply list_elem_of_filter.
  rewrite Hstuck in Hin. by apply elem_of_nil in Hin.
Qed.

(** A rank that grows along every valid link rules cycles out. *)
Lemma acyclic_by_rank w (rank : string → nat) :
  Forall (λ l, valid_link w l → rank (from_node l) < rank (to_node l)) (links w) →
  acyclic w.
Proof.
  rewrite Forall_forall. intros Hrank.
  assert (Htc : ∀ a b, tc (edge w) a b → rank a < rank b).
  { induction 1 as [a b Hab|a b c Hab _ IH].
    - apply elem_of_edges in Hab as (l & Hl & Hv & <- & <-). by apply Hrank.
    - apply elem_of_edges in Hab as (l & Hl & Hv & <- & <-).
      specialize (Hrank l Hl Hv). lia. }
  intros x Hx%Htc. lia.
Qed.

(** A cycle among the valid edges keeps the loop from ordering every node,
    and so makes [topo_sort] raise. *)
Lemma kahn_order_cycle w :
  has_cycle w →
  ∃ ordered, kahn_order w = Ok ordered ∧ length ordered < length (nodes w).
Proof.
  intros [x Hx].
  destruct (topo_sort_spec w)
    as (indeg & res & Hres & Hinv & _ & Hlen & [[Hshort _]|[Hfull _]]);
    [by exists res|].
  exfalso. pose proof (scheduler_keys_length w) as HlenK.
  assert (Hall : ∀ k, k ∈ scheduler_keys w → k ∈ res).
  { apply (kahn_inv_full _ _ _ _ (scheduler_keys_NoDup w) Hinv). lia. }
  assert (Hpre : precedes res x x).
  { apply (kahn_inv_tc _ _ _ _ Hinv Hall); [|exact Hx].
    intros a b Hab. by apply edges_valid in Hab as [_ ?]. }
  apply precedes_irrefl in Hpre; [done|].
  destruct Hinv as [_ _ Hnd _ _]. by rewrite app_nil_r in Hnd.
Qed.

Lemma topo_sort_short w ordered :
  kahn_order w = Ok ordered → length ordered < length (nodes w) →
  topo_sort w = Raise GraphError.
Proof.
  intros Hord Hlen. unfold topo_sort. rewrite Hord. cbn [bind].
  rewrite decide_True; [done|lia].
Qed.

(** Two nodes with one id make [topo_sort] raise. *)
Lemma topo_sort_duplicate w :
  ¬ NoDup (declared_ids w) → topo_sort w = Raise GraphError.
Proof.
  intros Hdup.
  destruct (topo_sort_spec w)
    as (indeg & res & _ & Hinv & _ & Hlen & [[_ Hraise]|[Hfull _]]); [done|].
  destruct Hdup. apply scheduler_keys_length_eq.
  pose proof (scheduler_keys_length w). lia.
Qed.

(** C1. For every graph with unique node ids whose valid edges form no
    cycle, [topo_sort] returns an order, which holds every declared node
    once and in which the source of every valid link stands strictly before
    its target. *)
Theorem topo_sort_linearization w :
  NoDup (declared_ids w) →
  acyclic w →
  ∃ order,
    topo_sort w = Ok order
    ∧ order ≡ₚ nodes w
    ∧ ∀ l, l ∈ links w → valid_link w l →
        precedes (id <$> order) (from_node l) (to_node l).
Proof.
  intros Hnd Hacyc.
  destruct (topo_sort_spec w) as (indeg & res & _ & Hinv & _ & Hlen & Hcases).
  pose proof (kahn_inv_acyclic w indeg res Hacyc Hinv) as Hall.
  assert (HlenK : length (scheduler_keys w) ≤ length res).
  { apply submseteq_length, NoDup_submseteq; [apply scheduler_keys_NoDup|done]. }
  rewrite (scheduler_keys_unique w Hnd) in HlenK.
  unfold declared_ids in HlenK. rewrite length_fmap in HlenK.
  destruct Hcases as [[Hlt _]|(_ & order & Horder & Hids & Hin)]; [lia|].
  assert (Hndres : NoDup res).
  { destruct Hinv as [_ _ Hnd' _ _]. by rewrite app_nil_r in Hnd'. }
  exists order. split_and!; [done| |].
  - apply NoDup_Permutation.
    + apply (NoDup_fmap_1 id). by rewrite Hids.
    + by apply (NoDup_fmap_1 id).
    + intros n. split; [by apply Hin|]. intros Hn.
      assert (Hidn : id n ∈ id <$> order).
      { rewrite Hids. apply Hall, elem_of_scheduler_keys.
        by apply list_elem_of_fmap_2. }
      apply list_elem_of_fmap in Hidn as (n' & Heq & Hn').
      by rewrite (elem_of_fmap_unique id (nodes w) n n' Hnd Hn (Hin _ Hn') Heq).
  - intros l Hl Hv. rewrite Hids.
    apply (kahn_inv_tc _ _ _ _ Hinv Hall).
    + intros a b Hab. by apply edges_valid in Hab as [_ ?].
    + apply tc_once, elem_of_edges. by exists l.
Qed.

End scheduler_claims.

(** ** First in, first out *)




(** ** The nodes a turn of the loop releases *)









Section kahn_ties.
Context (K : list string) (E : list (string * string)).
Context (adj : pydict (list string)).
Hypothesis E_valid : ∀ a b, (a, b) ∈ E → a ∈ K ∧ b ∈ K.
Hypothesis adj_spec : ∀ k, k ∈ K → dict_get k adj = Some (successors E k).
Context (u a b : string).
Hypothesis a_from_u : ∀ e, e ∈ E → e.2 = a → e.1 = u.
Hypothesis b_from_u : ∀ e, e ∈ E → e.2 = b → e.1 = u.
Hypothesis a_once : occurrences a (successors E u) = 1.
Hypothesis b_once : occurrences b (successors E u) = 1.
Hypothesis a_first : precedes (successors E u) a b.


End kahn_ties.

Section fifo.
Context {Any : Type}.
Implicit Types (w : @Workflow Any) (l : PortLink) (k : string).

Lemma topo_sort_Ok w order :
  topo_sort w = Ok order →
  kahn_order w = Ok (id <$> order)
  ∧ NoDup (id <$> order)
  ∧ NoDup (declared_ids w)
  ∧ length order = length (nodes w)
  ∧ ∀ n, n ∈ order → n ∈ nodes w.
Proof.
  intros Hok.
  destruct (topo_sort_spec w)
    as (indeg & res & Hres & Hinv & _ & Hlen & [[_ Hraise]|(Hfull & o & Ho & Hids & Hin)]).
  { by rewrite Hraise in Hok. }
  rewrite Ho in Hok. injection Hok as ->.
  split_and!; [by rewrite Hids| | | |done].
  - rewrite Hids. destruct Hinv as [_ _ Hnd _ _]. by rewrite app_nil_r in Hnd.
  - apply scheduler_keys_length_eq. pose proof (scheduler_keys_length w). lia.
  - by rewrite <-Hfull, <-Hids, length_fmap.
Qed.


End fifo.

(** ** The dependency map and the resolver *)

Section dependency_map.
Context {Any : Type}.
Implicit Types (w : @Workflow Any) (l : PortLink) (k : string).
Implicit Types (m : gmap string (gmap string Source)).
Implicit Types (c : @ExecutionContext Any).

Lemma resolve_input_unfold node_id port m c :
  resolve_input node_id port m c =
  src ← binding m node_id port; captured c (src_node src) (src_port src).
Proof. unfold resolve_input, binding, captured. by destruct (_ !! port). Qed.

Lemma binding_bind_link m l node_id port :
  binding (bind_link m l) node_id port =
  if decide (targets node_id port l) then Some (source_of l)
  else binding m node_id port.
Proof.
  unfold binding, bind_link, targets, setdefault, source_of.
  destruct (decide (to_node l = node_id)) as [<-|Hn].
  - rewrite lookup_insert_eq. simpl.
    destruct (decide (to_port l = port)) as [<-|Hp].
    + rewrite lookup_insert_eq. by rewrite decide_True.
    + rewrite lookup_insert_ne by done. rewrite decide_False by naive_solver.
      destruct (m !! to_node l) eqn:Hm; [by rewrite Hm|].
      by rewrite lookup_insert_eq.
  - rewrite lookup_insert_ne by done. rewrite decide_False by naive_solver.
    destruct (m !! to_node l); [done|]. by rewrite lookup_insert_ne.
Qed.

Lemma foldl_snoc {A B} (f : A → B → A) (a : A) (xs : list B) (x : B) :
  foldl f a (xs ++ [x]) = f (foldl f a xs) x.
Proof. by rewrite foldl_app. Qed.

(** What the dependency map holds: for each input port, the last link
    declared for it, whether or not the link's endpoints are declared. *)
Lemma binding_foldl (ls : list PortLink) node_id port :
  binding (foldl bind_link ∅ ls) node_id port
  = source_of <$> last (filter (targets node_id port) ls).
Proof.
  induction ls as [|l ls IH] using rev_ind; [done|].
  rewrite foldl_snoc, binding_bind_link, filter_app, filter_cons, filter_nil.
  case_decide; [by rewrite last_snoc|].
  by rewrite app_nil_r.
Qed.

Lemma binding_build_input_map w node_id port :
  binding (build_input_map w) node_id port
  = source_of <$> last (filter (targets node_id port) (links w)).
Proof. apply binding_foldl. Qed.

(** C4. When links target the same input port, the dependency map keeps
    the last of them in declaration order, and the resolver returns what the
    source of that last link has produced. *)
Theorem fan_in_last_declared_wins w node_id port l c :
  last (filter (targets node_id port) (links w)) = Some l →
  binding (build_input_map w) node_id port = Some (source_of l)
  ∧ resolve_input node_id port (build_input_map w) c
    = captured c (from_node l) (from_port l).
Proof.
  intros Hlast. rewrite resolve_input_unfold, binding_build_input_map, Hlast.
  done.
Qed.

Lemma filter_none {A} (P : A → Prop) `{!∀ x, Decision (P x)} (xs : list A) :
  Forall (λ x, ¬ P x) xs → filter P xs = [].
Proof.
  induction 1 as [|x xs Hx _ IH]; [done|]. by rewrite filter_cons_False.
Qed.

Lemma for_each_app {A S} (body : S → A → result S) (xs ys : list A) (st : S) :
  for_each body (xs ++ ys) st = st' ←! for_each body xs st; for_each body ys st'.
Proof.
  revert st. induction xs as [|x xs IH]; intros st; [done|].
  simpl. destruct (body st x); simpl; [apply IH|done].
Qed.

(** C6. A link with an undeclared endpoint adds no edge to the ordering
    graph and changes no in-degree, so [topo_sort] computes what it computes
    without the link; the dependency map is built from the links alone,
    whatever nodes are declared: it binds the link's input port like any
    other, to the last link declared for that port, which is this link
    unless a later one targets the port, and the resolver then reads the
    context at the link's source. *)
Theorem dangling_link_asymmetry (ns : list (@Node Any)) pre l post c :
  let w := {| nodes := ns; links := pre ++ l :: post |} in
  let w' := {| nodes := ns; links := pre ++ post |} in
  ¬ valid_link w l →
  edges w = edges w'
  ∧ (∀ k, in_degree w k = in_degree w' k)
  ∧ read_links w = read_links w'
  ∧ topo_sort w = topo_sort w'
  ∧ (∀ ns' : list (@Node Any),
       build_input_map {| nodes := ns'; links := pre ++ l :: post |}
       = build_input_map w)
  ∧ binding (build_input_map w) (to_node l) (to_port l)
    = source_of <$> last (l :: filter (targets (to_node l) (to_port l)) post)
  ∧ (Forall (λ l', ¬ targets (to_node l) (to_port l) l') post →
     binding (build_input_map w) (to_node l) (to_port l) = Some (source_of l)
     ∧ resolve_input (to_node l) (to_port l) (build_input_map w) c
       = captured c (from_node l) (from_port l)).
Proof.
  intros w w' Hl.
  assert (Hedges : edges w = edges w').
  { unfold edges. simpl. rewrite !filter_app, filter_cons_False; done. }
  assert (Hread : read_links w = read_links w').
  { unfold read_links. simpl. rewrite !for_each_app.
    destruct (for_each _ pre _) as [st|]; [|done]. cbn [bind for_each].
    unfold add_link at 1.
    destruct (dict_mem _ _ && dict_mem _ _) eqn:Hmem; [|done].
    by apply (add_link_valid w) in Hmem. }
  assert (Hbind : binding (build_input_map w) (to_node l) (to_port l)
      = source_of <$> last (l :: filter (targets (to_node l) (to_port l)) post)).
  { rewrite binding_build_input_map. simpl.
    rewrite filter_app, filter_cons_True by done.
    by rewrite last_app_cons. }
  split_and!; [done| | | |done|done|].
  - intros k. unfold in_degree. by rewrite Hedges.
  - done.
  - unfold topo_sort, kahn_order. by rewrite Hread.
  - intros Hpost. apply (filter_none (targets (to_node l) (to_port l))) in Hpost.
    rewrite resolve_input_unfold, Hbind, Hpost. done.
Qed.

End dependency_map.

(** ** The executor *)

Section executor.
Context {Any World : Type}.
Context (WORKSPACE : string).
Context (call_ctx : Runner → @Node Any → @ExecutionContext Any → World →
                    @RunnerResult Any * World).
Context (call_map : Runner → @Node Any → gmap string (gmap string Source) →
                    @ExecutionContext Any → World → @RunnerResult Any * World).
Implicit Types (w : @Workflow Any) (n : @Node Any) (ns pre post : list (@Node Any)).
Implicit Types (st : @RunState Any World) (c : @ExecutionContext Any).
Implicit Types (im : gmap string (gmap string Source)) (wd : World).

Local Abbreviation run_node' := (run_node call_ctx call_map).
Local Abbreviation run_nodes' := (run_nodes call_ctx call_map).
Local Abbreviation call_runner' := (call_runner call_ctx call_map).
Local Abbreviation execute_workflow_run' := (execute_workflow_run WORKSPACE call_ctx call_map).
Local Abbreviation execute_workflow' := (execute_workflow WORKSPACE call_ctx call_map).
Local Abbreviation run_workflow_api' := (run_workflow_api WORKSPACE call_ctx call_map).

Lemma run_nodes_app im pre post st :
  run_nodes' im (pre ++ post) st =
  match run_nodes' im pre st with
  | (st', Ok _) => run_nodes' im post st'
  | (st', Raise e) => (st', Raise e)
  end.
Proof.
  revert st. induction pre as [|n pre IH]; intros st; [done|].
  simpl. destruct (run_node' im st n) as [st' [[]|e]]; [apply IH|done].
Qed.

(** A node that runs to its end: two entries, its outputs, one call. *)
Lemma run_node_Ok im st n st' :
  run_node' im st n = (st', Ok ()) →
  ∃ out,
    logs (ctx st') = logs (ctx st)
                     ++ [running_entry (S (step (ctx st))) n;
                         done_entry (S (S (step (ctx st)))) n out]
    ∧ step (ctx st') = S (S (step (ctx st)))
    ∧ outputs (ctx st') = <[id n := out]> (outputs (ctx st))
    ∧ invoked st' = invoked st ++ [id n].
Proof.
  unfold run_node. destruct (dict_get (type n) NODE_RUNNERS) as [runner|]; [|done].
  destruct (call_runner' _ _ _ _ _) as [[out|msg] wd']; [|done].
  intros [= <-]. exists out. simpl. split_and!; [|done..].
  by rewrite <-(assoc_L (++)).
Qed.

(** Nodes that all run to their end. *)
Lemma run_nodes_Ok im ns :
  ∀ st st',
    run_nodes' im ns st = (st', Ok ()) →
    step (ctx st') = step (ctx st) + 2 * length ns
    ∧ invoked st' = invoked st ++ (id <$> ns)
    ∧ (∃ new, logs (ctx st') = logs (ctx st) ++ new
              ∧ length new = 2 * length ns
              ∧ Forall (λ e, log_node e ∈ id <$> ns) new)
    ∧ (∀ k, k ∉ id <$> ns → outputs (ctx st') !! k = outputs (ctx st) !! k).
Proof.
  induction ns as [|n ns IH]; intros st st'.
  - intros [= <-]. simpl. split_and!; [lia|by rewrite app_nil_r| |done].
    exists []. by rewrite app_nil_r.
  - cbn [run_nodes].
    destruct (run_node' im st n) as [st1 [[]|e]] eqn:Hn; [|done].
    apply run_node_Ok in Hn as (out & Hlogs & Hstep & Houts & Hinv).
    intros (IHstep & IHinv & (new & IHlogs & IHlen & IHall) & IHouts)%IH.
    split_and!.
    + rewrite IHstep, Hstep. simpl. lia.
    + rewrite IHinv, Hinv, fmap_cons, <-(assoc_L (++)). done.
    + eexists (_ :: _ :: new). split_and!.
      * rewrite IHlogs, Hlogs, <-(assoc_L (++)). done.
      * simpl. lia.
      * rewrite fmap_cons. repeat constructor; simpl; [left..|].
        eapply Forall_impl; [exact IHall|]. intros e He. by right.
    + intros k Hk. rewrite fmap_cons in Hk. apply not_elem_of_cons in Hk as [? ?].
      rewrite IHouts, Houts by done. by rewrite lookup_insert_ne.
Qed.

Lemma initial_state_run_nodes im ns wd st' :
  run_nodes' im ns (initial_state wd) = (st', Ok ()) →
  step (ctx st') = 2 * length ns
  ∧ invoked st' = id <$> ns
  ∧ length (logs (ctx st')) = 2 * length ns
  ∧ Forall (λ e, log_node e ∈ id <$> ns) (logs (ctx st'))
  ∧ (∀ k, k ∉ id <$> ns → outputs (ctx st') !! k = None).
Proof.
  intros (Hstep & Hinv & (new & Hlogs & Hlen & Hall) & Houts)%run_nodes_Ok.
  simpl in *. split_and!; [done..|by rewrite Hlogs|by rewrite Hlogs|].
  intros k Hk. by rewrite Houts.
Qed.

(** C5. [resolve_input] is a total function of its four arguments: absent
    without a binding for the port, absent when the producer bound to it
    has captured no outputs or none for the bound port, and the captured
    value exactly when there is one.  In the context a runner is called
    with, a producer that is not among the nodes that have run (one that is
    not declared, for instance) has captured nothing, so a port bound to it
    resolves to absent. *)
Theorem resolve_input_total node_id port m c :
  (binding m node_id port = None → resolve_input node_id port m c = None)
  ∧ (∀ src, binding m node_id port = Some src →
       (outputs c !! src_node src = None →
          resolve_input node_id port m c = None)
       ∧ (∀ out, outputs c !! src_node src = Some out →
            resolve_input node_id port m c = out !! src_port src))
  ∧ (∀ v, resolve_input node_id port m c = Some v ↔
       ∃ src out, binding m node_id port = Some src
                  ∧ outputs c !! src_node src = Some out
                  ∧ out !! src_port src = Some v)
  ∧ (∀ im ns wd st n src,
       run_nodes' im ns (initial_state wd) = (st, Ok ()) →
       binding m node_id port = Some src →
       src_node src ∉ id <$> ns →
       resolve_input node_id port m (node_log (ctx st) n "running" None) = None).
Proof.
  rewrite resolve_input_unfold. unfold captured. split_and!.
  - by intros ->.
  - intros src ->. simpl. split; [by intros ->|by intros out ->].
  - intros v. destruct (binding m node_id port) as [src|]; simpl.
    + destruct (outputs c !! src_node src) as [out|] eqn:Hout; simpl.
      * split; [by eauto|]. intros (? & ? & [= <-] & Hout' & ?).
        rewrite Hout in Hout'. by injection Hout' as <-.
      * rewrite lookup_empty. split; [done|].
        intros (? & ? & [= <-] & Hout' & ?). by rewrite Hout in Hout'.
    + split; [done|]. by intros (? & ? & ? & _).
  - intros im ns wd st n src (_ & _ & _ & _ & Houts)%initial_state_run_nodes
      Hsrc Hfresh.
    rewrite resolve_input_unfold, Hsrc. unfold captured. simpl.
    by rewrite (Houts _ Hfresh).
Qed.

Lemma filter_log_node_none (es : list (@LogEntry Any)) (ids : list string) k :
  Forall (λ e, log_node e ∈ ids) es → k ∉ ids →
  filter (λ e, log_node e = k) es = [].
Proof.
  intros Hall Hk. apply (filter_none (λ e, log_node e = k)).
  eapply Forall_impl; [exact Hall|]. intros e He Heq. simpl in He. by rewrite Heq in He.
Qed.

(** [topo_sort] raising is all of the run. *)
Lemma execute_workflow_run_raise w wd e :
  topo_sort w = Raise e →
  execute_workflow_run' w wd = (initial_state wd, Raise e)
  ∧ run_workflow_api' w wd = HTTPException 400 (exn_message e).
Proof.
  intros Hraise.
  unfold run_workflow_api, execute_workflow,
    execute_workflow_run.
  by rewrite Hraise.
Qed.

(** A run stopped by the node after [pre]. *)
Lemma execute_workflow_run_stop w wd order pre n post st1 st e :
  topo_sort w = Ok order →
  order = pre ++ n :: post →
  run_nodes' (build_input_map w) pre (initial_state wd) = (st1, Ok ()) →
  run_node' (build_input_map w) st1 n = (st, Raise e) →
  execute_workflow_run' w wd = (st, Raise e)
  ∧ execute_workflow' w wd = Raise e
  ∧ run_workflow_api' w wd = HTTPException 400 (exn_message e).
Proof.
  intros Horder -> Hpre Hn.
  unfold run_workflow_api, execute_workflow,
    execute_workflow_run.
  rewrite Horder, run_nodes_app, Hpre. cbn [run_nodes].
  by rewrite Hn.
Qed.

Lemma order_ids_split w order pre n post :
  topo_sort w = Ok order →
  order = pre ++ n :: post →
  (id n ∉ id <$> pre)
  ∧ (∀ n', n' ∈ post → (id n' ∉ id <$> pre) ∧ id n' ≠ id n).
Proof.
  intros (_ & Hnd & _)%topo_sort_Ok ->.
  rewrite fmap_app, fmap_cons in Hnd.
  apply NoDup_app in Hnd as (_ & Hdisj & [Hn _]%NoDup_cons).
  split.
  - intros Hin. apply (Hdisj _ Hin). left.
  - intros n' Hn'. split.
    + intros Hin. apply (Hdisj _ Hin). right. by apply list_elem_of_fmap_2.
    + intros Heq. apply Hn. rewrite <-Heq. by apply list_elem_of_fmap_2.
Qed.

(** C2. When the order the loop computes is shorter than the list of nodes,
    as it is whenever the valid edges contain a cycle, [execute_workflow]
    raises the [GraphError] of [topo_sort] in the state the run started in:
    no runner called, no log entry, no outputs, the world untouched; the
    caller of [/run] gets the message alone. *)
Theorem graph_error_before_any_runner w wd :
  (∃ ordered, kahn_order w = Ok ordered ∧ length ordered < length (nodes w))
  ∨ has_cycle w →
  (∃ ordered, kahn_order w = Ok ordered ∧ length ordered < length (nodes w))
  ∧ ∃ st,
      execute_workflow_run' w wd = (st, Raise GraphError)
      ∧ invoked st = []
      ∧ logs (ctx st) = []
      ∧ outputs (ctx st) = ∅
      ∧ step (ctx st) = 0
      ∧ world st = wd
      ∧ execute_workflow' w wd = Raise GraphError
      ∧ run_workflow_api' w wd = HTTPException 400 graph_error_message.
Proof.
  intros Hshort.
  assert (Hord : ∃ ordered,
            kahn_order w = Ok ordered ∧ length ordered < length (nodes w)).
  { destruct Hshort as [?|Hcycle]; [done|by apply kahn_order_cycle]. }
  split; [done|]. destruct Hord as (ordered & Hord & Hlen).
  pose proof (topo_sort_short w ordered Hord Hlen) as Hraise.
  destruct (execute_workflow_run_raise w wd _ Hraise) as [Hrun Hapi].
  exists (initial_state wd). unfold execute_workflow. rewrite Hrun.
  split_and!; done.
Qed.

(** C10. When two declared nodes share an id, the loop orders each id at
    most once, so its order is shorter than the list of nodes, whatever the
    links: [execute_workflow] raises the [GraphError] of [topo_sort] in the
    state the run started in, no runner called and no log entry written. *)
Theorem duplicate_ids_graph_error w wd :
  ¬ NoDup (declared_ids w) →
  (∃ ordered,
     kahn_order w = Ok ordered
     ∧ NoDup ordered
     ∧ length ordered ≤ length (scheduler_keys w)
     ∧ length (scheduler_keys w) < length (nodes w))
  ∧ ∃ st,
      execute_workflow_run' w wd = (st, Raise GraphError)
      ∧ invoked st = []
      ∧ logs (ctx st) = []
      ∧ outputs (ctx st) = ∅
      ∧ world st = wd
      ∧ execute_workflow' w wd = Raise GraphError
      ∧ run_workflow_api' w wd = HTTPException 400 graph_error_message.
Proof.
  intros Hdup. split.
  - destruct (topo_sort_spec w) as (indeg & res & Hres & Hinv & _ & Hlen & _).
    exists res. split_and!; [done| |done|].
    + destruct Hinv as [_ _ Hnd _ _]. by rewrite app_nil_r in Hnd.
    + pose proof (scheduler_keys_length w) as Hle.
      destruct (decide (length (scheduler_keys w) = length (nodes w))) as [Heq|];
        [|lia].
      by apply scheduler_keys_length_eq in Heq.
  - pose proof (topo_sort_duplicate w Hdup) as Hraise.
    destruct (execute_workflow_run_raise w wd _ Hraise) as [Hrun Hapi].
    exists (initial_state wd). unfold execute_workflow. rewrite Hrun.
    split_and!; done.
Qed.

(** C7. When the run reaches, in scheduled order, a node whose type has no
    registered runner, it stops there: the log ends with the "running" entry
    of that node, which is the only entry of the node; no runner is called
    for it and nothing is captured for it; [execute_workflow] raises, and
    the caller of [/run] gets the message and no result. *)
Theorem unsupported_node_aborts w wd order pre n post st1 :
  topo_sort w = Ok order →
  order = pre ++ n :: post →
  dict_get (type n) NODE_RUNNERS = None →
  run_nodes' (build_input_map w) pre (initial_state wd) = (st1, Ok ()) →
  ∃ st,
    execute_workflow_run' w wd = (st, Raise (UnsupportedNodeError (type n)))
    ∧ logs (ctx st) = logs (ctx st1) ++ [running_entry (S (2 * length pre)) n]
    ∧ filter (λ e, log_node e = id n) (logs (ctx st))
      = [running_entry (S (2 * length pre)) n]
    ∧ invoked st = id <$> pre
    ∧ (id n ∉ invoked st)
    ∧ outputs (ctx st) = outputs (ctx st1)
    ∧ outputs (ctx st) !! id n = None
    ∧ world st = world st1
    ∧ execute_workflow' w wd = Raise (UnsupportedNodeError (type n))
    ∧ run_workflow_api' w wd = HTTPException 400 ("Nodo no soportado: " +:+ type n).
Proof.
  intros Horder Hsplit Htype Hpre.
  destruct (order_ids_split w order pre n post Horder Hsplit) as [Hfresh _].
  pose proof (initial_state_run_nodes _ _ _ _ Hpre)
    as (Hstep & Hinv & _ & Hlogs & Houts).
  set (st := {| ctx := node_log (ctx st1) n "running" None;
                world := world st1; invoked := invoked st1 |}).
  assert (Hn : run_node' (build_input_map w) st1 n
               = (st, Raise (UnsupportedNodeError (type n)))).
  { unfold run_node. by rewrite Htype. }
  destruct (execute_workflow_run_stop w wd order pre n post st1 st _
              Horder Hsplit Hpre Hn) as (Hrun & Hres & Hapi).
  exists st. unfold st. simpl. rewrite Hstep.
  split_and!; try done.
  - rewrite filter_app, (filter_log_node_none _ _ _ Hlogs Hfresh).
    by rewrite filter_cons_True.
  - by rewrite Hinv.
  - by apply Houts.
Qed.

(** C8. When the runner of a scheduled node raises, the run stops there:
    the log ends with the "running" entry and then the "error" entry of that
    node, with the message; its outputs are not captured; no later node of
    the order is logged, called or captured; [execute_workflow] raises what
    the runner raised, and the caller of [/run] gets that one message and no
    result. *)
Theorem runner_failure_fail_fast w wd order pre n post st1 runner msg wd' :
  topo_sort w = Ok order →
  order = pre ++ n :: post →
  run_nodes' (build_input_map w) pre (initial_state wd) = (st1, Ok ()) →
  dict_get (type n) NODE_RUNNERS = Some runner →
  call_runner' runner n (build_input_map w)
    (node_log (ctx st1) n "running" None) (world st1) = (Raises msg, wd') →
  ∃ st,
    execute_workflow_run' w wd = (st, Raise (RunnerError msg))
    ∧ logs (ctx st) = logs (ctx st1)
                      ++ [running_entry (S (2 * length pre)) n;
                          error_entry (S (S (2 * length pre))) n msg]
    ∧ filter (λ e, log_node e = id n) (logs (ctx st))
      = [running_entry (S (2 * length pre)) n;
         error_entry (S (S (2 * length pre))) n msg]
    ∧ invoked st = (id <$> pre) ++ [id n]
    ∧ outputs (ctx st) = outputs (ctx st1)
    ∧ outputs (ctx st) !! id n = None
    ∧ (∀ n', n' ∈ post →
         (id n' ∉ invoked st)
         ∧ filter (λ e, log_node e = id n') (logs (ctx st)) = []
         ∧ outputs (ctx st) !! id n' = None)
    ∧ execute_workflow' w wd = Raise (RunnerError msg)
    ∧ run_workflow_api' w wd = HTTPException 400 msg.
Proof.
  intros Horder Hsplit Hpre Htype Hcall.
  destruct (order_ids_split w order pre n post Horder Hsplit) as [Hfresh Hpost].
  pose proof (initial_state_run_nodes _ _ _ _ Hpre)
    as (Hstep & Hinv & _ & Hlogs & Houts).
  set (st := {| ctx := node_log (node_log (ctx st1) n "running" None) n "error"
                         (Some (ExtraError msg));
                world := wd'; invoked := invoked st1 ++ [id n] |}).
  assert (Hn : run_node' (build_input_map w) st1 n = (st, Raise (RunnerError msg))).
  { unfold run_node. by rewrite Htype, Hcall. }
  destruct (execute_workflow_run_stop w wd order pre n post st1 st _
              Horder Hsplit Hpre Hn) as (Hrun & Hres & Hapi).
  exists st. unfold st. simpl. rewrite Hstep.
  split_and!; try done.
  - by rewrite <-(assoc_L (++)).
  - rewrite !filter_app, (filter_log_node_none _ _ _ Hlogs Hfresh).
    by rewrite !filter_cons_True.
  - by rewrite Hinv.
  - by apply Houts.
  - intros n' [Hpre' Hne]%Hpost. split_and!.
    + rewrite Hinv, elem_of_app, list_elem_of_singleton. naive_solver.
    + rewrite !filter_app, (filter_log_node_none _ _ _ Hlogs Hpre').
      by rewrite !filter_cons_False.
    + by apply Houts.
Qed.

End executor.

(** ** Runs of runners that are not functions *)

Section runs_deterministic.
Context {Any World : Type}.
Context (may_ctx : Runner → @Node Any → @ExecutionContext Any → World →
                   @RunnerResult Any * World → Prop).
Context (may_map : Runner → @Node Any → gmap string (gmap string Source) →
                   @ExecutionContext Any → World →
                   @RunnerResult Any * World → Prop).
Implicit Types (w : @Workflow Any) (n node : @Node Any) (ns : list (@Node Any)).
Implicit Types (st : @RunState Any World) (c : @ExecutionContext Any).
Implicit Types (im : gmap string (gmap string Source)) (wd : World).

Lemma may_call_deterministic runner node im c wd r1 r2 :
  deterministic_runners may_ctx may_map →
  may_call may_ctx may_map runner node im c wd r1 → may_call may_ctx may_map runner node im c wd r2 → r1 = r2.
Proof.
  intros [Hctx Hmap]. unfold may_call.
  repeat case_bool_decide; eauto.
Qed.

Lemma runs_node_deterministic im st node r1 r2 :
  deterministic_runners may_ctx may_map →
  runs_node may_ctx may_map im st node r1 → runs_node may_ctx may_map im st node r2 → r1 = r2.
Proof.
  intros Hdet H1 H2.
  destruct H1 as [Hnone|runner out wd Hsome Hcall|runner msg wd Hsome Hcall];
    destruct H2 as [Hnone'|runner' out' wd' Hsome' Hcall'|runner' msg' wd' Hsome' Hcall'];
    try congruence.
  - assert (runner' = runner) as -> by congruence.
    by injection (may_call_deterministic _ _ _ _ _ _ _ Hdet Hcall Hcall') as -> ->.
  - assert (runner' = runner) as -> by congruence.
    by pose proof (may_call_deterministic _ _ _ _ _ _ _ Hdet Hcall Hcall').
  - assert (runner' = runner) as -> by congruence.
    by pose proof (may_call_deterministic _ _ _ _ _ _ _ Hdet Hcall Hcall').
  - assert (runner' = runner) as -> by congruence.
    by injection (may_call_deterministic _ _ _ _ _ _ _ Hdet Hcall Hcall') as -> ->.
Qed.

Lemma runs_nodes_deterministic im ns st r1 r2 :
  deterministic_runners may_ctx may_map →
  runs_nodes may_ctx may_map im ns st r1 → runs_nodes may_ctx may_map im ns st r2 → r1 = r2.
Proof.
  intros Hdet H1. revert r2.
  induction H1 as [st|node rest st st1 r1 Hnode Hrest IH|node rest st st1 e Hnode];
    intros r2 H2; inversion H2 as [|? ? ? st2 ? Hnode' Hrest'|? ? ? st2 e' Hnode']; subst.
  - done.
  - pose proof (runs_node_deterministic _ _ _ _ _ Hdet Hnode Hnode') as [= ->].
    by apply IH.
  - by pose proof (runs_node_deterministic _ _ _ _ _ Hdet Hnode Hnode').
  - by pose proof (runs_node_deterministic _ _ _ _ _ Hdet Hnode Hnode').
  - by pose proof (runs_node_deterministic _ _ _ _ _ Hdet Hnode Hnode') as [= -> ->].
Qed.

End runs_deterministic.

(** The executor as a function is the run of runners that are functions. *)
Section runs_of_functions.
Context {Any World : Type}.
Context (WORKSPACE : string).
Context (call_ctx : Runner → @Node Any → @ExecutionContext Any → World →
                    @RunnerResult Any * World).
Context (call_map : Runner → @Node Any → gmap string (gmap string Source) →
                    @ExecutionContext Any → World → @RunnerResult Any * World).
Implicit Types (w : @Workflow Any) (n node : @Node Any) (ns : list (@Node Any)).
Implicit Types (st : @RunState Any World) (wd : World).
Implicit Types (im : gmap string (gmap string Source)).

Lemma graphs_deterministic :
  deterministic_runners (ctx_graph call_ctx) (map_graph call_map).
Proof. split; unfold ctx_graph, map_graph; congruence. Qed.

Lemma may_call_graph runner node im c wd :
  may_call (ctx_graph call_ctx) (map_graph call_map) runner node im c wd
    (call_runner call_ctx call_map runner node im c wd).
Proof.
  unfold may_call, call_runner, ctx_graph, map_graph.
  by repeat case_bool_decide.
Qed.

Lemma runs_node_function im st node :
  runs_node (ctx_graph call_ctx) (map_graph call_map) im st node
    (run_node call_ctx call_map im st node).
Proof.
  unfold run_node.
  destruct (dict_get (type node) NODE_RUNNERS) as [runner|] eqn:Hr;
    [|by constructor].
  pose proof (may_call_graph runner node im
                (node_log (ctx st) node "running" None) (world st)) as Hcall.
  destruct (call_runner _ _ _ _ _ _ _) as [[out|msg] wd'].
  - by eapply node_done.
  - by eapply node_error.
Qed.

Lemma runs_nodes_function im ns :
  ∀ st,
    runs_nodes (ctx_graph call_ctx) (map_graph call_map) im ns st
      (run_nodes call_ctx call_map im ns st).
Proof.
  induction ns as [|node rest IH]; intros st; [constructor|].
  cbn [run_nodes]. pose proof (runs_node_function im st node) as Hnode.
  destruct (run_node call_ctx call_map im st node) as [st' [[]|e]].
  - eapply runs_next; [exact Hnode|apply IH].
  - by eapply runs_stop.
Qed.

Lemma executes_function w wd :
  executes WORKSPACE (ctx_graph call_ctx) (map_graph call_map) w wd
    (execute_workflow_run WORKSPACE call_ctx call_map w wd).
Proof.
  unfold execute_workflow_run.
  destruct (topo_sort w) as [order|e] eqn:Horder; [|by constructor].
  pose proof (runs_nodes_function (build_input_map w) order (initial_state wd))
    as Hrun.
  destruct (run_nodes _ _ _ _ _) as [st [[]|e]].
  - by eapply executes_all.
  - by eapply executes_stopped.
Qed.

End runs_of_functions.

Section determinism.
Context {Any World : Type}.
Context (WORKSPACE : string).
Context (may_ctx : Runner → @Node Any → @ExecutionContext Any → World →
                   @RunnerResult Any * World → Prop).
Context (may_map : Runner → @Node Any → gmap string (gmap string Source) →
                   @ExecutionContext Any → World →
                   @RunnerResult Any * World → Prop).
Implicit Types (w : @Workflow Any) (st : @RunState Any World) (wd : World).

(** C9. With runners that behave the same whenever they are passed the
    same, two runs of [execute_workflow] on one graph from one world call
    the runners of the same nodes in the same order, write the same log
    entries with the same step numbers, capture the same outputs and end
    with the same result or the same exception. *)
Theorem execution_deterministic w wd st1 res1 st2 res2 :
  deterministic_runners may_ctx may_map →
  executes WORKSPACE may_ctx may_map w wd (st1, res1) →
  executes WORKSPACE may_ctx may_map w wd (st2, res2) →
  invoked st1 = invoked st2
  ∧ log_step <$> logs (ctx st1) = log_step <$> logs (ctx st2)
  ∧ logs (ctx st1) = logs (ctx st2)
  ∧ outputs (ctx st1) = outputs (ctx st2)
  ∧ world st1 = world st2
  ∧ res1 = res2.
Proof.
  intros Hdet H1 H2.
  assert (Heq : st1 = st2 ∧ res1 = res2).
  { inversion H1; inversion H2; subst; try congruence;
      try (split; congruence).
    all: match goal with
         | Ha : topo_sort _ = Ok ?o1, Hb : topo_sort _ = Ok ?o2 |- _ =>
             rewrite Ha in Hb; injection Hb as <-
         end.
    all: match goal with
         | Ha : runs_nodes _ _ _ _ _ _, Hb : runs_nodes _ _ _ _ _ _ |- _ =>
             pose proof (runs_nodes_deterministic _ _ _ _ _ _ _ Hdet Ha Hb)
         end.
    all: by simplify_eq. }
  destruct Heq as [-> ->]. done.
Qed.

End determinism.

(** * The properties on concrete graphs *)

Module Witnesses.
Import Examples.

Lemma topo_sort_linearization_witness :
  ∃ order,
    topo_sort pipeline = Ok order
    ∧ order ≡ₚ nodes pipeline
    ∧ ∀ l, l ∈ links pipeline → valid_link pipeline l →
        precedes (id <$> order) (from_node l) (to_node l).
Proof.
  apply (topo_sort_linearization pipeline).
  - apply (bool_decide_unpack _). by vm_compute.
  - apply (acyclic_by_rank pipeline rank).
    apply (bool_decide_unpack _). by vm_compute.
Defined.

Lemma two_cycle_has_cycle : has_cycle two_cycle.
Proof.
  exists "A". apply (tc_l _ _ "B"); [|apply tc_once]; unfold edge.
  - apply (bool_decide_unpack _). by vm_compute.
  - apply (bool_decide_unpack _). by vm_compute.
Defined.

Lemma graph_error_before_any_runner_witness :
  (∃ ordered,
     kahn_order two_cycle = Ok ordered ∧ length ordered < length (nodes two_cycle))
  ∧ ∃ st,
      execute_workflow_run "ws" text_call write_call two_cycle []
      = (st, Raise GraphError)
      ∧ invoked st = []
      ∧ logs (ctx st) = []
      ∧ outputs (ctx st) = ∅
      ∧ step (ctx st) = 0
      ∧ world st = []
      ∧ execute_workflow "ws" text_call write_call two_cycle [] = Raise GraphError
      ∧ run_workflow_api "ws" text_call write_call two_cycle []
        = HTTPException 400 graph_error_message.
Proof.
  apply (graph_error_before_any_runner "ws" text_call write_call two_cycle []).
  right. exact two_cycle_has_cycle.
Defined.



Lemma fan_in_last_declared_wins_witness :
  binding (build_input_map fan_in) "W" "text"
  = Some (source_of (link "U" "text" "W" "text"))
  ∧ resolve_input "W" "text" (build_input_map fan_in)
      {| outputs := {["T" := {["text" := "hello"]}; "U" := {["text" := "bye"]}]};
         logs := []; step := 4 |}
    = captured
        {| outputs := {["T" := {["text" := "hello"]}; "U" := {["text" := "bye"]}]};
           logs := []; step := 4 |}
        "U" "text".
Proof.
  apply (fan_in_last_declared_wins fan_in "W" "text" (link "U" "text" "W" "text")).
  reflexivity.
Defined.

Lemma dangling_link_asymmetry_witness :
  edges {| nodes := [T; W];
           links := [link "T" "text" "W" "text"] ++ from_nowhere :: [] |}
  = edges {| nodes := [T; W]; links := [link "T" "text" "W" "text"] ++ [] |}
  ∧ binding
      (build_input_map
         {| nodes := [T; W];
            links := [link "T" "text" "W" "text"] ++ from_nowhere :: [] |})
      "W" "text"
    = Some (source_of from_nowhere)
  ∧ resolve_input "W" "text"
      (build_input_map
         {| nodes := [T; W];
            links := [link "T" "text" "W" "text"] ++ from_nowhere :: [] |})
      after_T_context
    = None.
Proof.
  destruct (dangling_link_asymmetry [T; W] [link "T" "text" "W" "text"]
              from_nowhere [] after_T_context)
    as (Hedges & _ & _ & _ & _ & _ & Hbind).
  - apply (bool_decide_unpack _). by vm_compute.
  - destruct Hbind as [Hb Hr]; [constructor|].
    split_and!; [exact Hedges|exact Hb|]. etrans; [exact Hr|by vm_compute].
Defined.

Lemma unsupported_node_aborts_witness :
  ∃ st,
    execute_workflow_run "ws" text_call write_call with_bogus []
    = (st, Raise (UnsupportedNodeError (type B)))
    ∧ logs (ctx st) = logs (ctx after_T) ++ [running_entry (S (2 * length [T])) B]
    ∧ filter (λ e, log_node e = id B) (logs (ctx st))
      = [running_entry (S (2 * length [T])) B]
    ∧ invoked st = id <$> [T]
    ∧ (id B ∉ invoked st)
    ∧ outputs (ctx st) = outputs (ctx after_T)
    ∧ outputs (ctx st) !! id B = None
    ∧ world st = world after_T
    ∧ execute_workflow "ws" text_call write_call with_bogus []
      = Raise (UnsupportedNodeError (type B))
    ∧ run_workflow_api "ws" text_call write_call with_bogus []
      = HTTPException 400 ("Nodo no soportado: " +:+ type B).
Proof.
  apply (unsupported_node_aborts "ws" text_call write_call with_bogus []
           [T; B] [T] B [] after_T);
    by vm_compute.
Defined.

Lemma runner_failure_fail_fast_witness :
  ∃ st,
    execute_workflow_run "ws" text_call write_call failing_chain []
    = (st, Raise (RunnerError "WriteFile requiere data.path"))
    ∧ logs (ctx st)
      = logs (ctx after_T)
        ++ [running_entry (S (2 * length [T])) F;
            error_entry (S (S (2 * length [T]))) F "WriteFile requiere data.path"]
    ∧ filter (λ e, log_node e = id F) (logs (ctx st))
      = [running_entry (S (2 * length [T])) F;
         error_entry (S (S (2 * length [T]))) F "WriteFile requiere data.path"]
    ∧ invoked st = (id <$> [T]) ++ [id F]
    ∧ outputs (ctx st) = outputs (ctx after_T)
    ∧ outputs (ctx st) !! id F = None
    ∧ (∀ n', n' ∈ [Z] →
         (id n' ∉ invoked st)
         ∧ filter (λ e, log_node e = id n') (logs (ctx st)) = []
         ∧ outputs (ctx st) !! id n' = None)
    ∧ execute_workflow "ws" text_call write_call failing_chain []
      = Raise (RunnerError "WriteFile requiere data.path")
    ∧ run_workflow_api "ws" text_call write_call failing_chain []
      = HTTPException 400 "WriteFile requiere data.path".
Proof.
  apply (runner_failure_fail_fast "ws" text_call write_call failing_chain []
           [T; F; Z] [T] F [Z] after_T
           run_node_writefile "WriteFile requiere data.path" []);
    by vm_compute.
Defined.

Lemma execution_deterministic_witness :
  invoked pipeline_run.1 = invoked pipeline_run.1
  ∧ log_step <$> logs (ctx pipeline_run.1) = log_step <$> logs (ctx pipeline_run.1)
  ∧ logs (ctx pipeline_run.1) = logs (ctx pipeline_run.1)
  ∧ outputs (ctx pipeline_run.1) = outputs (ctx pipeline_run.1)
  ∧ world pipeline_run.1 = world pipeline_run.1
  ∧ pipeline_run.2 = pipeline_run.2.
Proof.
  apply (execution_deterministic "ws"
           (ctx_graph text_call) (map_graph write_call) pipeline []
           pipeline_run.1 pipeline_run.2 pipeline_run.1 pipeline_run.2).
  - apply graphs_deterministic.
  - rewrite <-surjective_pairing. apply executes_function.
  - rewrite <-surjective_pairing. apply executes_function.
Defined.

Lemma duplicate_ids_graph_error_witness :
  (∃ ordered,
     kahn_order twice = Ok ordered
     ∧ NoDup ordered
     ∧ length ordered ≤ length (scheduler_keys twice)
     ∧ length (scheduler_keys twice) < length (nodes twice))
  ∧ ∃ st,
      execute_workflow_run "ws" text_call write_call twice [] = (st, Raise GraphError)
      ∧ invoked st = []
      ∧ logs (ctx st) = []
      ∧ outputs (ctx st) = ∅
      ∧ world st = []
      ∧ execute_workflow "ws" text_call write_call twice [] = Raise GraphError
      ∧ run_workflow_api "ws" text_call write_call twice []
        = HTTPException 400 graph_error_message.
Proof.
  apply (duplicate_ids_graph_error "ws" text_call write_call twice []).
  apply (bool_decide_unpack _). by vm_compute.
Defined.

(** The pipeline runs to its end: [W] writes what [T] produced. *)
Example pipeline_runs :
  ∃ st res,
    execute_workflow_run "ws" text_call write_call pipeline [] = (st, Ok res)
    ∧ invoked st = ["T"; "W"]
    ∧ log_step <$> logs (ctx st) = [1; 2; 3; 4]
    ∧ log_status <$> logs (ctx st) = ["running"; "done"; "running"; "done"]
    ∧ captured (ctx st) "W" "path" = Some "out.txt"
    ∧ world st = [("out.txt", "hello")].
Proof. eexists _, _. split_and!; by vm_compute. Qed.

End Witnesses.

(** * Further properties of the engine *)

(** ** The log and the outputs of a run *)

Section run_shape.
Context {Any World : Type}.
Context (WORKSPACE : string).
Context (call_ctx : Runner → @Node Any → @ExecutionContext Any → World →
                    @RunnerResult Any * World).
Context (call_map : Runner → @Node Any → gmap string (gmap string Source) →
                    @ExecutionContext Any → World → @RunnerResult Any * World).
Implicit Types (w : @Workflow Any) (n : @Node Any) (ns pre post : list (@Node Any)).
Implicit Types (st : @RunState Any World) (c : @ExecutionContext Any).
Implicit Types (im : gmap string (gmap string Source)) (wd : World).
Implicit Types (done : list (@Node Any * gmap string Any)).

Local Abbreviation run_node' := (run_node call_ctx call_map).
Local Abbreviation run_nodes' := (run_nodes call_ctx call_map).
Local Abbreviation call_runner' := (call_runner call_ctx call_map).
Local Abbreviation execute_workflow_run' :=
  (execute_workflow_run WORKSPACE call_ctx call_map).
Local Abbreviation execute_workflow' := (execute_workflow WORKSPACE call_ctx call_map).
Local Abbreviation run_workflow_api' := (run_workflow_api WORKSPACE call_ctx call_map).

Lemma node_log_numbered c n status extra :
  numbered c → numbered (node_log c n status extra).
Proof.
  intros [Hsteps Hstep]. unfold numbered, node_log. simpl.
  rewrite fmap_app, length_app, Hsteps, Hstep. simpl.
  split; [|lia]. rewrite Nat.add_1_r, seq_S. done.
Qed.

Lemma run_node_numbered im st n :
  numbered (ctx st) → numbered (ctx (run_node' im st n).1).
Proof.
  intros Hnum. unfold run_node.
  destruct (dict_get (type n) NODE_RUNNERS) as [runner|];
    [|by apply node_log_numbered].
  destruct (call_runner' _ _ _ _ _) as [[out|msg] wd']; simpl.
  - apply node_log_numbered. by apply (node_log_numbered _ n "running" None) in Hnum.
  - by do 2 apply node_log_numbered.
Qed.

Lemma run_nodes_numbered im ns :
  ∀ st, numbered (ctx st) → numbered (ctx (run_nodes' im ns st).1).
Proof.
  induction ns as [|n ns IH]; intros st Hnum; [done|].
  cbn [run_nodes]. pose proof (run_node_numbered im st n Hnum) as Hn.
  destruct (run_node' im st n) as [st' [[]|e]]; [by apply IH|done].
Qed.

Lemma execute_workflow_run_numbered w wd :
  numbered (ctx (execute_workflow_run' w wd).1).
Proof.
  unfold execute_workflow_run.
  destruct (topo_sort w) as [order|e]; [|done].
  pose proof (run_nodes_numbered (build_input_map w) order (initial_state wd))
    as Hnum.
  destruct (run_nodes' _ _ _) as [st [[]|e]]; by apply Hnum.
Qed.

(** Nodes that all run to their end, entry by entry. *)
Lemma run_nodes_Ok_done im ns :
  ∀ st st',
    run_nodes' im ns st = (st', Ok ()) →
    ∃ outs,
      length outs = length ns
      ∧ logs (ctx st') = logs (ctx st) ++ done_logs (step (ctx st)) (zip ns outs)
      ∧ outputs (ctx st') = capture_all (zip ns outs) (outputs (ctx st)).
Proof.
  induction ns as [|n ns IH]; intros st st'.
  - intros [= <-]. exists []. by rewrite app_nil_r.
  - cbn [run_nodes].
    destruct (run_node' im st n) as [st1 [[]|e]] eqn:Hn; [|done].
    apply run_node_Ok in Hn as (out & Hlogs & Hstep & Houts & _).
    intros (outs & Hlen & IHlogs & IHouts)%IH.
    exists (out :: outs). split_and!.
    + simpl. by rewrite Hlen.
    + rewrite IHlogs, Hlogs, Hstep, <-(assoc_L (++)). done.
    + rewrite IHouts, Houts. done.
Qed.

Lemma done_logs_length s done : length (done_logs s done) = 2 * length done.
Proof.
  revert s. induction done as [|[n out] done IH]; intros s; [done|].
  simpl. rewrite IH. lia.
Qed.

Lemma done_logs_lookup done :
  ∀ s i n out,
    done !! i = Some (n, out) →
    done_logs s done !! (2 * i) = Some (running_entry (s + 2 * i + 1) n)
    ∧ done_logs s done !! (2 * i + 1) = Some (done_entry (s + 2 * i + 2) n out).
Proof.
  induction done as [|[n0 out0] done IH]; intros s i n out; [done|].
  destruct i as [|i].
  - intros [= -> ->]. cbn. split; do 2 f_equal; lia.
  - intros Hi. destruct (IH (S (S s)) i n out Hi) as [H1 H2].
    replace (2 * S i) with (S (S (2 * i))) by lia.
    replace (S (S (2 * i)) + 1) with (S (S (2 * i + 1))) by lia.
    remember (2 * i) as j eqn:Hj. remember (j + 1) as j' eqn:Hj'.
    cbn [done_logs]. simpl. rewrite H1, H2. split; do 2 f_equal; lia.
Qed.

Lemma capture_all_notin done :
  ∀ o k, k ∉ (id ∘ fst) <$> done → capture_all done o !! k = o !! k.
Proof.
  unfold capture_all.
  induction done as [|[n out] done IH]; intros o k Hk; [done|].
  rewrite fmap_cons in Hk. apply not_elem_of_cons in Hk as [Hne Hk].
  simpl. rewrite IH by done. by rewrite lookup_insert_ne.
Qed.

Lemma capture_all_lookup done :
  ∀ o i n out,
    NoDup ((id ∘ fst) <$> done) →
    done !! i = Some (n, out) →
    capture_all done o !! id n = Some out.
Proof.
  induction done as [|[n0 out0] done IH]; intros o i n out Hnd Hi; [done|].
  rewrite fmap_cons in Hnd. apply NoDup_cons in Hnd as [Hn0 Hnd].
  destruct i as [|i]; simpl in Hi.
  - injection Hi as -> ->. unfold capture_all. simpl.
    fold (capture_all done (<[id n := out]> o)).
    rewrite capture_all_notin by done. by rewrite lookup_insert_eq.
  - unfold capture_all. simpl.
    fold (capture_all done (<[id n0 := out0]> o)). by eapply IH.
Qed.

Lemma capture_all_elem done :
  ∀ o k, k ∈ (id ∘ fst) <$> done → is_Some (capture_all done o !! k).
Proof.
  unfold capture_all.
  induction done as [|[n out] done IH]; intros o k Hk;
    [by apply elem_of_nil in Hk|].
  simpl. destruct (decide (k ∈ (id ∘ fst) <$> done)) as [Hin|Hin];
    [by apply IH|].
  fold (capture_all done (<[id n := out]> o)).
  rewrite capture_all_notin by done.
  rewrite fmap_cons in Hk. apply elem_of_cons in Hk as [->|?]; [|done].
  simpl. rewrite lookup_insert_eq. eauto.
Qed.

Lemma zip_ids ns (outs : list (gmap string Any)) :
  length outs = length ns → (id ∘ fst) <$> zip ns outs = id <$> ns.
Proof.
  intros Hlen. rewrite list_fmap_compose, fst_zip; [done|lia].
Qed.

(** What stops a node. *)
Lemma run_node_Raise im st n st' e :
  run_node' im st n = (st', Raise e) →
  (dict_get (type n) NODE_RUNNERS = None ∧ e = UnsupportedNodeError (type n))
  ∨ ∃ runner msg wd',
      dict_get (type n) NODE_RUNNERS = Some runner
      ∧ call_runner' runner n im (node_log (ctx st) n "running" None) (world st)
        = (Raises msg, wd')
      ∧ e = RunnerError msg.
Proof.
  unfold run_node.
  destruct (dict_get (type n) NODE_RUNNERS) as [runner|] eqn:Hr.
  - destruct (call_runner' _ _ _ _ _) as [[out|msg] wd'] eqn:Hcall; [done|].
    intros [= <- <-]. right. by exists runner, msg, wd'.
  - intros [= <- <-]. by left.
Qed.

Lemma run_node_Ok_registered im st n st' :
  run_node' im st n = (st', Ok ()) → is_Some (dict_get (type n) NODE_RUNNERS).
Proof.
  unfold run_node. destruct (dict_get (type n) NODE_RUNNERS); [eauto|done].
Qed.

Lemma run_nodes_Ok_registered im ns :
  ∀ st st',
    run_nodes' im ns st = (st', Ok ()) →
    Forall (λ n, is_Some (dict_get (type n) NODE_RUNNERS)) ns.
Proof.
  induction ns as [|n ns IH]; intros st st'; [constructor|].
  cbn [run_nodes].
  destruct (run_node' im st n) as [st1 [[]|e]] eqn:Hn; [|done].
  intros Hrest. constructor; [by eapply run_node_Ok_registered|by eapply IH].
Qed.

(** Nodes that do not all run to their end stop at one of them. *)
Lemma run_nodes_Raise im ns :
  ∀ st st' e,
    run_nodes' im ns st = (st', Raise e) →
    ∃ pre n post st1,
      ns = pre ++ n :: post
      ∧ run_nodes' im pre st = (st1, Ok ())
      ∧ run_node' im st1 n = (st', Raise e).
Proof.
  induction ns as [|n ns IH]; intros st st' e; [done|].
  cbn [run_nodes].
  destruct (run_node' im st n) as [st1 [[]|e1]] eqn:Hn.
  - intros (pre & n' & post & st2 & -> & Hpre & Hn')%IH.
    exists (n :: pre), n', post, st2. split_and!; [done| |done].
    cbn [run_nodes]. by rewrite Hn.
  - intros [= <- <-]. by exists [], n, ns, st.
Qed.

Lemma topo_sort_Raise w e : topo_sort w = Raise e → e = GraphError.
Proof.
  destruct (topo_sort_spec w)
    as (indeg & res & _ & _ & _ & _ & [[_ ->]|(_ & order & -> & _)]);
    congruence.
Qed.

Lemma topo_sort_Ok_perm w order : topo_sort w = Ok order → order ≡ₚ nodes w.
Proof.
  intros (_ & Hnd & Hndw & Hlen & Hin)%topo_sort_Ok.
  apply submseteq_length_Permutation; [|lia].
  apply NoDup_submseteq; [|done]. by apply (NoDup_fmap_1 id).
Qed.

(** In the order [topo_sort] returns, the source of a valid link stands
    before its target. *)
Lemma topo_sort_Ok_precedes w order l :
  topo_sort w = Ok order → l ∈ links w → valid_link w l →
  precedes (id <$> order) (from_node l) (to_node l).
Proof.
  intros Hok Hl Hv.
  destruct (topo_sort_spec w)
    as (indeg & res & _ & Hinv & _ & Hlen & [[_ Hraise]|(Hfull & o & Ho & Hids & _)]).
  { by rewrite Hraise in Hok. }
  rewrite Ho in Hok. injection Hok as ->. rewrite Hids.
  pose proof (scheduler_keys_length w) as HlenK.
  assert (Hall : ∀ k, k ∈ scheduler_keys w → k ∈ res).
  { apply (kahn_inv_full _ _ _ _ (scheduler_keys_NoDup w) Hinv). lia. }
  apply (kahn_inv_tc _ _ _ _ Hinv Hall).
  - intros a b Hab. by apply edges_valid in Hab as [_ ?].
  - apply tc_once, elem_of_edges. by exists l.
Qed.

(** X1. In the state any run of [execute_workflow] ends in, after a success
    or after any failure, the steps of the log entries are 1, 2, 3, ... in
    the order of the log, and the counter is the number of entries: the
    counter is shared by all the nodes.  The log of a returned bundle has
    two entries for each node. *)
Theorem log_steps_consecutive w wd :
  numbered (ctx (execute_workflow_run' w wd).1)
  ∧ ∀ res, execute_workflow' w wd = Ok res →
      log_step <$> bundle_logs res = seq 1 (2 * length (nodes w)).
Proof.
  destruct (execute_workflow_run_numbered w wd) as [Hsteps Hstep].
  split; [done|].
  intros res. unfold execute_workflow. revert Hsteps.
  unfold execute_workflow_run.
  destruct (topo_sort w) as [order|e] eqn:Horder; [|done].
  destruct (run_nodes' _ _ _) as [st [[]|e]] eqn:Hrun; [|done].
  simpl. intros Hsteps [= <-]. simpl. rewrite Hsteps. f_equal.
  apply initial_state_run_nodes in Hrun as (_ & _ & -> & _).
  apply topo_sort_Ok in Horder as (_ & _ & _ & -> & _). done.
Qed.

(** X2. A run of [execute_workflow] that raises either raised in
    [topo_sort], with the graph error and in the state the run started in,
    or stopped at exactly one node of the order, every node before it having
    run to its end: that node has no registered runner, or its runner
    raised.  The run raises nothing else (no [KeyError]). *)
Theorem failed_run_stops_at_one_node w wd st e :
  execute_workflow_run' w wd = (st, Raise e) →
  (topo_sort w = Raise GraphError ∧ e = GraphError ∧ st = initial_state wd)
  ∨ ∃ order pre n post st1,
      topo_sort w = Ok order
      ∧ order = pre ++ n :: post
      ∧ run_nodes' (build_input_map w) pre (initial_state wd) = (st1, Ok ())
      ∧ run_node' (build_input_map w) st1 n = (st, Raise e)
      ∧ ((dict_get (type n) NODE_RUNNERS = None
          ∧ e = UnsupportedNodeError (type n))
         ∨ ∃ runner msg wd',
             dict_get (type n) NODE_RUNNERS = Some runner
             ∧ call_runner' runner n (build_input_map w)
                 (node_log (ctx st1) n "running" None) (world st1)
               = (Raises msg, wd')
             ∧ e = RunnerError msg).
Proof.
  unfold execute_workflow_run.
  destruct (topo_sort w) as [order|e0] eqn:Horder.
  - destruct (run_nodes' _ _ _) as [st' [[]|e']] eqn:Hrun; [done|].
    intros [= -> ->]. right.
    apply run_nodes_Raise in Hrun as (pre & n & post & st1 & -> & Hpre & Hn).
    exists (pre ++ n :: post), pre, n, post, st1.
    split_and!; [done..|]. by eapply run_node_Raise.
  - intros [= <- <-]. left. pose proof (topo_sort_Raise w e0 Horder) as ->.
    done.
Qed.

(** X3. A run of [execute_workflow] that returns a bundle has run every
    declared node once, in the order of [topo_sort]: the node at position
    [i] of the order has its "running" entry at index [2 i] of the log and
    its "done" entry next, with steps [2 i + 1] and [2 i + 2]; the outputs
    of the "done" entry are the outputs captured for the node; nothing is
    captured for an id that is not declared; every declared type is
    registered; and the bundle holds these outputs and this log. *)
Theorem completed_run_shape w wd st res :
  execute_workflow_run' w wd = (st, Ok res) →
  ∃ order,
    topo_sort w = Ok order
    ∧ order ≡ₚ nodes w
    ∧ invoked st = id <$> order
    ∧ length (logs (ctx st)) = 2 * length (nodes w)
    ∧ (∀ i n, order !! i = Some n →
         ∃ out,
           outputs (ctx st) !! id n = Some out
           ∧ logs (ctx st) !! (2 * i) = Some (running_entry (2 * i + 1) n)
           ∧ logs (ctx st) !! (2 * i + 1) = Some (done_entry (2 * i + 2) n out))
    ∧ (∀ k, k ∉ declared_ids w → outputs (ctx st) !! k = None)
    ∧ Forall (λ n, is_Some (dict_get (type n) NODE_RUNNERS)) (nodes w)
    ∧ ok res = true
    ∧ workspace res = WORKSPACE
    ∧ bundle_outputs res = outputs (ctx st)
    ∧ bundle_logs res = logs (ctx st).
Proof.
  unfold execute_workflow_run.
  destruct (topo_sort w) as [order|e0] eqn:Horder; [|done].
  destruct (run_nodes' _ _ _) as [st' [[]|e']] eqn:Hrun; [|done].
  intros [= -> <-]. exists order.
  pose proof (topo_sort_Ok_perm w order Horder) as Hperm.
  pose proof (topo_sort_Ok w order Horder) as (_ & Hnd & _ & Hlen & Hin).
  pose proof (initial_state_run_nodes _ _ _ _ _ _ Hrun)
    as (_ & Hinv & Hloglen & _ & Hnone).
  pose proof (run_nodes_Ok_registered _ _ _ _ Hrun) as Hreg.
  apply run_nodes_Ok_done in Hrun as (outs & Houts & Hlogs & Hcap).
  simpl in Hlogs, Hcap.
  split_and!; try done.
  - by rewrite Hloglen, Hlen.
  - intros i n Hi.
    destruct (lookup_lt_is_Some_2 outs i) as [out Hout].
    { rewrite Houts. by eapply lookup_lt_Some. }
    assert (Hzip : zip order outs !! i = Some (n, out)).
    { apply lookup_zip_with_Some. by exists n, out. }
    exists out. rewrite Hlogs, Hcap.
    destruct (done_logs_lookup _ 0 i n out Hzip) as [H1 H2].
    split_and!; [|done..].
    eapply capture_all_lookup; [|done]. by rewrite zip_ids.
  - intros k Hk. apply Hnone. intros Hin'. apply Hk.
    unfold declared_ids. by rewrite <-Hperm.
  - by rewrite <-Hperm.
Qed.

(** X4. When a node is reached, every valid link that binds one of its
    input ports has a source that has already run to its end: the runner of
    the source has been called, its outputs are captured, and
    [resolve_input] on that port reads them. *)
Theorem producers_run_first w wd order pre n post st1 port l :
  topo_sort w = Ok order →
  order = pre ++ n :: post →
  run_nodes' (build_input_map w) pre (initial_state wd) = (st1, Ok ()) →
  last (filter (targets (id n) port) (links w)) = Some l →
  valid_link w l →
  from_node l ∈ invoked st1
  ∧ ∃ out,
      outputs (ctx st1) !! from_node l = Some out
      ∧ resolve_input (id n) port (build_input_map w)
          (node_log (ctx st1) n "running" None)
        = out !! from_port l.
Proof.
  intros Horder Hsplit Hpre Hlast Hv.
  assert (Hl : l ∈ filter (targets (id n) port) (links w))
    by by apply last_Some_elem_of.
  apply list_elem_of_filter in Hl as [[Hto Hport] Hl].
  pose proof (topo_sort_Ok_precedes w order l Horder Hl Hv)
    as (i & j & Hij & Hi & Hj).
  pose proof (topo_sort_Ok w order Horder) as (_ & Hnd & _).
  assert (Hfrom : from_node l ∈ id <$> pre).
  { subst order. rewrite fmap_app, fmap_cons in Hnd, Hi, Hj.
    assert (j = length (id <$> pre)) as ->.
    { eapply NoDup_lookup; [exact Hnd|exact Hj|].
      rewrite Hto. apply list_lookup_middle. done. }
    rewrite lookup_app_l in Hi by done.
    by eapply list_elem_of_lookup_2. }
  pose proof (initial_state_run_nodes _ _ _ _ _ _ Hpre) as (_ & Hinv & _).
  apply run_nodes_Ok_done in Hpre as (outs & Houts & _ & Hcap).
  simpl in Hcap.
  destruct (capture_all_elem (zip pre outs) ∅ (from_node l)) as [out Hout].
  { by rewrite zip_ids. }
  split; [by rewrite Hinv|]. exists out. rewrite Hcap. split; [done|].
  rewrite resolve_input_unfold, binding_build_input_map, Hlast. simpl.
  unfold captured. simpl. by rewrite Hcap, Hout.
Qed.

End run_shape.

(** ** More on the scheduler and the dependency map *)

Section scheduler_more.
Context {Any : Type}.
Implicit Types (w : @Workflow Any) (l : PortLink) (k : string).
Implicit Types (order : list (@Node Any)) (n : @Node Any).
Implicit Types (m : gmap string (gmap string Source)).

Lemma filter_all {A} (P : A → Prop) `{!∀ x, Decision (P x)} (xs : list A) :
  Forall P xs → filter P xs = xs.
Proof.
  induction 1 as [|x xs Hx _ IH]; [done|].
  by rewrite filter_cons_True, IH.
Qed.

Lemma topo_sort_Ok_acyclic w order : topo_sort w = Ok order → acyclic w.
Proof.
  intros Hok x Hx.
  destruct (kahn_order_cycle w) as (ordered & Hord & Hlen); [by exists x|].
  by rewrite (topo_sort_short w ordered Hord Hlen) in Hok.
Qed.

Lemma fmap_unique_eq {A B} (f : A → B) (xs ys : list A) :
  NoDup (f <$> xs) → f <$> ys = f <$> xs → (∀ y, y ∈ ys → y ∈ xs) → ys = xs.
Proof.
  intros Hnd Heq Hin. apply list_eq. intros i.
  pose proof (f_equal (λ zs, zs !! i) Heq) as Hi. simpl in Hi.
  rewrite !list_lookup_fmap in Hi.
  destruct (ys !! i) as [y|] eqn:Hy, (xs !! i) as [x|] eqn:Hx; try done.
  simpl in Hi. injection Hi as Hi. f_equal.
  apply (elem_of_fmap_unique f xs y x Hnd); [|by eapply list_elem_of_lookup_2|done].
  apply Hin. by eapply list_elem_of_lookup_2.
Qed.

(** X5. [topo_sort] returns an order exactly when the declared ids are
    unique and the valid edges form no cycle; when it raises, it raises its
    [ValueError] (never a [KeyError]), and the graph has a repeated id or a
    cycle. *)
Theorem topo_sort_outcome w :
  ((∃ order, topo_sort w = Ok order) ↔ NoDup (declared_ids w) ∧ acyclic w)
  ∧ (∀ e, topo_sort w = Raise e →
       e = GraphError ∧ ¬ (NoDup (declared_ids w) ∧ acyclic w)).
Proof.
  assert (Hiff : (∃ order, topo_sort w = Ok order)
                 ↔ NoDup (declared_ids w) ∧ acyclic w).
  { split.
    - intros [order Hok]. split; [|by eapply topo_sort_Ok_acyclic].
      by apply topo_sort_Ok in Hok as (_ & _ & ? & _).
    - intros [Hnd Hacyc].
      destruct (topo_sort_spec w)
        as (indeg & res & _ & Hinv & _ & Hlen & [[Hlt _]|(_ & order & Ho & _)]);
        [|by exists order].
      pose proof (kahn_inv_acyclic w indeg res Hacyc Hinv) as Hall.
      assert (HlenK : length (scheduler_keys w) ≤ length res).
      { apply submseteq_length, NoDup_submseteq;
          [apply scheduler_keys_NoDup|done]. }
      rewrite (scheduler_keys_unique w Hnd) in HlenK.
      unfold declared_ids in HlenK. rewrite length_fmap in HlenK. lia. }
  split; [done|]. intros e He. split.
  - destruct (topo_sort_spec w)
      as (indeg & res & _ & _ & _ & _ & [[_ Hr]|(_ & order & Ho & _)]);
      congruence.
  - intros [order Ho]%Hiff. congruence.
Qed.

(** X6. With unique ids and no valid link (no link at all, or only links
    with an undeclared endpoint), [topo_sort] returns the nodes in their
    declaration order. *)
Theorem topo_sort_without_valid_links w :
  NoDup (declared_ids w) →
  Forall (λ l, ¬ valid_link w l) (links w) →
  topo_sort w = Ok (nodes w).
Proof.
  intros Hnd Hnone.
  assert (Hedges : edges w = []).
  { unfold edges. by rewrite (filter_none (valid_link w)). }
  destruct (topo_sort_spec w)
    as (indeg & res & _ & Hinv & Hpre & Hlen & Hcases).
  assert (Hseeds : filter (λ k, in_degree w k = 0) (scheduler_keys w)
                   = scheduler_keys w).
  { apply (filter_all (λ k, in_degree w k = 0)). apply Forall_forall.
    intros k _. unfold in_degree. by rewrite Hedges. }
  rewrite Hseeds in Hpre.
  assert (Hres : res = scheduler_keys w).
  { destruct Hpre as [rest ->]. rewrite length_app in Hlen.
    destruct rest; [by rewrite app_nil_r|simpl in Hlen; lia]. }
  rewrite (scheduler_keys_unique w Hnd) in Hres.
  destruct Hcases as [[Hlt _]|(_ & order & Ho & Hids & Hin)].
  { rewrite Hres in Hlt. unfold declared_ids in Hlt.
    rewrite length_fmap in Hlt. lia. }
  rewrite Ho. f_equal. apply (fmap_unique_eq id); [done| |done].
  by rewrite Hids, Hres.
Qed.

Lemma bind_link_key m l k :
  is_Some (bind_link m l !! k) ↔ is_Some (m !! k) ∨ to_node l = k.
Proof.
  unfold bind_link, setdefault.
  destruct (decide (to_node l = k)) as [<-|Hne].
  - rewrite lookup_insert_eq. naive_solver.
  - rewrite lookup_insert_ne by done.
    destruct (m !! to_node l); [naive_solver|].
    rewrite lookup_insert_ne by done. naive_solver.
Qed.

Lemma foldl_bind_link_key (ls : list PortLink) m k :
  is_Some (foldl bind_link m ls !! k)
  ↔ is_Some (m !! k) ∨ ∃ l, l ∈ ls ∧ to_node l = k.
Proof.
  revert m. induction ls as [|l ls IH]; intros m; simpl.
  - split; [by left|]. intros [?|(l & Hl%elem_of_nil & _)]; done.
  - rewrite IH, bind_link_key. split.
    + intros [[?|Hk]|(l' & Hl' & Hk)]; [by left|right..].
      * exists l. split; [left|done].
      * exists l'. split; [by right|done].
    + intros [?|(l' & [->|Hl']%elem_of_cons & Hk)]; [by left; left|by left; right|].
      right. by exists l'.
Qed.

(** Two dependency maps with the same target nodes and the same bindings
    are one map. *)
Lemma input_map_eq m1 m2 :
  (∀ k, is_Some (m1 !! k) ↔ is_Some (m2 !! k)) →
  (∀ k port, binding m1 k port = binding m2 k port) →
  m1 = m2.
Proof.
  intros Hkeys Hbind. apply map_eq. intros k.
  specialize (Hkeys k).
  destruct (m1 !! k) as [a|] eqn:H1, (m2 !! k) as [b|] eqn:H2.
  - f_equal. apply map_eq. intros port.
    specialize (Hbind k port). unfold binding in Hbind.
    by rewrite H1, H2 in Hbind.
  - destruct Hkeys as [Hk _]. by destruct Hk.
  - destruct Hkeys as [_ Hk]. by destruct Hk.
  - done.
Qed.

(** X7. A link that a later link to the same input port overrides leaves no
    trace in the dependency map: the map is the one built without it. *)
Theorem overridden_link_leaves_no_trace (ns : list (@Node Any)) pre l post l' :
  l' ∈ post →
  targets (to_node l) (to_port l) l' →
  build_input_map {| nodes := ns; links := pre ++ l :: post |}
  = build_input_map {| nodes := ns; links := pre ++ post |}.
Proof.
  intros Hl' [Hn Hp]. unfold build_input_map. simpl.
  apply input_map_eq.
  - intros k. rewrite !foldl_bind_link_key. split.
    + intros [?|(l0 & Hl0 & Hk)]; [by left|right].
      apply elem_of_app in Hl0 as [?|[->|?]%elem_of_cons].
      * exists l0. split; [apply elem_of_app; by left|done].
      * exists l'. split; [apply elem_of_app; by right|congruence].
      * exists l0. split; [apply elem_of_app; by right|done].
    + intros [?|(l0 & Hl0 & Hk)]; [by left|right].
      exists l0. split; [|done].
      apply elem_of_app in Hl0 as [?|?]; apply elem_of_app; [by left|].
      right. by right.
  - intros k port. rewrite !binding_foldl, !filter_app, filter_cons.
    case_decide as Ht; [|done].
    destruct Ht as [<- <-].
    apply list_elem_of_split in Hl' as (p1 & p2 & ->).
    rewrite !filter_app, !(filter_cons _ l'), !decide_True by done.
    rewrite !app_comm_cons, !(assoc_L (++)).
    by rewrite !last_app_cons.
Qed.

End scheduler_more.

(** * The paths of the workspace *)

(** ** Strings *)

Lemma append_cons c (s t : string) : String c s +:+ t = String c (s +:+ t).
Proof. done. Qed.

Lemma append_nil_l (s : string) : "" +:+ s = s.
Proof. done. Qed.

Lemma append_assoc (s t u : string) : (s +:+ t) +:+ u = s +:+ (t +:+ u).
Proof.
  induction s as [|c s IH]; [done|]. by rewrite !append_cons, IH.
Qed.

Lemma append_nil_r (s : string) : s +:+ "" = s.
Proof. induction s as [|c s IH]; [done|]. by rewrite append_cons, IH. Qed.

Lemma py_len_append (s t : string) : py_len (s +:+ t) = py_len s + py_len t.
Proof.
  induction s as [|c s IH]; [done|]. rewrite append_cons. simpl.
  rewrite IH. lia.
Qed.

Lemma py_len_take_chars (s : string) : ∀ n, py_len (take_chars n s) ≤ n.
Proof.
  induction s as [|c s IH]; intros n; simpl; [lia|].
  destruct (continuation c) eqn:Hc; simpl.
  - rewrite Hc. apply IH.
  - destruct n as [|n]; simpl; [lia|]. rewrite Hc. specialize (IH n). lia.
Qed.

Lemma prefix_cons x y (s t : string) :
  String.prefix (String x s) (String y t)
  = if Ascii.ascii_dec x y then String.prefix s t else false.
Proof. done. Qed.

Lemma prefix_refl (s : string) : String.prefix s s = true.
Proof.
  induction s as [|c s IH]; simpl; [done|].
  by destruct (Ascii.ascii_dec c c).
Qed.

Lemma prefix_append (s t u : string) :
  String.prefix (s +:+ t) (s +:+ u) = String.prefix t u.
Proof.
  induction s as [|c s IH]; [done|]. rewrite !append_cons. simpl.
  by destruct (Ascii.ascii_dec c c).
Qed.

Lemma prefix_append_r (s t : string) : String.prefix s (s +:+ t) = true.
Proof.
  rewrite <-(append_nil_r s) at 1. rewrite prefix_append. by destruct t.
Qed.

Lemma prefix_nil_r (s : string) : String.prefix s "" = true → s = "".
Proof. by destruct s. Qed.

Lemma append_eq_self (s t : string) : s +:+ t = s → t = "".
Proof.
  intros Heq. apply (String.app_inj s). by rewrite append_nil_r.
Qed.

Lemma occurs_head ch (s : string) : occurs ch (String ch s) = true.
Proof.
  change (bool_decide (ch = ch) || occurs ch s = true).
  by rewrite bool_decide_eq_true_2.
Qed.

Lemma occurs_append ch (s t : string) :
  occurs ch (s +:+ t) = occurs ch s || occurs ch t.
Proof.
  induction s as [|c s IH]; [done|]. rewrite append_cons. simpl.
  rewrite IH. by rewrite orb_assoc.
Qed.

(** ** Components *)

Lemma slashed_app (p q : list string) : slashed (p ++ q) = slashed p +:+ slashed q.
Proof.
  induction p as [|c p IH]; simpl; [done|].
  by rewrite IH, !append_assoc.
Qed.

(** A string of components is empty or begins with the separator. *)
Lemma slashed_head (p : list string) :
  slashed p = "" ∨ ∃ t, slashed p = String "/" t.
Proof. destruct p as [|c p]; [by left|right]. simpl. eauto. Qed.

Lemma path_str_cons c p : path_str (c :: p) = slashed (c :: p).
Proof. done. Qed.

Lemma path_str_app_prefix (ws rest : list string) :
  String.prefix (path_str ws) (path_str (ws ++ rest)) = true.
Proof.
  destruct ws as [|c ws].
  - destruct rest as [|c rest]; [apply prefix_refl|].
    apply (prefix_append_r "/" (c +:+ slashed rest)).
  - rewrite <-app_comm_cons, !path_str_cons, app_comm_cons, slashed_app.
    apply prefix_append_r.
Qed.

Lemma strip_parts_app (ws rest : list string) :
  strip_parts ws (ws ++ rest) = Some rest.
Proof.
  induction ws as [|c ws IH]; simpl; [by destruct rest|].
  by rewrite decide_True.
Qed.

Lemma strip_parts_Some (ws p rest : list string) :
  strip_parts ws p = Some rest → p = ws ++ rest.
Proof.
  revert p. induction ws as [|c ws IH]; intros [|b p]; simpl; try done.
  - by intros [= ->].
  - by intros [= ->].
  - case_decide as Hcb; [|done]. subst b. intros ->%IH. done.
Qed.

Lemma lexical_step_proper acc c : proper c → lexical_step acc c = acc ++ [c].
Proof.
  intros (H1 & H2 & H3). unfold lexical_step.
  rewrite decide_False by naive_solver. by rewrite decide_False.
Qed.

Lemma foldl_lexical_proper (cs : list string) :
  ∀ acc, Forall proper cs → foldl lexical_step acc cs = acc ++ cs.
Proof.
  induction cs as [|c cs IH]; intros acc Hcs; simpl; [by rewrite app_nil_r|].
  apply Forall_cons in Hcs as [Hc Hcs].
  rewrite lexical_step_proper, IH by done. by rewrite <-(assoc_L (++)).
Qed.

(** Below a directory it never climbs above, a path resolves as it does
    from the root. *)
Lemma foldl_lexical_below (cs : list string) :
  ∀ base extra,
    stays_below (length extra) cs = true →
    foldl lexical_step (base ++ extra) cs
    = base ++ foldl lexical_step extra cs.
Proof.
  induction cs as [|c cs IH]; intros base extra; simpl; [done|].
  unfold lexical_step at 2 4.
  destruct (decide (c = "" ∨ c = ".")) as [|_]; [by apply IH|].
  destruct (decide (c = "..")) as [_|_].
  - destruct extra as [|x extra _] using rev_ind; [done|].
    rewrite length_app, Nat.add_1_r. intros Hcs.
    rewrite (assoc_L (++)), !removelast_last. by apply IH.
  - intros Hcs. rewrite <-(assoc_L (++)). apply IH.
    by rewrite length_app, Nat.add_1_r.
Qed.

Lemma split_on_no_sep sep (s : string) :
  Forall (λ c, occurs sep c = false) (split_on sep s).
Proof.
  induction s as [|c s IH]; simpl; [by repeat constructor|].
  case_decide as Hc; [by constructor|].
  destruct (split_on sep s) as [|x xs]; [by repeat constructor; simpl;
    rewrite bool_decide_eq_false_2|].
  apply Forall_cons in IH as [Hx Hxs]. constructor; [|done].
  simpl. by rewrite bool_decide_eq_false_2.
Qed.

Lemma split_on_whole sep (c : string) :
  occurs sep c = false → split_on sep c = [c].
Proof.
  induction c as [|x c IH]; simpl; [done|].
  intros [Hx Hc]%orb_false_iff. apply bool_decide_eq_false in Hx.
  rewrite decide_False by done. by rewrite IH.
Qed.

Lemma split_on_append_sep sep (c t : string) :
  occurs sep c = false →
  split_on sep (c +:+ String sep t) = c :: split_on sep t.
Proof.
  induction c as [|x c IH].
  - intros _. rewrite append_nil_l. simpl. by rewrite decide_True.
  - simpl. intros [Hx Hc]%orb_false_iff. apply bool_decide_eq_false in Hx.
    rewrite decide_False by done. by rewrite IH.
Qed.

Lemma split_on_slashed (c : string) (p : list string) :
  occurs "/" c = false → Forall (λ c, occurs "/" c = false) p →
  split_on "/" (c +:+ slashed p) = c :: p.
Proof.
  intros Hc Hp. revert c Hc. induction Hp as [|d p Hd Hp IH]; intros c Hc.
  - simpl. rewrite append_nil_r. by apply split_on_whole.
  - change (slashed (d :: p)) with (String "/" (d +:+ slashed p)).
    rewrite split_on_append_sep by done. by rewrite IH.
Qed.

Lemma backslashes_to_slashes_id (s : string) :
  occurs "\" s = false → backslashes_to_slashes s = s.
Proof.
  induction s as [|c s IH]; simpl; [done|].
  intros [Hc Hs]%orb_false_iff. apply bool_decide_eq_false in Hc.
  rewrite decide_False by done. by rewrite IH.
Qed.

Lemma occurs_slashed ch (p : list string) :
  ch ≠ "/"%char → Forall (λ c, occurs ch c = false) p →
  occurs ch (slashed p) = false.
Proof.
  intros Hch. induction 1 as [|c p Hc _ IH]; [done|].
  change (slashed (c :: p)) with (String "/" (c +:+ slashed p)).
  simpl. rewrite occurs_append, Hc, IH. rewrite bool_decide_eq_false_2; [done|].
  by intros <-.
Qed.

Lemma lexical_app_below (ws cs : list string) :
  Forall proper ws → stays_below 0 cs = true →
  lexical (ws ++ cs) = ws ++ lexical cs.
Proof.
  intros Hws Hcs. unfold lexical.
  rewrite foldl_app, (foldl_lexical_proper ws) by done. simpl.
  rewrite <-(app_nil_r ws) at 1. by apply foldl_lexical_below.
Qed.

Lemma foldl_lexical_proper_elem (cs : list string) :
  ∀ acc c, c ∈ foldl lexical_step acc cs → c ∈ acc ∨ (c ∈ cs ∧ proper c).
Proof.
  induction cs as [|c0 cs IH]; intros acc c; simpl; [by left|].
  intros [Hc|[Hc Hp]]%IH; [|right; split; [by right|done]].
  unfold lexical_step in Hc.
  destruct (decide (c0 = "" ∨ c0 = ".")) as [|Hn]; [by left|].
  destruct (decide (c0 = "..")) as [|Hn'].
  - left. destruct acc as [|a acc _] using rev_ind; [done|].
    rewrite removelast_last in Hc. apply elem_of_app. by left.
  - apply elem_of_app in Hc as [?|Hc]; [by left|].
    apply list_elem_of_singleton in Hc as ->. right. split; [left|].
    unfold proper. naive_solver.
Qed.

Lemma split_on_occurs sep ch (s : string) :
  occurs ch s = false → Forall (λ c, occurs ch c = false) (split_on sep s).
Proof.
  induction s as [|c s IH]; simpl; [by repeat constructor|].
  intros [Hc Hs]%orb_false_iff. specialize (IH Hs).
  destruct (decide (c = sep)) as [_|_]; [by constructor|].
  destruct (split_on sep s) as [|x xs]; [repeat constructor; simpl;
    by rewrite Hc|].
  apply Forall_cons in IH as [Hx Hxs]. constructor; [|done].
  simpl. by rewrite Hc, Hx.
Qed.

Lemma lstrip_slashes_occurs ch (s : string) :
  occurs ch s = false → occurs ch (lstrip_slashes s) = false.
Proof.
  induction s as [|c s IH]; simpl; [done|].
  intros [Hc Hs]%orb_false_iff.
  destruct (bool_decide (c = "/"%char ∨ c = "\"%char)); [by apply IH|].
  simpl. by rewrite Hc, Hs.
Qed.

Lemma lstrip_slashes_component (c t : string) :
  c ≠ "" → occurs "/" c = false → occurs "\" c = false →
  lstrip_slashes (c +:+ t) = c +:+ t.
Proof.
  destruct c as [|x c]; [done|]. intros _. simpl.
  intros [Hx _]%orb_false_iff [Hx' _]%orb_false_iff.
  apply bool_decide_eq_false in Hx, Hx'.
  rewrite bool_decide_eq_false_2; [done|]. naive_solver.
Qed.

(** The string of a relative path of plain components is read back as
    these components. *)
Lemma path_parts_rel_str (rest : list string) :
  Forall plain rest →
  lstrip_slashes (rel_str rest) = rel_str rest
  ∧ path_parts (rel_str rest) = rest
  ∧ backslashes_to_slashes (rel_str rest) = rel_str rest.
Proof.
  intros Hrest. destruct Hrest as [|c rest (Hc & Hs & Hb) Hrest]; [done|].
  assert (Hslash : Forall (λ c, occurs "/" c = false) rest).
  { eapply Forall_impl; [exact Hrest|]. by intros ? (_ & ? & _). }
  assert (Hback : Forall (λ c, occurs "\" c = false) rest).
  { eapply Forall_impl; [exact Hrest|]. by intros ? (_ & _ & ?). }
  simpl. split_and!.
  - apply lstrip_slashes_component; [apply Hc|done..].
  - unfold path_parts. rewrite split_on_slashed by done.
    apply filter_all. constructor.
    + destruct Hc as (? & ? & _). done.
    + eapply Forall_impl; [exact Hrest|]. intros ? ((? & ? & _) & _). done.
  - apply backslashes_to_slashes_id.
    rewrite occurs_append, Hb, occurs_slashed; done.
Qed.

(** ** The string of a path that begins with the string of another *)

Lemma prefix_component (b t c s : string) :
  occurs "/" b = false → occurs "/" c = false →
  (s = "" ∨ ∃ t', s = String "/" t') →
  String.prefix (b +:+ String "/" t) (c +:+ s) = true →
  b = c ∧ String.prefix (String "/" t) s = true.
Proof.
  intros Hb Hc Hs. revert c Hc.
  induction b as [|x b IH]; intros [|y c] Hc.
  - rewrite !append_nil_l. done.
  - rewrite append_nil_l, append_cons, prefix_cons.
    destruct (Ascii.ascii_dec "/" y) as [<-|]; [|done].
    by rewrite occurs_head in Hc.
  - rewrite append_nil_l, append_cons.
    destruct Hs as [->|[t' ->]]; [done|]. rewrite prefix_cons.
    destruct (Ascii.ascii_dec x "/") as [->|]; [|done].
    by rewrite occurs_head in Hb.
  - rewrite !append_cons, prefix_cons.
    destruct (Ascii.ascii_dec x y) as [<-|]; [|done].
    simpl in Hb, Hc.
    apply orb_false_iff in Hb as [_ Hb]. apply orb_false_iff in Hc as [_ Hc].
    intros Hpre. destruct (IH Hb c Hc Hpre) as [-> ?]. done.
Qed.

Lemma prefix_last_component (name c s : string) :
  occurs "/" name = false →
  (s = "" ∨ ∃ t', s = String "/" t') →
  String.prefix name (c +:+ s) = true → String.prefix name c = true.
Proof.
  intros Hname Hs. revert c.
  induction name as [|x name IH]; intros [|y c]; try done.
  - rewrite append_nil_l.
    destruct Hs as [->|[t' ->]]; [done|]. rewrite prefix_cons.
    destruct (Ascii.ascii_dec x "/") as [->|]; [|done].
    by rewrite occurs_head in Hname.
  - rewrite append_cons, !prefix_cons.
    destruct (Ascii.ascii_dec x y) as [<-|]; [|done].
    simpl in Hname. apply orb_false_iff in Hname as [_ Hname]. by apply IH.
Qed.

Lemma slashed_prefix (base : list string) (name : string) :
  ∀ p,
    Forall (λ c, occurs "/" c = false) (base ++ [name]) →
    Forall (λ c, occurs "/" c = false) p →
    String.prefix (slashed (base ++ [name])) (slashed p) = true →
    ∃ c rest, p = base ++ c :: rest ∧ String.prefix name c = true.
Proof.
  induction base as [|b base IH]; intros [|c p] Hws Hp; try done.
  - rewrite app_nil_l.
    change (slashed [name]) with ("/" +:+ (name +:+ "")).
    change (slashed (c :: p)) with ("/" +:+ (c +:+ slashed p)).
    rewrite prefix_append, append_nil_r. intros Hpre.
    exists c, p. split; [done|].
    apply Forall_cons in Hws as [Hname _].
    eapply prefix_last_component; [done|apply slashed_head|done].
  - rewrite <-app_comm_cons.
    change (slashed (b :: base ++ [name]))
      with ("/" +:+ (b +:+ slashed (base ++ [name]))).
    change (slashed (c :: p)) with ("/" +:+ (c +:+ slashed p)).
    rewrite prefix_append.
    apply Forall_cons in Hws as [Hb Hws]. apply Forall_cons in Hp as [Hc Hp].
    destruct (slashed_head (base ++ [name])) as [Hnil|[t Ht]].
    { by destruct base. }
    rewrite Ht. intros Hpre.
    apply prefix_component in Hpre as [-> Hpre];
      [|done|done|apply slashed_head].
    rewrite <-Ht in Hpre.
    destruct (IH p Hws Hp Hpre) as (c' & rest & -> & Hname).
    by exists c', rest.
Qed.

Lemma strip_parts_app_l (base o p : list string) :
  strip_parts (base ++ o) (base ++ p) = strip_parts o p.
Proof.
  induction base as [|b base IH]; simpl; [done|]. by rewrite decide_True.
Qed.

Lemma path_str_nonempty (l : list string) x r :
  path_str (l ++ x :: r) = slashed (l ++ x :: r).
Proof. by destruct l. Qed.

(** ** [safe_path] and [rel_from_workspace] *)

Section paths.
Context {Any FS : Type} `{!PyValues Any} `{!FileSystem FS}.
Context (WORKSPACE : list string).
Context (not_in_subpath : list string → string).
Implicit Types (u : Any) (fs : FS) (p rest : list string).

Local Abbreviation safe_path' := (Runners.safe_path WORKSPACE).
Local Abbreviation rel_from_workspace' :=
  (Runners.rel_from_workspace WORKSPACE not_in_subpath).

Lemma safe_path_Ok u fs p :
  safe_path' u fs = Ok p ↔
  fs_resolve fs (WORKSPACE ++ user_parts u) = Ok p
  ∧ String.prefix (path_str WORKSPACE) (path_str p) = true.
Proof.
  unfold Runners.safe_path, user_parts.
  destruct (fs_resolve fs _) as [q|e]; simpl;
    [|split; [done|by intros [? _]]].
  destruct (String.prefix _ (path_str q)) eqn:Hpre; simpl.
  - split; [intros [= <-]; by rewrite Hpre|by intros [? _]].
  - split; [done|]. intros [[= <-] ?]. congruence.
Qed.

Lemma user_parts_components u :
  Forall (λ c, occurs "/" c = false) (user_parts u).
Proof.
  unfold user_parts, path_parts. apply Forall_forall.
  intros c [_ Hc]%list_elem_of_filter.
  eapply Forall_forall in Hc; [|apply split_on_no_sep]. done.
Qed.

(** Without symbolic links, [Path.resolve()] returns components it was
    given. *)
Lemma no_links_resolves_to_components fs :
  no_links fs → resolves_to_components fs.
Proof.
  intros Hfs cs q Hcs. rewrite Hfs. intros [= <-].
  apply Forall_forall. intros c Hc.
  apply foldl_lexical_proper_elem in Hc as [Hc|[Hc _]];
    [by apply elem_of_nil in Hc|].
  by eapply Forall_forall in Hcs.
Qed.


(** X8. On a POSIX system, take a path that never climbs, with its [..],
    above the workspace it starts in, and that [Path.resolve()] only
    normalises: it raises nothing on it (the path holds no NUL) and finds no
    symbolic link in it.  [safe_path] returns the workspace followed by the
    path's components, normalised, and [rel_from_workspace] gives the
    normalised path back. *)
Theorem safe_path_inside u fs :
  resolves_lexically fs (WORKSPACE ++ user_parts u) →
  Forall proper WORKSPACE →
  stays_below 0 (user_parts u) = true →
  safe_path' u fs = Ok (WORKSPACE ++ lexical (user_parts u))
  ∧ rel_from_workspace' (WORKSPACE ++ lexical (user_parts u))
    = Ok (backslashes_to_slashes (rel_str (lexical (user_parts u)))).
Proof.
  intros Hfs Hws Hbelow. split.
  - apply safe_path_Ok. rewrite Hfs, lexical_app_below by done.
    split; [done|]. apply path_str_app_prefix.
  - unfold Runners.rel_from_workspace. by rewrite strip_parts_app.
Qed.

(** X9. What the check of [safe_path] guarantees: a path it returns lies
    in the directory that holds the workspace, under a name that begins
    with the name of the workspace. *)
Theorem safe_path_confines u fs p base name :
  WORKSPACE = base ++ [name] →
  Forall (λ c, c ≠ "" ∧ occurs "/" c = false) WORKSPACE →
  resolves_to_components fs →
  safe_path' u fs = Ok p →
  ∃ c rest, p = base ++ c :: rest ∧ String.prefix name c = true.
Proof.
  intros Hws Hcomp Hres [Hp Hpre]%safe_path_Ok.
  assert (Hfree : Forall (λ c, occurs "/" c = false) WORKSPACE).
  { eapply Forall_impl; [exact Hcomp|]. by intros ? [_ ?]. }
  apply Hres in Hp; [|by apply Forall_app; split; [|apply user_parts_components]].
  rewrite Hws in Hpre, Hcomp, Hfree.
  rewrite path_str_nonempty in Hpre.
  destruct p as [|c p].
  - exfalso. destruct base as [|b base].
    + apply Forall_cons in Hcomp as [[Hne _] _].
      change (slashed ([] ++ [name])) with ("/" +:+ (name +:+ "")) in Hpre.
      change (path_str []) with ("/" +:+ "") in Hpre.
      rewrite prefix_append, append_nil_r in Hpre.
      by apply prefix_nil_r in Hpre.
    + apply Forall_cons in Hcomp as [[Hne _] _].
      change (slashed ((b :: base) ++ [name]))
        with ("/" +:+ (b +:+ slashed (base ++ [name]))) in Hpre.
      change (path_str []) with ("/" +:+ "") in Hpre.
      rewrite prefix_append in Hpre. apply prefix_nil_r in Hpre.
      by destruct b.
  - rewrite path_str_cons in Hpre. by eapply slashed_prefix.
Qed.



End paths.

(** ** The runners of text files *)

Lemma rel_str_nonempty (rest : list string) :
  Forall proper rest → rel_str rest ≠ "".
Proof.
  intros [|c r (Hc & _) _]; [done|]. by destruct c.
Qed.

Lemma recortado_length : py_len recortado = 16.
Proof. done. Qed.

Section text_files.
Context {Any FS : Type} `{!PyValues Any} `{!FileSystem FS}.
Context (WORKSPACE : list string).
Context (not_in_subpath : list string → string).
Implicit Types (node : @Node Any) (c : @ExecutionContext Any) (fs : FS).
Implicit Types (im : gmap string (gmap string Source)).

Local Abbreviation safe_path'' := (Runners.safe_path WORKSPACE).
Local Abbreviation readfile := (Runners.run_node_readfile WORKSPACE).
Local Abbreviation writefile :=
  (Runners.run_node_writefile WORKSPACE not_in_subpath).

Lemma run_node_readfile_Returns node c fs relp p text m :
  data node !! "path" = Some relp →
  py_bool relp = true →
  safe_path'' relp fs = Ok p →
  fs_exists fs p = true →
  fs_read_text fs p = Ok text →
  match data node !! "max_chars" with
  | Some v => py_int v
  | None => Ok 20000%Z
  end = Ok m →
  readfile node c fs
  = (Returns {["text" := of_str (if decide (m < Z.of_nat (py_len text))%Z
                                 then py_slice_to m text +:+ recortado
                                 else text)]}, fs).
Proof.
  intros Hpath Hbool Hsafe Hex Hread Hmax.
  unfold Runners.run_node_readfile.
  by rewrite Hpath, Hbool, Hsafe, Hex, Hread, Hmax.
Qed.

Lemma run_node_writefile_Returns node im c fs out fs2 :
  writefile node im c fs = (Returns out, fs2) →
  ∃ relp p fs1 s rest,
    data node !! "path" = Some relp
    ∧ py_bool relp = true
    ∧ safe_path'' relp fs = Ok p
    ∧ fs_mkdir_parents fs (removelast p) = (Ok (), fs1)
    ∧ fs_write_text fs1 p s = (Ok (), fs2)
    ∧ p = WORKSPACE ++ rest
    ∧ out = {["path" := of_str (backslashes_to_slashes (rel_str rest))]}.
Proof.
  unfold Runners.run_node_writefile.
  destruct (data node !! "path") as [relp|]; [|done].
  destruct (py_bool relp) eqn:Hbool; [|done]. simpl.
  destruct (safe_path'' relp fs) as [p|e] eqn:Hsafe; [|done].
  destruct (fs_mkdir_parents fs (removelast p)) as [[[]|e] fs1] eqn:Hmk; [|done].
  destruct (fs_exists fs1 p && negb _); [done|].
  destruct (fs_write_text fs1 p _) as [[[]|e] fs2'] eqn:Hwr; [|done].
  unfold Runners.rel_from_workspace.
  destruct (strip_parts WORKSPACE p) as [rest|] eqn:Hrest; [|done].
  intros [= <- <-]. apply strip_parts_Some in Hrest.
  eexists relp, p, fs1, _, rest. by split_and!.
Qed.

(** A path into a directory beside the workspace whose name extends the
    name of the workspace. *)
Lemma safe_path_beside relp fs base name suffix rest :
  WORKSPACE = base ++ [name] →
  Forall proper WORKSPACE →
  resolves_lexically fs (WORKSPACE ++ user_parts relp) →
  user_parts relp = ".." :: (name +:+ suffix) :: rest →
  proper (name +:+ suffix) →
  Forall proper rest →
  safe_path'' relp fs = Ok (base ++ (name +:+ suffix) :: rest).
Proof.
  intros Hws Hproper Hfs Hparts Hsib Hrest.
  apply safe_path_Ok. rewrite Hfs, Hparts. split.
  - unfold lexical.
    rewrite foldl_app, (foldl_lexical_proper WORKSPACE) by done.
    rewrite app_nil_l, Hws. cbn [foldl].
    assert (lexical_step (base ++ [name]) ".." = base) as ->.
    { unfold lexical_step. simpl. apply removelast_last. }
    rewrite lexical_step_proper by done.
    rewrite foldl_lexical_proper by done. by rewrite <-(assoc_L (++)).
  - rewrite Hws, !path_str_nonempty, !slashed_app, prefix_append.
    change (slashed [name]) with ("/" +:+ (name +:+ "")).
    change (slashed ((name +:+ suffix) :: rest))
      with ("/" +:+ ((name +:+ suffix) +:+ slashed rest)).
    rewrite prefix_append, append_nil_r, append_assoc.
    apply prefix_append_r.
Qed.

Lemma rel_from_workspace_beside base name suffix rest :
  WORKSPACE = base ++ [name] →
  suffix ≠ "" →
  Runners.rel_from_workspace WORKSPACE not_in_subpath
    (base ++ (name +:+ suffix) :: rest)
  = Raise (ValueError (not_in_subpath (base ++ (name +:+ suffix) :: rest))).
Proof.
  intros Hws Hsuffix.
  unfold Runners.rel_from_workspace. rewrite Hws, strip_parts_app_l. simpl.
  rewrite decide_False; [done|].
  intros Heq. symmetry in Heq. by apply append_eq_self in Heq.
Qed.

(** X12. The text [run_node_readfile] returns has at most 16 characters
    more than a limit [max_chars ≥ 0], characters counted as [len] counts
    them; it is the text of the file when the file has no more characters
    than the limit; and the runner leaves the file system as it was. *)
Theorem readfile_text_bounded node c fs out fs' m :
  match data node !! "max_chars" with
  | Some v => py_int v
  | None => Ok 20000%Z
  end = Ok m →
  (0 ≤ m)%Z →
  readfile node c fs = (Returns out, fs') →
  fs' = fs
  ∧ ∃ relp p text t,
      data node !! "path" = Some relp
      ∧ safe_path'' relp fs = Ok p
      ∧ fs_read_text fs p = Ok text
      ∧ out = {["text" := of_str t]}
      ∧ (Z.of_nat (py_len t) ≤ m + 16)%Z
      ∧ ((Z.of_nat (py_len text) ≤ m)%Z → t = text).
Proof.
  intros Hmax Hm. unfold Runners.run_node_readfile. rewrite Hmax.
  destruct (data node !! "path") as [relp|]; [|done].
  destruct (negb (py_bool relp)); [done|].
  destruct (safe_path'' relp fs) as [p|e] eqn:Hsafe; [|done].
  destruct (negb (fs_exists fs p)); [done|].
  destruct (fs_read_text fs p) as [text|e] eqn:Hread; [|done].
  intros [= <- <-]. split; [done|].
  eexists relp, p, text, _. split_and!; [done..| |].
  - case_decide as Hlong; [|lia].
    rewrite py_len_append, recortado_length. unfold py_slice_to.
    rewrite decide_True by done.
    pose proof (py_len_take_chars text (Z.to_nat m)). lia.
  - intros Hshort. by rewrite decide_False by lia.
Qed.

(** X13. On a POSIX system, for a path that leads into a directory beside
    the workspace whose name extends the name of the workspace (and that
    [Path.resolve()] only normalises), [run_node_writefile] never returns.
    With a [data.path] that is set, once the directories are created: when
    the target exists and [overwrite] is false, it raises without writing;
    otherwise it attempts the write there, outside the workspace, over a
    target that may exist, and then raises, the error of [relative_to] when
    the write succeeded. *)
Theorem writefile_beside_workspace node im c fs base name suffix rest relp :
  WORKSPACE = base ++ [name] →
  Forall proper WORKSPACE →
  resolves_lexically fs (WORKSPACE ++ user_parts relp) →
  data node !! "path" = Some relp →
  user_parts relp = ".." :: (name +:+ suffix) :: rest →
  suffix ≠ "" →
  proper (name +:+ suffix) →
  Forall proper rest →
  (∀ out fs', writefile node im c fs ≠ (Returns out, fs'))
  ∧ ∀ fs1,
      py_bool relp = true →
      fs_mkdir_parents fs (removelast (base ++ (name +:+ suffix) :: rest))
      = (Ok (), fs1) →
      (fs_exists fs1 (base ++ (name +:+ suffix) :: rest)
       && negb (match data node !! "overwrite" with
                | Some v => py_bool v
                | None => true
                end) = true →
       writefile node im c fs
       = (Raises "WriteFile: el archivo existe y overwrite=false", fs1))
      ∧ (fs_exists fs1 (base ++ (name +:+ suffix) :: rest)
         && negb (match data node !! "overwrite" with
                  | Some v => py_bool v
                  | None => true
                  end) = false →
         ∃ s,
           writefile node im c fs
           = (Raises
                (match (fs_write_text fs1
                          (base ++ (name +:+ suffix) :: rest) s).1 with
                 | Ok _ => not_in_subpath (base ++ (name +:+ suffix) :: rest)
                 | Raise e => exn_message e
                 end),
              (fs_write_text fs1 (base ++ (name +:+ suffix) :: rest) s).2)).
Proof.
  intros Hws Hproper Hfs Hpath Hparts Hsuffix Hsib Hrest.
  pose proof (safe_path_beside relp fs base name suffix rest
                Hws Hproper Hfs Hparts Hsib Hrest) as Hsafe.
  pose proof (rel_from_workspace_beside base name suffix rest Hws Hsuffix)
    as Hrel.
  split.
  - intros out fs'. unfold Runners.run_node_writefile. rewrite Hpath.
    destruct (py_bool relp); [|done]. simpl. rewrite Hsafe.
    destruct (fs_mkdir_parents fs _) as [[[]|e] fs1]; [|done].
    destruct (fs_exists fs1 _ && negb _); [done|].
    destruct (fs_write_text fs1 _ _) as [[[]|e] fs2]; [|done].
    by rewrite Hrel.
  - intros fs1 Hbool Hmk. unfold Runners.run_node_writefile.
    rewrite Hpath, Hbool. simpl. rewrite Hsafe, Hmk. split.
    + by intros ->.
    + intros ->.
      match goal with
      | |- context [fs_write_text fs1 _ ?s] =>
          exists s; destruct (fs_write_text fs1 _ s) as [[[]|e] fs2]; [|done]
      end.
      by rewrite Hrel.
Qed.

(** X14. On a POSIX system, [run_node_readfile] given the path
    [run_node_writefile] returned reads the file that was written, and
    returns its text: the text written, its line ends read as [read_text]
    reads them, cut at the limit of ReadFile.  This is for a path that
    resolves into the workspace, before and after the write, to components
    without backslash, and whose relative form has no white space at its
    ends; [reads_back] is what a file system does with a file just
    written. *)
Theorem writefile_then_readfile node im c fs out fs2 relp rest reader c' m :
  data node !! "path" = Some relp →
  fs_resolve fs (WORKSPACE ++ user_parts relp) = Ok (WORKSPACE ++ rest) →
  Forall plain rest →
  py_strip (rel_str rest) = rel_str rest →
  writefile node im c fs = (Returns out, fs2) →
  fs_resolve fs2 (WORKSPACE ++ rest) = Ok (WORKSPACE ++ rest) →
  reads_back fs2 →
  data reader !! "path" = out !! "path" →
  match data reader !! "max_chars" with
  | Some v => py_int v
  | None => Ok 20000%Z
  end = Ok m →
  ∃ s fs1,
    fs_write_text fs1 (WORKSPACE ++ rest) s = (Ok (), fs2)
    ∧ readfile reader c' fs2
      = (Returns
           {["text" :=
               of_str (if decide (m < Z.of_nat (py_len (universal_newlines s)))%Z
                       then py_slice_to m (universal_newlines s) +:+ recortado
                       else universal_newlines s)]},
         fs2).
Proof.
  intros Hpath Hres Hrest Hstrip
    (relp' & p & fs1 & s & rest' & Hpath' & Hbool & Hsafe & Hmk & Hwr & -> & ->)
      %run_node_writefile_Returns
    Hres2 Hlaw Hreader Hmax.
  assert (relp' = relp) as -> by congruence.
  apply safe_path_Ok in Hsafe as [Hres' _].
  rewrite Hres in Hres'. injection Hres' as Hp.
  apply app_inv_head in Hp as <-.
  destruct (path_parts_rel_str rest Hrest) as (Hl & Hparts & Hsame).
  rewrite Hsame, lookup_singleton_eq in Hreader.
  destruct (Hlaw fs1 (WORKSPACE ++ rest) s Hwr) as [Hex Hread].
  exists s, fs1. split; [done|].
  eapply run_node_readfile_Returns; try done.
  - rewrite py_bool_of_str. apply bool_decide_eq_true_2.
    apply rel_str_nonempty.
    eapply Forall_impl; [exact Hrest|]. by intros ? [? _].
  - apply safe_path_Ok. unfold user_parts.
    rewrite py_str_of_str, Hstrip, Hl, Hparts, Hres2. split; [done|].
    apply path_str_app_prefix.
Qed.

End text_files.

(** ** Workflows of Text nodes *)

Section text_workflows.
Context {Any FS : Type} `{!PyValues Any} `{!FileSystem FS}.
Context (WORKSPACE : list string).
Context (not_in_subpath : list string → string).
Context (media : Runner → @Node Any → gmap string (gmap string Source) →
                 @ExecutionContext Any → FS → @RunnerResult Any * FS).
Implicit Types (w : @Workflow Any) (n : @Node Any) (fs : FS).
Implicit Types (im : gmap string (gmap string Source)).

Local Abbreviation call_ctx' := (call_two WORKSPACE).
Local Abbreviation call_map' := (call_three WORKSPACE not_in_subpath media).

Lemma topo_sort_acyclic_Ok w :
  NoDup (declared_ids w) → acyclic w → ∃ order, topo_sort w = Ok order.
Proof.
  intros Hnd Hacyc.
  destruct (topo_sort_spec w)
    as (indeg & res & _ & Hinv & _ & Hlen & [[Hlt _]|(_ & order & Ho & _)]);
    [|by exists order].
  pose proof (kahn_inv_acyclic w indeg res Hacyc Hinv) as Hall.
  assert (HlenK : length (scheduler_keys w) ≤ length res).
  { apply submseteq_length, NoDup_submseteq;
      [apply scheduler_keys_NoDup|done]. }
  rewrite (scheduler_keys_unique w Hnd) in HlenK.
  unfold declared_ids in HlenK. rewrite length_fmap in HlenK. lia.
Qed.

Lemma run_node_text_Ok im (st : @RunState Any FS) n :
  type n = "Text" →
  ∃ st',
    run_node call_ctx' call_map' im st n = (st', Ok ())
    ∧ world st' = world st
    ∧ outputs (ctx st')
      = <[id n := {["text" := of_str (match data n !! "text" with
                                      | Some v => py_str v
                                      | None => ""
                                      end)]}]> (outputs (ctx st)).
Proof.
  intros Hty. unfold run_node, call_runner. rewrite Hty. simpl.
  eexists. split_and!; done.
Qed.

Lemma run_nodes_text_Ok im ns :
  ∀ st : @RunState Any FS,
    Forall (λ n, type n = "Text") ns →
    ∃ st',
      run_nodes call_ctx' call_map' im ns st = (st', Ok ())
      ∧ world st' = world st
      ∧ outputs (ctx st')
        = capture_all
            ((λ n, (n, {["text" := of_str (match data n !! "text" with
                                           | Some v => py_str v
                                           | None => ""
                                           end)]})) <$> ns)
            (outputs (ctx st)).
Proof.
  induction ns as [|n ns IH]; intros st Hns.
  - by exists st.
  - apply Forall_cons in Hns as [Hn Hns].
    destruct (run_node_text_Ok im st n Hn) as (st1 & Hrun & Hwd & Hout).
    destruct (IH st1 Hns) as (st' & Hrest & Hwd' & Hout').
    exists st'. cbn [run_nodes]. rewrite Hrun. split_and!; [done|congruence|].
    rewrite Hout', Hout. done.
Qed.

(** X15. A workflow of Text nodes with unique ids and without a cycle
    always runs to its end, whatever its links: the run returns a bundle,
    leaves the file system as it was, and captures for every node the text
    of its [data.text] (the empty text when it has none). *)
Theorem text_workflow_completes w fs :
  NoDup (declared_ids w) →
  acyclic w →
  Forall (λ n, type n = "Text") (nodes w) →
  ∃ st res,
    execute_workflow_run (path_str WORKSPACE) call_ctx' call_map' w fs
    = (st, Ok res)
    ∧ world st = fs
    ∧ ∀ n, n ∈ nodes w →
        bundle_outputs res !! id n
        = Some {["text" := of_str (match data n !! "text" with
                                   | Some v => py_str v
                                   | None => ""
                                   end)]}.
Proof.
  intros Hnd Hacyc Htext.
  destruct (topo_sort_acyclic_Ok w Hnd Hacyc) as [order Horder].
  pose proof (topo_sort_Ok_perm w order Horder) as Hperm.
  assert (Htext' : Forall (λ n, type n = "Text") order) by by rewrite Hperm.
  destruct (run_nodes_text_Ok (build_input_map w) order (initial_state fs) Htext')
    as (st & Hrun & Hwd & Hout).
  unfold execute_workflow_run. rewrite Horder, Hrun.
  eexists st, _. split_and!; [done..|]. simpl.
  intros n Hn. rewrite <-Hperm in Hn.
  apply list_elem_of_lookup in Hn as [i Hi].
  rewrite Hout. eapply (capture_all_lookup _ _ i n).
  - rewrite <-list_fmap_compose.
    assert (Hnd' : NoDup (id <$> order)).
    { unfold declared_ids in Hnd. by rewrite Hperm. }
    exact Hnd'.
  - by rewrite list_lookup_fmap, Hi.
Qed.

End text_workflows.

(** * The editor *)

Section editor_state.
Context {Any : Type}.
Implicit Types (w : @Workflow Any) (l : PortLink) (k : string).

Lemma delete_clicked_ids k w :
  declared_ids (Editor.delete_clicked k w) = filter (λ i, i ≠ k) (declared_ids w).
Proof.
  unfold declared_ids, Editor.delete_clicked. simpl.
  induction (nodes w) as [|n ns IH]; [done|].
  rewrite fmap_cons, !filter_cons.
  destruct (decide (id n ≠ k)); [rewrite fmap_cons|]; by rewrite IH.
Qed.

Lemma delete_clicked_valid k w l :
  valid_link (Editor.delete_clicked k w) l ↔
  valid_link w l ∧ from_node l ≠ k ∧ to_node l ≠ k.
Proof.
  unfold valid_link. rewrite delete_clicked_ids, !list_elem_of_filter.
  naive_solver.
Qed.

Lemma delete_clicked_edge k w a b :
  edge (Editor.delete_clicked k w) a b → edge w a b.
Proof.
  unfold edge, edges.
  intros (l & [= -> ->] & Hl)%list_elem_of_fmap.
  apply list_elem_of_filter in Hl as [Hv Hl].
  apply delete_clicked_valid in Hv as [Hv _].
  apply list_elem_of_filter in Hl as [_ Hl].
  apply list_elem_of_fmap. exists l. split; [done|].
  by apply list_elem_of_filter.
Qed.

(** X16. After the click on "Eliminar" of a node, no node of the state has
    its id and no link names it; and when every link joined two nodes of
    the state before, every link does after: the editor leaves no dangling
    link behind. *)
Theorem delete_leaves_no_dangling_link k w :
  (k ∉ declared_ids (Editor.delete_clicked k w))
  ∧ Forall (λ l, from_node l ≠ k ∧ to_node l ≠ k)
      (links (Editor.delete_clicked k w))
  ∧ (Forall (valid_link w) (links w) →
     Forall (valid_link (Editor.delete_clicked k w))
       (links (Editor.delete_clicked k w))).
Proof.
  split_and!.
  - rewrite delete_clicked_ids. intros [? _]%list_elem_of_filter. done.
  - apply Forall_forall. by intros l [? _]%list_elem_of_filter.
  - intros Hall. apply Forall_forall. intros l [Hk Hl]%list_elem_of_filter.
    apply delete_clicked_valid. split; [|done].
    by eapply Forall_forall in Hall.
Qed.

(** X17. A state [topo_sort] orders is still ordered after the click on
    "Eliminar" of any node: the ids stay unique and no cycle appears, and
    the new order holds the nodes that are left. *)
Theorem delete_keeps_runnable k w order :
  topo_sort w = Ok order →
  ∃ order',
    topo_sort (Editor.delete_clicked k w) = Ok order'
    ∧ order' ≡ₚ filter (λ n, id n ≠ k) order.
Proof.
  intros Horder.
  pose proof (topo_sort_Ok_perm w order Horder) as Hperm.
  pose proof (topo_sort_Ok w order Horder) as (_ & _ & Hnd & _).
  pose proof (topo_sort_Ok_acyclic w order Horder) as Hacyc.
  destruct (topo_sort_acyclic_Ok (Editor.delete_clicked k w)) as [order' Ho].
  - rewrite delete_clicked_ids. by apply NoDup_filter.
  - intros x Hx. apply (Hacyc x).
    apply (tc_congruence (λ i, i) (edge w) x x (delete_clicked_edge k w) Hx).
  - exists order'. split; [done|].
    rewrite (topo_sort_Ok_perm _ _ Ho), Hperm. done.
Qed.

End editor_state.

(** ** [esc] *)

Lemma replaceAll_app pat rep (s t : string) :
  Editor.replaceAll pat rep (s +:+ t)
  = Editor.replaceAll pat rep s +:+ Editor.replaceAll pat rep t.
Proof.
  induction s as [|c s IH]; [done|].
  rewrite append_cons. simpl.
  destruct (decide (c = pat)); by rewrite IH, ?append_assoc.
Qed.

Lemma esc_app (s t : string) : Editor.esc (s +:+ t) = Editor.esc s +:+ Editor.esc t.
Proof. unfold Editor.esc. by rewrite !replaceAll_app. Qed.

Lemma esc_one (c : Ascii.ascii) : Editor.esc (String c "") = Editor.entity c.
Proof.
  unfold Editor.entity.
  destruct (decide (c = "&"%char)) as [->|H1]; [done|].
  destruct (decide (c = "<"%char)) as [->|H2]; [done|].
  destruct (decide (c = ">"%char)) as [->|H3]; [done|].
  destruct (decide (c = Editor.quote)) as [->|H4]; [done|].
  unfold Editor.esc. simpl.
  rewrite (decide_False (P := c = "&"%char)) by done. simpl.
  rewrite (decide_False (P := c = "<"%char)) by done. simpl.
  rewrite (decide_False (P := c = ">"%char)) by done. simpl.
  by rewrite (decide_False (P := c = Editor.quote)) by done.
Qed.

Lemma esc_cons (c : Ascii.ascii) (s : string) :
  Editor.esc (String c s) = Editor.entity c +:+ Editor.esc s.
Proof.
  change (String c s) with (String c "" +:+ s). by rewrite esc_app, esc_one.
Qed.

(** An entity is [&] and more, or the character itself, which is then none
    of the four. *)
Lemma entity_cases (c : Ascii.ascii) :
  (Editor.entity c = String c ""
   ∧ c ≠ "&"%char ∧ c ≠ "<"%char ∧ c ≠ ">"%char ∧ c ≠ Editor.quote)
  ∨ (c = "&"%char ∧ Editor.entity c = "&amp;")
  ∨ (c = "<"%char ∧ Editor.entity c = "&lt;")
  ∨ (c = ">"%char ∧ Editor.entity c = "&gt;")
  ∨ (c = Editor.quote ∧ Editor.entity c = "&quot;").
Proof.
  unfold Editor.entity.
  destruct (decide (c = "&"%char)) as [->|H1]; [by right; left|].
  destruct (decide (c = "<"%char)) as [->|H2]; [by right; right; left|].
  destruct (decide (c = ">"%char)) as [->|H3]; [by right; right; right; left|].
  destruct (decide (c = Editor.quote)) as [->|H4]; [by right; right; right; right|].
  by left.
Qed.

(** X18. What [esc] returns holds no [<], no [>] and no double quote, so
    that it stays inside the element or the quoted attribute it is written
    in. *)
Theorem esc_no_markup (s : string) :
  occurs "<" (Editor.esc s) = false
  ∧ occurs ">" (Editor.esc s) = false
  ∧ occurs Editor.quote (Editor.esc s) = false.
Proof.
  induction s as [|c s (IH1 & IH2 & IH3)]; [done|].
  rewrite esc_cons, !occurs_append, IH1, IH2, IH3, !orb_false_r.
  destruct (entity_cases c)
    as [(-> & _ & H2 & H3 & H4)|[[_ ->]|[[_ ->]|[[_ ->]|[_ ->]]]]];
    [|done..].
  simpl. rewrite !orb_false_r.
  by rewrite !bool_decide_eq_false_2.
Qed.

(** X19. [esc] loses nothing: two strings it writes alike are the same
    string. *)
Theorem esc_injective (s t : string) : Editor.esc s = Editor.esc t → s = t.
Proof.
  revert t. induction s as [|c s IH]; intros [|d t].
  - done.
  - rewrite esc_cons. intros Heq. exfalso.
    destruct (entity_cases d)
      as [(Hd & _)|[[_ Hd]|[[_ Hd]|[[_ Hd]|[_ Hd]]]]];
      rewrite Hd in Heq; done.
  - rewrite esc_cons. intros Heq. exfalso.
    destruct (entity_cases c)
      as [(Hc & _)|[[_ Hc]|[[_ Hc]|[[_ Hc]|[_ Hc]]]]];
      rewrite Hc in Heq; done.
  - rewrite !esc_cons. intros Heq.
    assert (c = d ∧ Editor.esc s = Editor.esc t) as [-> Hst];
      [|by rewrite (IH t Hst)].
    destruct (entity_cases c)
      as [(Hc & C1 & C2 & C3 & C4)|[[-> Hc]|[[-> Hc]|[[-> Hc]|[-> Hc]]]]];
    destruct (entity_cases d)
      as [(Hd & D1 & D2 & D3 & D4)|[[-> Hd]|[[-> Hd]|[[-> Hd]|[-> Hd]]]]];
    rewrite ?Hc, ?Hd in Heq;
    repeat rewrite ?append_cons, ?append_nil_l in Heq;
    try (injection Heq as Hch Heq; subst);
    try done; try congruence; split; congruence.
Qed.

(** ** The ports the editor draws *)

Section ports.
Context {Any FS : Type} `{!PyValues Any} `{!FileSystem FS}.
Context (WORKSPACE : list string).
Context (not_in_subpath : list string → string).
Context (media : Runner → @Node Any → gmap string (gmap string Source) →
                 @ExecutionContext Any → FS → @RunnerResult Any * FS).
Implicit Types (n : @Node Any) (c : @ExecutionContext Any) (fs : FS).
Implicit Types (im : gmap string (gmap string Source)).

Lemma run_node_readfile_Returns_text n c fs out fs' :
  Runners.run_node_readfile WORKSPACE n c fs = (Returns out, fs') →
  ∃ t, out = {["text" := of_str t]}.
Proof.
  unfold Runners.run_node_readfile.
  destruct (data n !! "path") as [relp|]; [|done].
  destruct (negb (py_bool relp)); [done|].
  destruct (Runners.safe_path WORKSPACE relp fs) as [p|e]; [|done].
  destruct (negb (fs_exists fs p)); [done|].
  destruct (fs_read_text fs p) as [text|e]; [|done].
  destruct (match data n !! "max_chars" with
            | Some v => py_int v
            | None => Ok 20000%Z
            end) as [m|e]; [|done].
  intros [= <- <-]. by eexists.
Qed.

(** X20. The editor draws the output ports the runners of text files
    fill: when the runner registered for a Text, ReadFile or WriteFile node
    returns, the ports of its outputs are the output ports [nodePorts]
    gives for the type. *)
Theorem returned_ports_are_drawn n :
  type n ∈ ["Text"; "ReadFile"; "WriteFile"] →
  ∃ runner,
    dict_get (type n) NODE_RUNNERS = Some runner
    ∧ ∀ im c fs out fs',
        call_runner (call_two WORKSPACE)
          (call_three WORKSPACE not_in_subpath media) runner n im c fs
        = (Returns out, fs') →
        dom out = list_to_set (Editor.outs (Editor.nodePorts (type n))).
Proof.
  intros Hty. unfold call_runner.
  repeat (apply elem_of_cons in Hty as [Hty|Hty]); [..|by apply elem_of_nil in Hty];
    rewrite Hty; eexists; (split; [reflexivity|]); intros im c fs out fs'; simpl.
  - intros [= <- <-]. rewrite dom_singleton_L. set_solver.
  - intros [t ->]%run_node_readfile_Returns_text.
    rewrite dom_singleton_L. set_solver.
  - intros (relp & p & fs1 & s & rest & _ & _ & _ & _ & _ & _ & ->)
      %run_node_writefile_Returns.
    rewrite dom_singleton_L. set_solver.
Qed.

End ports.

(** * Instances on the disk of the examples *)

Lemma entry_at_set_entry (p : list string) (e : Disk.entry) (d : Disk.disk) :
  Disk.entry_at (Disk.set_entry p e d) p = Some e.
Proof.
  induction d as [|[q e'] d IH]; simpl.
  - by rewrite decide_True.
  - destruct (decide (q = p)) as [->|Hne]; simpl.
    + by rewrite decide_True.
    + by rewrite decide_False.
Qed.

(** The disk of the examples gives back what was written to it. *)
Lemma disk_reads_back (d2 : Disk.disk) :
  @reads_back Disk.disk Disk.disk_files d2.
Proof.
  intros d p s. simpl. unfold Disk.write_text.
  destruct (Disk.is_dir d p) eqn:Hdir; [done|].
  destruct (Disk.is_dir d (removelast p)); [|done].
  intros [= <-]. destruct p as [|x p]; [done|].
  unfold Disk.exists_at, Disk.read_text.
  by rewrite entry_at_set_entry.
Qed.

Module DiskWitnesses.
Import Disk.

Lemma failed_run_stops_at_one_node_witness :
  (topo_sort failing = Raise GraphError
   ∧ RunnerError "WriteFile requiere data.path" = GraphError
   ∧ (run_of failing).1 = initial_state d0)
  ∨ ∃ order pre n post st1,
      topo_sort failing = Ok order
      ∧ order = pre ++ n :: post
      ∧ run_nodes call_ctx call_map (build_input_map failing) pre (initial_state d0)
        = (st1, Ok ())
      ∧ run_node call_ctx call_map (build_input_map failing) st1 n
        = ((run_of failing).1, Raise (RunnerError "WriteFile requiere data.path"))
      ∧ ((dict_get (type n) NODE_RUNNERS = None
          ∧ RunnerError "WriteFile requiere data.path" = UnsupportedNodeError (type n))
         ∨ ∃ runner msg wd',
             dict_get (type n) NODE_RUNNERS = Some runner
             ∧ call_runner call_ctx call_map runner n (build_input_map failing)
                 (node_log (ctx st1) n "running" None) (world st1)
               = (Raises msg, wd')
             ∧ RunnerError "WriteFile requiere data.path" = RunnerError msg).
Proof.
  apply (failed_run_stops_at_one_node (path_str ws) call_ctx call_map failing d0).
  by vm_compute.
Defined.

Lemma completed_run_shape_witness :
  ∃ order,
    topo_sort pipeline = Ok order
    ∧ order ≡ₚ nodes pipeline
    ∧ invoked (run_of pipeline).1 = id <$> order
    ∧ length (logs (ctx (run_of pipeline).1)) = 2 * length (nodes pipeline)
    ∧ (∀ i n, order !! i = Some n →
         ∃ out,
           outputs (ctx (run_of pipeline).1) !! id n = Some out
           ∧ logs (ctx (run_of pipeline).1) !! (2 * i)
             = Some (running_entry (2 * i + 1) n)
           ∧ logs (ctx (run_of pipeline).1) !! (2 * i + 1)
             = Some (done_entry (2 * i + 2) n out))
    ∧ (∀ k, k ∉ declared_ids pipeline →
         outputs (ctx (run_of pipeline).1) !! k = None)
    ∧ Forall (λ n, is_Some (dict_get (type n) NODE_RUNNERS)) (nodes pipeline)
    ∧ ok {| ok := true; workspace := path_str ws;
            bundle_outputs := outputs (ctx (run_of pipeline).1);
            bundle_logs := logs (ctx (run_of pipeline).1) |} = true
    ∧ workspace {| ok := true; workspace := path_str ws;
                   bundle_outputs := outputs (ctx (run_of pipeline).1);
                   bundle_logs := logs (ctx (run_of pipeline).1) |} = path_str ws
    ∧ bundle_outputs {| ok := true; workspace := path_str ws;
                        bundle_outputs := outputs (ctx (run_of pipeline).1);
                        bundle_logs := logs (ctx (run_of pipeline).1) |}
      = outputs (ctx (run_of pipeline).1)
    ∧ bundle_logs {| ok := true; workspace := path_str ws;
                     bundle_outputs := outputs (ctx (run_of pipeline).1);
                     bundle_logs := logs (ctx (run_of pipeline).1) |}
      = logs (ctx (run_of pipeline).1).
Proof.
  apply (completed_run_shape (path_str ws) call_ctx call_map pipeline d0).
  by vm_compute.
Defined.

Lemma producers_run_first_witness :
  from_node (link "T" "text" "W" "text") ∈ invoked after_T
  ∧ ∃ out,
      outputs (ctx after_T) !! from_node (link "T" "text" "W" "text") = Some out
      ∧ resolve_input (id W) "text" (build_input_map pipeline)
          (node_log (ctx after_T) W "running" None)
        = out !! from_port (link "T" "text" "W" "text").
Proof.
  apply (producers_run_first call_ctx call_map pipeline d0 [T; W] [T] W []
           after_T "text" (link "T" "text" "W" "text")).
  - by vm_compute.
  - done.
  - by vm_compute.
  - by vm_compute.
  - apply (bool_decide_unpack _). by vm_compute.
Defined.

Lemma topo_sort_without_valid_links_witness :
  topo_sort {| nodes := [W; T]; links := [link "X" "out" "W" "text"] |}
  = Ok (nodes {| nodes := [W; T]; links := [link "X" "out" "W" "text"] |}).
Proof.
  apply (topo_sort_without_valid_links
           {| nodes := [W; T]; links := [link "X" "out" "W" "text"] |}).
  - apply (bool_decide_unpack _). by vm_compute.
  - apply (bool_decide_unpack _). by vm_compute.
Defined.

Lemma overridden_link_leaves_no_trace_witness :
  build_input_map
    {| nodes := [T; U; W];
       links := [] ++ link "T" "text" "W" "text" :: [link "U" "text" "W" "text"] |}
  = build_input_map
      {| nodes := [T; U; W]; links := [] ++ [link "U" "text" "W" "text"] |}.
Proof.
  apply (overridden_link_leaves_no_trace [T; U; W] []
           (link "T" "text" "W" "text") [link "U" "text" "W" "text"]
           (link "U" "text" "W" "text")).
  - by constructor.
  - done.
Defined.

Lemma safe_path_inside_witness :
  Runners.safe_path ws "/out/../notes.txt" d0
  = Ok (ws ++ lexical (user_parts "/out/../notes.txt"))
  ∧ Runners.rel_from_workspace ws not_in_subpath
      (ws ++ lexical (user_parts "/out/../notes.txt"))
    = Ok (backslashes_to_slashes (rel_str (lexical (user_parts "/out/../notes.txt")))).
Proof.
  apply (safe_path_inside ws not_in_subpath "/out/../notes.txt" d0).
  - done.
  - apply (bool_decide_unpack _). by vm_compute.
  - by vm_compute.
Defined.

Lemma safe_path_confines_witness :
  ∃ c rest,
    ["srv"; "app"; "WORKSPACE2"; "x.txt"] = ["srv"; "app"] ++ c :: rest
    ∧ String.prefix "WORKSPACE" c = true.
Proof.
  apply (safe_path_confines ws "../WORKSPACE2/x.txt" d0
           ["srv"; "app"; "WORKSPACE2"; "x.txt"] ["srv"; "app"] "WORKSPACE").
  - done.
  - apply (bool_decide_unpack _). by vm_compute.
  - by apply no_links_resolves_to_components.
  - by vm_compute.
Defined.



Lemma readfile_text_bounded_witness :
  d1 = d1
  ∧ ∃ relp p text t,
      data N !! "path" = Some relp
      ∧ Runners.safe_path ws relp d1 = Ok p
      ∧ fs_read_text d1 p = Ok text
      ∧ ({["text" := "ñandú"]} : gmap string string) = {["text" := of_str t]}
      ∧ (Z.of_nat (py_len t) ≤ 5 + 16)%Z
      ∧ ((Z.of_nat (py_len text) ≤ 5)%Z → t = text).
Proof.
  apply (readfile_text_bounded ws N empty_context d1 {["text" := "ñandú"]} d1 5).
  - by vm_compute.
  - done.
  - by vm_compute.
Defined.

Lemma writefile_beside_workspace_witness :
  (∀ out fs',
     Runners.run_node_writefile ws not_in_subpath S ∅ empty_context d0
     ≠ (Returns out, fs'))
  ∧ ∀ fs1,
      py_bool "../WORKSPACE2/x.txt" = true →
      fs_mkdir_parents d0
        (removelast (["srv"; "app"] ++ ("WORKSPACE" +:+ "2") :: ["x.txt"]))
      = (Ok (), fs1) →
      (fs_exists fs1 (["srv"; "app"] ++ ("WORKSPACE" +:+ "2") :: ["x.txt"])
       && negb (match data S !! "overwrite" with
                | Some v => py_bool v
                | None => true
                end) = true →
       Runners.run_node_writefile ws not_in_subpath S ∅ empty_context d0
       = (Raises "WriteFile: el archivo existe y overwrite=false", fs1))
      ∧ (fs_exists fs1 (["srv"; "app"] ++ ("WORKSPACE" +:+ "2") :: ["x.txt"])
         && negb (match data S !! "overwrite" with
                  | Some v => py_bool v
                  | None => true
                  end) = false →
         ∃ s,
           Runners.run_node_writefile ws not_in_subpath S ∅ empty_context d0
           = (Raises
                (match (fs_write_text fs1
                          (["srv"; "app"] ++ ("WORKSPACE" +:+ "2") :: ["x.txt"])
                          s).1 with
                 | Ok _ =>
                     not_in_subpath
                       (["srv"; "app"] ++ ("WORKSPACE" +:+ "2") :: ["x.txt"])
                 | Raise e => exn_message e
                 end),
              (fs_write_text fs1
                 (["srv"; "app"] ++ ("WORKSPACE" +:+ "2") :: ["x.txt"]) s).2)).
Proof.
  apply (writefile_beside_workspace ws not_in_subpath S ∅ empty_context d0
           ["srv"; "app"] "WORKSPACE" "2" ["x.txt"] "../WORKSPACE2/x.txt").
  - done.
  - apply (bool_decide_unpack _). by vm_compute.
  - done.
  - by vm_compute.
  - by vm_compute.
  - done.
  - apply (bool_decide_unpack _). by vm_compute.
  - apply (bool_decide_unpack _). by vm_compute.
Defined.

Lemma writefile_then_readfile_witness :
  ∃ s fs1,
    fs_write_text fs1 (ws ++ ["out"; "copy.txt"]) s = (Ok (), written.2)
    ∧ Runners.run_node_readfile ws C empty_context written.2
      = (Returns
           {["text" :=
               of_str (if decide (20000 < Z.of_nat (py_len (universal_newlines s)))%Z
                       then py_slice_to 20000 (universal_newlines s) +:+ recortado
                       else universal_newlines s)]},
         written.2).
Proof.
  apply (writefile_then_readfile ws not_in_subpath W (build_input_map pipeline)
           (ctx after_T) d0 {["path" := "out/copy.txt"]} written.2
           "out/copy.txt" ["out"; "copy.txt"] C empty_context 20000).
  - by vm_compute.
  - by vm_compute.
  - apply (bool_decide_unpack _). by vm_compute.
  - by vm_compute.
  - by vm_compute.
  - by vm_compute.
  - apply disk_reads_back.
  - by vm_compute.
  - by vm_compute.
Defined.

Lemma text_workflow_completes_witness :
  ∃ st res,
    execute_workflow_run (path_str ws) (call_two ws)
      (call_three ws not_in_subpath media) texts d0
    = (st, Ok res)
    ∧ world st = d0
    ∧ ∀ n, n ∈ nodes texts →
        bundle_outputs res !! id n
        = Some {["text" := of_str (match data n !! "text" with
                                   | Some v => py_str v
                                   | None => ""
                                   end)]}.
Proof.
  apply (text_workflow_completes ws not_in_subpath media texts d0).
  - apply (bool_decide_unpack _). by vm_compute.
  - apply (acyclic_by_rank texts rank).
    apply (bool_decide_unpack _). by vm_compute.
  - apply (bool_decide_unpack _). by vm_compute.
Defined.

Lemma delete_keeps_runnable_witness :
  ∃ order',
    topo_sort (Editor.delete_clicked "T" pipeline) = Ok order'
    ∧ order' ≡ₚ filter (λ n, id n ≠ "T") [T; W].
Proof.
  apply (delete_keeps_runnable "T" pipeline [T; W]). by vm_compute.
Defined.

Lemma returned_ports_are_drawn_witness :
  ∃ runner,
    dict_get (type W) NODE_RUNNERS = Some runner
    ∧ ∀ im c fs out fs',
        call_runner (call_two ws) (call_three ws not_in_subpath media)
          runner W im c fs
        = (Returns out, fs') →
        dom out = list_to_set (Editor.outs (Editor.nodePorts (type W))).
Proof.
  apply (returned_ports_are_drawn ws not_in_subpath media W).
  apply (bool_decide_unpack _). by vm_compute.
Defined.

Lemma esc_injective_witness : "a<b" = "a<b".
Proof.
  apply (esc_injective "a<b" "a<b"). reflexivity.
Defined.

End DiskWitnesses.
